(** * GoAdvMath: the dense matrix engine and Simpson's rule, embedded in Rocq

    A shallow embedding of package [advmath]: the [Matrix] type with its flat
    row-major buffer, its arithmetic, the LU decomposition, determinant,
    inverse and transpose, the messages of its errors, and the [Simpson],
    [Trapezoidal] and [Romberg] integrators.

    Conventions of the embedding.
    - [float64] is the kernel's binary64 type, with IEEE-754 round-to-nearest
      arithmetic; Go's [==] on floats is [PrimFloat.eqb].  Operations are
      rounded one by one (no fused multiply-add, as on amd64).
    - [uint] and [int] are 64 bits wide; they are integers of [Z] and every
      arithmetic operation writes its wrap-around out ([to_uint], [to_int]).
    - A slice is a window on a backing array that lives in a store; the store
      is threaded through every function, so that allocation, aliasing and
      in-place writes are those of the program.
    - A run-time panic (index out of range, slice bounds out of range, a
      length that [make] refuses) is the outcome [Panic]; a [for] loop whose
      trip count is not fixed on entry runs on fuel, and [OutOfFuel] is the
      outcome of a run that was not given enough. *)

From Stdlib Require Import ZArith Lia Floats String.
From stdpp Require Import base tactics option list numbers.

Local Open Scope Z_scope.

(** ** Machine integers *)

Module GoInt.

Definition uint_modulus : Z := 2 ^ 64.
Definition max_int : Z := 2 ^ 63 - 1.
Definition min_int : Z := - 2 ^ 63.

(** Conversion to [uint], and the result of any [uint] operation. *)
Definition to_uint (z : Z) : Z := z mod uint_modulus.

(** Conversion to [int], and the result of any [int] operation. *)
Definition to_int (z : Z) : Z := (z + 2 ^ 63) mod uint_modulus - 2 ^ 63.

Definition uadd (a b : Z) : Z := to_uint (a + b).
Definition usub (a b : Z) : Z := to_uint (a - b).
Definition umul (a b : Z) : Z := to_uint (a * b).
Definition iadd (a b : Z) : Z := to_int (a + b).
Definition isub (a b : Z) : Z := to_int (a - b).
Definition imul (a b : Z) : Z := to_int (a * b).

Definition is_uint (z : Z) : Prop := 0 <= z < uint_modulus.
Definition is_int (z : Z) : Prop := min_int <= z <= max_int.

End GoInt.
Export GoInt.

(** ** Floating point *)

Abbreviation float64 := float (only parsing).

(** [float64(n)] for an integer [n]: the nearest binary64 value. *)
Definition float64_of_int (n : Z) : float64 :=
  SF2Prim (binary_normalize prec emax n 0 false).

(** ** Outcomes and the store *)

Inductive outcome (A : Type) : Type :=
| Val (a : A)
| Panic
| OutOfFuel.
Arguments Val {A} a.
Arguments Panic {A}.
Arguments OutOfFuel {A}.

(** The store: the backing arrays allocated so far, in allocation order. *)
Abbreviation heap := (list (list float)) (only parsing).

(** A Go slice header: backing array, offset of element 0, length, capacity. *)
Record slice : Type := mkSlice {
  s_arr : nat;
  s_off : Z;
  s_len : Z;
  s_cap : Z
}.

Definition go (A : Type) : Type := heap -> outcome (A * heap).

Definition ret {A} (a : A) : go A := fun h => Val (a, h).

Definition bind {A B} (c : go A) (k : A -> go B) : go B :=
  fun h =>
    match c h with
    | Val (a, h') => k a h'
    | Panic => Panic
    | OutOfFuel => OutOfFuel
    end.

Definition panic {A} : go A := fun _ => Panic.
Definition out_of_fuel {A} : go A := fun _ => OutOfFuel.

Declare Scope go_scope.
Delimit Scope go_scope with go.
Notation "x <- c1 ;; c2" := (bind c1 (fun x => c2))
  (at level 62, c1 at next level, right associativity) : go_scope.
Local Open Scope go_scope.

(** [make([]float64, n)]: [n] is converted to [int]; a length that does not
    fit is refused with a panic.  The new array is zero-filled and its
    capacity is its length. *)
Definition make (n : Z) : go slice :=
  fun h =>
    if (0 <=? n) && (n <=? max_int)
    then Val (mkSlice (length h) 0 n n, h ++ [replicate (Z.to_nat n) 0%float])
    else Panic.

(** The element [i] of the slice [s] in the store [h], when in range. *)
Definition peek (h : heap) (s : slice) (i : Z) : option float64 :=
  if (0 <=? i) && (i <? s_len s)
  then match h !! s_arr s with
       | Some a => a !! Z.to_nat (s_off s + i)
       | None => None
       end
  else None.

(** [s[i]] as an operand. *)
Definition load (s : slice) (i : Z) : go float64 :=
  fun h => match peek h s i with Some x => Val (x, h) | None => Panic end.

(** [s[i] = v]. *)
Definition store (s : slice) (i : Z) (v : float64) : go unit :=
  fun h =>
    match peek h s i with
    | Some _ =>
        Val (tt, alter (fun a => <[Z.to_nat (s_off s + i) := v]> a) (s_arr s) h)
    | None => Panic
    end.

(** [s[lo:hi]]: the bounds are checked against the capacity. *)
Definition reslice (s : slice) (lo hi : Z) : go slice :=
  if (0 <=? lo) && (lo <=? hi) && (hi <=? s_cap s)
  then ret (mkSlice (s_arr s) (s_off s + lo) (hi - lo) (s_cap s - lo))
  else panic.

(** ** Loops *)

(** [n] iterations from [i], the index moving by [step]; the state [s] holds
    the local variables the body assigns. *)
Fixpoint for_iter {S} (n : nat) (i step : Z) (body : Z -> S -> go S) (s : S)
  : go S :=
  match n with
  | O => ret s
  | S n' => s' <- body i s ;; for_iter n' (i + step) step body s'
  end.

(** [for i = lo; i < hi; i++ { body }].  The index stops at [hi], which is a
    value of its type, so the increment never wraps. *)
Definition for_up {S} (lo hi : Z) (body : Z -> S -> go S) (s : S) : go S :=
  for_iter (Z.to_nat (hi - lo)) lo 1 body s.

(** [for i := hi; i >= lo; i-- { body }]. *)
Definition for_down {S} (hi lo : Z) (body : Z -> S -> go S) (s : S) : go S :=
  for_iter (Z.to_nat (hi - lo + 1)) hi (-1) body s.

(** [for ok := true; ok; { body }], the body ending with the assignment of
    [ok]: the body maps the state to the new state and the new [ok]. *)
Fixpoint do_while {S} (fuel : nat) (body : S -> go (S * bool)) (s : S)
  : go S :=
  match fuel with
  | O => out_of_fuel
  | S fuel' =>
      r <- body s ;;
      if snd r then do_while fuel' body (fst r) else ret (fst r)
  end.

(** [for ; cond; { body }] (the init statement done before, the post
    statement part of [body]). *)
Fixpoint while {S} (fuel : nat) (cond : S -> bool) (body : S -> go S) (s : S)
  : go S :=
  match fuel with
  | O => out_of_fuel
  | S fuel' =>
      if cond s then s' <- body s ;; while fuel' cond body s' else ret s
  end.

(** ** error.go *)

Definition errorDivisionByZero : Z := 1.
Definition errorNonSquareMatrix : Z := 2.
Definition errorMatrixIsNil : Z := 3.
Definition errorCannotMultiply : Z := 4.
Definition errorCannotAdd : Z := 5.
Definition errorNotInversible : Z := 6.

Record MathError : Type := mkMathError {
  code : Z;
  s : string
}.

(** [&MathError{code: c}]: the other field has its zero value. *)
Definition error_code (c : Z) : MathError := mkMathError c EmptyString.
(** [&MathError{s: msg}]. *)
Definition error_msg (msg : string) : MathError := mkMathError 0 msg.

(** [Error]: the message of a known code, and the field [s] for the code
    [0] and for a code that the [switch] does not list. *)
Definition Error (e : MathError) : string :=
  if negb (code e =? 0)
  then
    if code e =? errorDivisionByZero
    then "Tried to divide by zero"
    else if code e =? errorNonSquareMatrix
    then "Tried to do an operation on a non square matrix"
    else if code e =? errorMatrixIsNil
    then "Matrix is empty and has not been initialized with the rigth method"
    else if code e =? errorCannotMultiply
    then "Number of columns of first do not match the number of rows of second matrix"
    else if code e =? errorCannotAdd
    then "Can only add matrices of same size"
    else if code e =? errorNotInversible
    then "Matrix is not inversible"
    else s e
  else s e.

(** ** The matrix type *)

Record Matrix : Type := mkMatrix {
  NumberOfRows : Z;
  NumberOfColumns : Z;
  M : slice
}.

Definition NewMatrix (rows cols : Z) : go Matrix :=
  buf <- make (umul rows cols) ;;
  ret (mkMatrix rows cols buf).

Definition NewIdentity (rows : Z) : go Matrix :=
  buf <- make (umul rows rows) ;;
  let i := mkMatrix rows rows buf in
  _ <- for_up 0 (NumberOfRows i) (fun j _ =>
    for_up 0 (NumberOfRows i) (fun k _ =>
      if j =? k
      then store (M i) (uadd (umul j (NumberOfColumns i)) k) 1%float
      else ret tt) tt) tt ;;
  ret i.

Definition IsSquare (m : Matrix) : bool :=
  NumberOfColumns m =? NumberOfRows m.

Definition Get (m : Matrix) (row column : Z) : go float64 :=
  load (M m) (uadd (umul row (NumberOfColumns m)) column).

Definition GetRow (m : Matrix) (rowNumber : Z) : go slice :=
  row <- make (NumberOfColumns m) ;;
  _ <- for_up 0 (NumberOfColumns m) (fun cols _ =>
    v <- load (M m) (uadd (umul rowNumber (NumberOfColumns m)) cols) ;;
    store row cols v) tt ;;
  ret row.

Definition GetColumn (m : Matrix) (colNumber : Z) : go slice :=
  col <- make (NumberOfRows m) ;;
  _ <- for_up 0 (NumberOfRows m) (fun rows _ =>
    v <- load (M m) (uadd (umul rows (NumberOfColumns m)) colNumber) ;;
    store col rows v) tt ;;
  ret col.

(** [Set]; the name is taken in Rocq. *)
Definition Set_ (m : Matrix) (row column : Z) (value : float64) : go unit :=
  store (M m) (uadd (umul row (NumberOfColumns m)) column) value.

Definition SetRow (m : Matrix) (rowNumber : Z) (row : slice) : go Matrix :=
  _ <- for_up 0 (NumberOfColumns m) (fun cols _ =>
    v <- load row cols ;;
    store (M m) (uadd (umul rowNumber (NumberOfColumns m)) cols) v) tt ;;
  ret m.

(** [sub] is first a fresh zero matrix; its buffer is then replaced by a
    window on the receiver's buffer. *)
Definition SubMatrix (m : Matrix) (row col numberRows numberCols : Z)
  : go Matrix :=
  sub <- NewMatrix numberRows numberCols ;;
  let lo := uadd (umul row (NumberOfColumns m)) col in
  let hi := uadd (uadd (uadd (umul row (NumberOfColumns m)) col)
                       (umul numberRows (NumberOfColumns m))) numberCols in
  w <- reslice (M m) lo hi ;;
  ret (mkMatrix numberRows numberCols w).

(** ** Arithmetic *)

Definition Multiply (m in_ : Matrix)
  : go (option Matrix * option MathError) :=
  if negb (NumberOfColumns m =? NumberOfRows in_)
  then ret (None, Some (error_code errorCannotMultiply))
  else
    result <- NewMatrix (NumberOfRows m) (NumberOfColumns in_) ;;
    _ <- for_up 0 (NumberOfRows m) (fun i _ =>
      for_up 0 (NumberOfColumns in_) (fun j _ =>
        for_up 0 (NumberOfColumns m) (fun k _ =>
          let idx := uadd (umul i (NumberOfColumns result)) j in
          r <- load (M result) idx ;;
          a <- load (M m) (uadd (umul i (NumberOfColumns m)) k) ;;
          b <- load (M in_) (uadd (umul k (NumberOfColumns in_)) j) ;;
          store (M result) idx (r + a * b)%float) tt) tt) tt ;;
    ret (Some result, None).

Definition ScalarMultiply (m : Matrix) (scal : float64) : go Matrix :=
  result <- NewMatrix (NumberOfColumns m) (NumberOfRows m) ;;
  _ <- for_up 0 (NumberOfRows m) (fun row _ =>
    for_up 0 (NumberOfColumns m) (fun col _ =>
      let idx := uadd (umul row (NumberOfColumns result)) col in
      r <- load (M result) idx ;;
      store (M result) idx (r * scal)%float) tt) tt ;;
  ret result.

Definition Add (m in_ : Matrix) : go (option Matrix * option MathError) :=
  if negb (NumberOfColumns in_ =? NumberOfColumns m)
     || negb (NumberOfRows in_ =? NumberOfRows m)
  then ret (None, Some (error_code errorCannotAdd))
  else
    result <- NewMatrix (NumberOfColumns m) (NumberOfRows m) ;;
    _ <- for_up 0 (NumberOfRows m) (fun row _ =>
      for_up 0 (NumberOfColumns m) (fun col _ =>
        a <- load (M m) (uadd (umul row (NumberOfColumns m)) col) ;;
        b <- load (M in_) (uadd (umul row (NumberOfColumns in_)) col) ;;
        store (M result) (uadd (umul row (NumberOfColumns result)) col)
              (a + b)%float) tt) tt ;;
    ret (Some result, None).

Definition Neg (m : Matrix) : go Matrix :=
  ScalarMultiply m (-1)%float.

Definition Subtract (m in_ : Matrix)
  : go (option Matrix * option MathError) :=
  if negb (NumberOfColumns in_ =? NumberOfColumns m)
     || negb (NumberOfRows in_ =? NumberOfRows m)
  then ret (None, Some (error_code errorCannotAdd))
  else
    neg <- Neg in_ ;;
    Add m neg.

(** The state of the loop is [(trace, column)]. *)
Definition Trace (m : Matrix) : go (float64 * option MathError) :=
  if negb (IsSquare m)
  then ret (0%float, Some (error_code errorNonSquareMatrix))
  else
    r <- for_up 0 (NumberOfRows m) (fun row st =>
      v <- Get m row (snd st) ;;
      ret ((fst st + v)%float, uadd (snd st) 1)) (0%float, 0) ;;
    ret (fst r, None).

(** ** LU decomposition, determinant, inverse *)

Definition LUDecomposition (m : Matrix)
  : go (option Matrix * option Matrix * option MathError) :=
  if negb (IsSquare m)
  then ret (None, None, Some (error_code errorNonSquareMatrix))
  else
    l <- NewMatrix (NumberOfRows m) (NumberOfColumns m) ;;
    u <- NewMatrix (NumberOfRows m) (NumberOfColumns m) ;;
    let n := NumberOfColumns m in
    _ <- for_up 0 n (fun i _ =>
      (* Upper Triangular *)
      _ <- for_up i n (fun k _ =>
        sum <- for_up 0 i (fun j sum =>
          a <- load (M l) (uadd (umul i (NumberOfColumns l)) j) ;;
          b <- load (M u) (uadd (umul j (NumberOfColumns u)) k) ;;
          ret (sum + a * b)%float) 0%float ;;
        a <- load (M m) (uadd (umul i (NumberOfColumns m)) k) ;;
        store (M u) (uadd (umul i (NumberOfColumns u)) k) (a - sum)%float) tt ;;
      (* Lower Triangular *)
      for_up i n (fun k _ =>
        if i =? k
        then store (M l) (uadd (umul i (NumberOfColumns l)) i) 1%float
        else
          sum <- for_up 0 i (fun j sum =>
            a <- load (M l) (uadd (umul k (NumberOfColumns l)) j) ;;
            b <- load (M u) (uadd (umul j (NumberOfColumns u)) i) ;;
            ret (sum + a * b)%float) 0%float ;;
          a <- load (M m) (uadd (umul k (NumberOfColumns m)) i) ;;
          d <- load (M u) (uadd (umul i (NumberOfColumns u)) i) ;;
          store (M l) (uadd (umul k (NumberOfColumns l)) i)
                ((a - sum) / d)%float) tt) tt ;;
    ret (Some l, Some u, None).

(** The product of the diagonal of [u]: the loop that [Determinant] and
    [determinantLU] both end with; its state is [(det, column)]. *)
Definition diagonal_product (m u : Matrix) : go float64 :=
  r <- for_up 0 (NumberOfRows m) (fun row st =>
    v <- Get u row (snd st) ;;
    ret ((fst st * v)%float, uadd (snd st) 1)) (1%float, 0) ;;
  ret (fst r).

Definition Determinant (m : Matrix) : go (float64 * option MathError) :=
  if negb (IsSquare m)
  then ret (0%float, Some (error_code errorNonSquareMatrix))
  else
    r <- LUDecomposition m ;;
    match r with
    | (_, _, Some err) => ret (0%float, Some err)
    | (_, Some u, None) =>
        det <- diagonal_product m u ;;
        ret (det, None)
    | (_, None, None) => panic
    end.

Definition determinantLU (m : Matrix)
  : go (float64 * option Matrix * option Matrix * option MathError) :=
  if negb (IsSquare m)
  then ret (0%float, None, None, Some (error_code errorNonSquareMatrix))
  else
    r <- LUDecomposition m ;;
    match r with
    | (_, _, Some err) => ret (0%float, None, None, Some err)
    | (l, Some u, None) =>
        det <- diagonal_product m u ;;
        ret (det, l, Some u, None)
    | (_, None, None) => panic
    end.

(** The forward substitution [L*Y = I] of [Inverse]; the state of the loops
    is the variable [sum]. *)
Definition forward_substitution (l id y : Matrix) : go float64 :=
  for_up 0 (to_int (NumberOfColumns y)) (fun k sum =>
    col <- GetColumn id (to_uint k) ;;
    c0 <- load col 0 ;;
    l00 <- Get l 0 0 ;;
    _ <- store (M y) k (c0 / l00)%float ;;
    for_up 1 (to_int (NumberOfRows l)) (fun i sum =>
      sum <- for_up 0 i (fun j sum =>
        a <- Get l (to_uint i) (to_uint j) ;;
        b <- load (M y) (uadd (umul (to_uint j) (NumberOfColumns y))
                              (to_uint k)) ;;
        ret (sum + a * b)%float) sum ;;
      e <- Get id (to_uint i) (to_uint k) ;;
      d <- Get l (to_uint i) (to_uint i) ;;
      _ <- store (M y) (uadd (umul (to_uint i) (NumberOfColumns y))
                             (to_uint k))
                 ((e - sum) / d)%float ;;
      ret 0%float) sum) 0%float.

(** The backward substitution [U*X = Y]; the state is the variable [sum2]. *)
Definition backward_substitution (u y x : Matrix) : go float64 :=
  for_up 0 (to_int (NumberOfColumns x)) (fun n sum2 =>
    let c := usub (usub (NumberOfColumns x) 1) (to_uint n) in
    col <- GetColumn y c ;;
    yl <- load col (isub (to_int (NumberOfRows y)) 1) ;;
    d <- Get u (usub (NumberOfRows x) 1) (usub (NumberOfColumns x) 1) ;;
    _ <- Set_ x (usub (NumberOfRows x) 1) c (yl / d)%float ;;
    for_down (isub (to_int (NumberOfColumns x)) 2) 0 (fun o sum2 =>
      sum2 <- for_up (iadd o 1) (to_int (NumberOfRows x)) (fun p sum2 =>
        a <- Get u (to_uint o) (to_uint p) ;;
        b <- Get x (to_uint p) c ;;
        ret (sum2 + a * b)%float) sum2 ;;
      yo <- Get y (to_uint o) c ;;
      d <- Get u (to_uint o) (to_uint o) ;;
      _ <- Set_ x (to_uint o) c ((yo - sum2) / d)%float ;;
      ret 0%float) sum2) 0%float.

Definition Inverse (m : Matrix) : go (option Matrix * option MathError) :=
  r <- determinantLU m ;;
  match r with
  | (_, _, _, Some error) => ret (None, Some error)
  | (det, ol, ou, None) =>
      if PrimFloat.eqb det 0%float
      then ret (None, Some (error_code errorNotInversible))
      else
        match ol, ou with
        | Some l, Some u =>
            id <- NewIdentity (NumberOfRows m) ;;
            y <- NewMatrix (NumberOfRows m) (NumberOfColumns m) ;;
            _ <- forward_substitution l id y ;;
            x <- NewMatrix (NumberOfRows m) (NumberOfColumns m) ;;
            _ <- backward_substitution u y x ;;
            ret (Some x, None)
        | _, _ => panic
        end
  end.

(** ** Transpose *)

(** [a / b] and [a % b] on [int64]: truncated, a zero divisor panics. *)
Definition idiv (a b : Z) : go Z :=
  if b =? 0 then panic else ret (to_int (Z.quot a b)).
Definition irem (a b : Z) : go Z :=
  if b =? 0 then panic else ret (to_int (Z.rem a b)).

(** The expression
    [(j%int64(m.NumberOfRows))*int64(m.NumberOfColumns) + j/int64(m.NumberOfRows)]
    that both inner loops of [nonSquareTranspose] evaluate. *)
Definition cycle_next (m : Matrix) (j : Z) : go Z :=
  r <- irem j (to_int (NumberOfRows m)) ;;
  q <- idiv j (to_int (NumberOfRows m)) ;;
  ret (iadd (imul r (to_int (NumberOfColumns m))) q).

(** The variables [j] and [i] of [nonSquareTranspose]. *)
Record cursor : Type := mkCursor { cur_j : Z; cur_i : Z }.

Definition nonSquareTranspose (fuel : nat) (m : Matrix) : go Matrix :=
  ret_ <- NewMatrix (NumberOfColumns m) (NumberOfRows m) ;;
  let last := to_int (usub (umul (NumberOfRows m) (NumberOfColumns m)) 1) in
  _ <- while fuel (fun st => fst st <=? last) (fun st =>
    let start := fst st in
    (* j = start; i = 0 *)
    c <- do_while fuel (fun c =>
      let i := iadd (cur_i c) 1 in
      j <- cycle_next m (cur_j c) ;;
      ret (mkCursor j i, start <? j)) (mkCursor start 0) ;;
    (* j = start; tmp = m.M[j] *)
    let j := start in
    tmp <- load (M m) j ;;
    c <- do_while fuel (fun c =>
      let j := cur_j c in
      i <- cycle_next m j ;;
      v <- load (M m) i ;;
      _ <- store (M ret_) j v ;;
      _ <- (if i =? start then store (M ret_) j tmp else ret tt) ;;
      ret (mkCursor i i, start <? i)) (mkCursor j (cur_i c)) ;;
    ret (iadd start 1, c)) (0, mkCursor 0 0) ;;
  ret ret_.

Definition Transpose (fuel : nat) (m : Matrix)
  : go (option Matrix * option MathError) :=
  if negb (IsSquare m)
  then
    t <- nonSquareTranspose fuel m ;;
    ret (Some t, None)
  else
    ret_ <- NewMatrix (NumberOfColumns m) (NumberOfRows m) ;;
    (* copy diagonal *)
    _ <- for_up 0 (to_int (NumberOfRows m)) (fun k _ =>
      v <- Get m (to_uint k) (to_uint k) ;;
      Set_ ret_ (to_uint k) (to_uint k) v) tt ;;
    _ <- while fuel (fun i => i <=? isub (to_int (NumberOfRows m)) 2) (fun i =>
      _ <- while fuel (fun j => j <=? isub (to_int (NumberOfRows m)) 1)
        (fun j =>
          v <- Get m (to_uint i) (to_uint j) ;;
          _ <- Set_ ret_ (to_uint j) (to_uint i) v ;;
          w <- Get m (to_uint j) (to_uint i) ;;
          _ <- Set_ ret_ (to_uint i) (to_uint j) w ;;
          ret (iadd j 1)) (iadd i 1) ;;
      ret (iadd i 1)) 0 ;;
    ret (Some ret_, None).

(** ** The two functions left unwritten *)

Definition QRDecomposition (m : Matrix)
  : go (option Matrix * option MathError) :=
  ret (None, None).

Definition Cofactor (m : Matrix) : go (option Matrix * option MathError) :=
  if negb (IsSquare m)
  then ret (None, Some (error_code errorNonSquareMatrix))
  else ret (None, None).

(** ** Simpson's rule *)

(** A value of type [F] is taken to be a total function without effects. *)
Definition F : Type := float64 -> float64.

(** The states of the two loops are [(i, s)] and [(j, s)]. *)
Definition Simpson (fuel : nat) (inf sup : float64) (f : F) (n : Z)
  : go (float64 * option MathError) :=
  if negb (Z.rem n 2 =? 0)
  then ret (0%float,
            Some (error_msg "Invalid number of iterations, for simpson, iterations number has to be even"))
  else
    let h := ((sup - inf) / float64_of_int n)%float in
    let s := (f inf + f sup)%float in
    r <- while fuel (fun st => fst st <? n) (fun st =>
      let i := fst st in
      ret (iadd i 2,
           (snd st + 4 * f (inf + float64_of_int i * h))%float)) (1, s) ;;
    r <- while fuel (fun st => fst st <? isub n 1) (fun st =>
      let j := fst st in
      ret (iadd j 2,
           (snd st + 2 * f (inf + float64_of_int j * h))%float)) (2, snd r) ;;
    ret ((snd r * h / 3)%float, None).

(** ** The trapezoidal rule and Romberg's method *)

(** [for i := lo; ...; i++ { body }] with a [break]: the body maps the state
    to the new state and tells whether it broke out; [n] is the number of
    iterations left. *)
Fixpoint for_break {S} (n : nat) (i : Z) (body : Z -> S -> S * bool) (s : S)
  : S :=
  match n with
  | O => s
  | S n' =>
      let r := body i s in
      if snd r then fst r else for_break n' (i + 1) body (fst r)
  end.

(** The state of the loop is [(result, previous)].  The index stops at [n],
    so the loop runs [n - 1] times unless it breaks. *)
Definition Trapezoidal (inf sup : float64) (f : F) (n : Z)
           (precision : float64) : float64 :=
  let n := if n =? 0 then 100000 else n in
  let h := ((sup - inf) / float64_of_int n)%float in
  let result := (0.5 * f inf + 0.5 * f sup)%float in
  let st := for_break (Z.to_nat (n - 1)) 1 (fun i st =>
    let previous := fst st in
    let result := (fst st + f (inf + float64_of_int i * h))%float in
    ((result, previous),
     PrimFloat.leb (abs (result - previous)) precision)) (result, 0%float) in
  (fst st * h)%float.

Section Romberg.

(** [math.Pow], and the conversion [int(x)] of a [float64], are those of the
    Go library and compiler: they are taken as given. *)
Variable Pow : float64 -> float64 -> float64.
Variable int_of_float64 : float64 -> Z.

(** The state of the loop is [(j, c)]. *)
Definition trapezoidalr (fuel : nat) (inf sup : float64) (f : F) (m : Z)
           (previous : float64) : go float64 :=
  if 1 <? m
  then
    let ep := int_of_float64 (Pow 2 (float64_of_int (isub m 2))) in
    r <- while fuel (fun st => fst st <=? ep) (fun st =>
      let j := fst st in
      let y :=
        ((float64_of_int (iadd (isub (imul 2 ep) (imul 2 j)) 1) * inf
          + float64_of_int (isub (imul 2 j) 1) * sup)
         / (2 * float64_of_int ep))%float in
      ret (iadd j 1, (snd st + f y)%float)) (1, 0%float) ;;
    ret (0.5 * previous + (sup - inf) * snd r / (2 * float64_of_int ep))%float
  else ret ((sup - inf) / 2 * (f sup + f inf))%float.

(** The variables of the loop of [Romberg]; [rb_break] is set by [break]. *)
Record romberg_state : Type := mkRomberg {
  rb_i : Z;
  rb_previousNew : float64;
  rb_currentNew : float64;
  rb_break : bool
}.

Definition Romberg (fuel : nat) (inf sup : float64) (f : F) (maxSteps : Z)
           (precision : float64) : go float64 :=
  let maxSteps := if maxSteps =? 0 then 20 else maxSteps in
  r <- while fuel
    (fun st => negb (rb_break st) && (rb_i st <=? maxSteps))
    (fun st =>
      let i := rb_i st in
      let previous := rb_previousNew st in
      previousNew <- trapezoidalr fuel inf sup f i previous ;;
      if i =? 1
      then ret (mkRomberg (iadd i 1) previousNew previousNew false)
      else
        let current := rb_currentNew st in
        let currentNew := ((4 * previousNew - previous) / 3)%float in
        if (1 <? i) && PrimFloat.ltb (abs (currentNew - current)) precision
        then ret (mkRomberg i previousNew currentNew true)
        else ret (mkRomberg (iadd i 1) previousNew currentNew false))
    (mkRomberg 1 0%float 0%float false) ;;
  ret (rb_currentNew r).

End Romberg.

(** ** Running the model on concrete matrices *)

(** A matrix built the way the tests build theirs: [NewMatrix] and then the
    elements written in row-major order. *)
Fixpoint fill (s : slice) (i : Z) (vs : list float64) : go unit :=
  match vs with
  | [] => ret tt
  | v :: vs' => _ <- store s i v ;; fill s (i + 1) vs'
  end.

Definition matrix_of (rows cols : Z) (vs : list float64) : go Matrix :=
  m <- NewMatrix rows cols ;;
  _ <- fill (M m) 0 vs ;;
  ret m.

(** The elements of a matrix, read from the store. *)
Definition elements (h : heap) (m : Matrix) : list float64 :=
  match h !! s_arr (M m) with
  | Some a => take (Z.to_nat (s_len (M m))) (drop (Z.to_nat (s_off (M m))) a)
  | None => []
  end.

(** The result of a run from the empty store, the store left out. *)
Definition run {A} (c : go A) : outcome A :=
  match c [] with
  | Val (a, _) => Val a
  | Panic => Panic
  | OutOfFuel => OutOfFuel
  end.

(** What a caller can see of a returned matrix: shape and elements. *)
Definition observe (c : go (option Matrix * option MathError))
  : outcome (option (Z * Z * list float64) * option MathError) :=
  match c [] with
  | Val ((Some m, e), h) =>
      Val (Some (NumberOfRows m, NumberOfColumns m, elements h m), e)
  | Val ((None, e), _) => Val (None, e)
  | Panic => Panic
  | OutOfFuel => OutOfFuel
  end.

(** * Reasoning about runs *)

(** ** Machine arithmetic without wrap-around *)

Lemma to_uint_small z : 0 <= z < 2 ^ 64 -> to_uint z = z.
Proof. intros. unfold to_uint, uint_modulus. by apply Z.mod_small. Qed.

Lemma to_int_small z : - 2 ^ 63 <= z < 2 ^ 63 -> to_int z = z.
Proof.
  intros. unfold to_int, uint_modulus.
  rewrite Z.mod_small; lia.
Qed.

(** Row-major offsets stay inside the buffer. *)
Lemma offset_bound r c R C :
  0 <= r < R -> 0 <= c < C -> 0 <= r * C + c < R * C.
Proof. intros. nia. Qed.

Lemma offset_uint r c R C :
  0 <= r < R -> 0 <= c < C -> R * C <= max_int ->
  uadd (umul r C) c = r * C + c.
Proof.
  intros Hr Hc HN. pose proof (offset_bound r c R C Hr Hc) as Hb.
  unfold max_int in HN.
  assert (0 <= r * C) by nia.
  unfold uadd, umul.
  rewrite (to_uint_small (r * C)) by lia.
  apply to_uint_small. lia.
Qed.

Lemma offset_div r c C : 0 <= c < C -> (r * C + c) / C = r.
Proof.
  intros. rewrite Z.add_comm, Z.div_add by lia.
  rewrite Z.div_small; lia.
Qed.

Lemma offset_mod r c C : 0 <= c < C -> (r * C + c) mod C = c.
Proof.
  intros. rewrite Z.add_comm, Z.mod_add by lia.
  apply Z.mod_small; lia.
Qed.

(** Offsets determine the row and the column. *)
Lemma offset_inj r c r' c' C :
  0 <= c < C -> 0 <= c' < C -> r * C + c = r' * C + c' -> r = r' /\ c = c'.
Proof.
  intros Hc Hc' Heq.
  assert (r = r') as ->.
  { rewrite <- (offset_div r c C), <- (offset_div r' c' C) by done.
    by rewrite Heq. }
  split; [done | lia].
Qed.

(** ** Weakest preconditions for total runs *)

(** [wp c h Q]: from the store [h], [c] returns (it neither panics nor runs
    out of fuel) and the result and the final store satisfy [Q]. *)
Definition wp {A} (c : go A) (h : heap) (Q : A -> heap -> Prop) : Prop :=
  exists a h', c h = Val (a, h') /\ Q a h'.

Lemma wp_ret {A} (a : A) h (Q : A -> heap -> Prop) : Q a h -> wp (ret a) h Q.
Proof. intros. by exists a, h. Qed.

Lemma wp_bind {A B} (c : go A) (k : A -> go B) h (Q : B -> heap -> Prop) :
  wp c h (fun a h' => wp (k a) h' Q) -> wp (bind c k) h Q.
Proof.
  intros (a & h' & Hc & b & h'' & Hk & HQ).
  exists b, h''. unfold bind. by rewrite Hc.
Qed.

Lemma wp_mono {A} (c : go A) h (Q Q' : A -> heap -> Prop) :
  wp c h Q -> (forall a h', Q a h' -> Q' a h') -> wp c h Q'.
Proof. intros (a & h' & Hc & HQ) HQQ. exists a, h'. auto. Qed.

Lemma wp_val {A} (c : go A) h a h' (Q : A -> heap -> Prop) :
  c h = Val (a, h') -> Q a h' -> wp c h Q.
Proof. intros. by exists a, h'. Qed.

Lemma wp_load s i h x (Q : float64 -> heap -> Prop) :
  peek h s i = Some x -> Q x h -> wp (load s i) h Q.
Proof. intros Hp HQ. exists x, h. unfold load. by rewrite Hp. Qed.

Lemma wp_store s i v h x (Q : unit -> heap -> Prop) :
  peek h s i = Some x ->
  Q tt (alter (fun a => <[Z.to_nat (s_off s + i) := v]> a) (s_arr s) h) ->
  wp (store s i v) h Q.
Proof. intros Hp HQ. eexists _, _. unfold store. rewrite Hp. eauto. Qed.

Lemma wp_make n h (Q : slice -> heap -> Prop) :
  0 <= n <= max_int ->
  Q (mkSlice (length h) 0 n n) (h ++ [replicate (Z.to_nat n) 0%float]) ->
  wp (make n) h Q.
Proof.
  intros Hn HQ. eexists _, _. unfold make.
  destruct (Z.leb_spec 0 n), (Z.leb_spec n max_int); try lia. eauto.
Qed.

(** The rule of a counted loop: [I] holds of the index, the loop state and
    the store before each iteration and after the last. *)
Lemma wp_for_iter {St} (J : nat -> St -> heap -> Prop) n i step
      (body : Z -> St -> go St) s h :
  J 0%nat s h ->
  (forall k s h, (k < n)%nat -> J k s h ->
     wp (body (i + Z.of_nat k * step) s) h (J (S k))) ->
  wp (for_iter n i step body s) h (J n).
Proof.
  revert J i s h. induction n as [|n IH]; intros J i s h HJ Hbody.
  - by apply wp_ret.
  - simpl for_iter. apply wp_bind.
    eapply wp_mono.
    + specialize (Hbody 0%nat s h).
      replace (i + Z.of_nat 0 * step) with i in Hbody by lia.
      apply Hbody; [lia | done].
    + intros s' h' HJ'.
      apply (IH (fun k => J (S k))); [done|].
      intros k s0 h0 Hk HJ0.
      replace (i + step + Z.of_nat k * step)
        with (i + Z.of_nat (S k) * step) by lia.
      apply Hbody; [lia | done].
Qed.

Lemma wp_for_up {St} (I : Z -> St -> heap -> Prop) lo hi
      (body : Z -> St -> go St) s h (Q : St -> heap -> Prop) :
  lo <= hi ->
  I lo s h ->
  (forall i s h, lo <= i < hi -> I i s h -> wp (body i s) h (I (i + 1))) ->
  (forall s h, I hi s h -> Q s h) ->
  wp (for_up lo hi body s) h Q.
Proof.
  intros Hle HI Hbody HQ. unfold for_up.
  eapply wp_mono.
  - apply (wp_for_iter (fun k => I (lo + Z.of_nat k))).
    + by replace (lo + Z.of_nat 0) with lo by lia.
    + intros k s0 h0 Hk HI0.
      replace (lo + Z.of_nat (S k)) with (lo + Z.of_nat k * 1 + 1) by lia.
      apply Hbody; [lia|].
      by replace (lo + Z.of_nat k * 1) with (lo + Z.of_nat k) by lia.
  - intros s' h' HI'. apply HQ.
    by replace (lo + Z.of_nat (Z.to_nat (hi - lo))) with hi in HI' by lia.
Qed.

Lemma wp_for_down {St} (I : Z -> St -> heap -> Prop) hi lo
      (body : Z -> St -> go St) s h (Q : St -> heap -> Prop) :
  lo - 1 <= hi ->
  I hi s h ->
  (forall i s h, lo <= i <= hi -> I i s h -> wp (body i s) h (I (i - 1))) ->
  (forall s h, I (lo - 1) s h -> Q s h) ->
  wp (for_down hi lo body s) h Q.
Proof.
  intros Hle HI Hbody HQ. unfold for_down.
  eapply wp_mono.
  - apply (wp_for_iter (fun k => I (hi - Z.of_nat k))).
    + by replace (hi - Z.of_nat 0) with hi by lia.
    + intros k s0 h0 Hk HI0.
      replace (hi - Z.of_nat (S k)) with (hi + Z.of_nat k * -1 - 1) by lia.
      apply Hbody; [lia|].
      by replace (hi + Z.of_nat k * -1) with (hi - Z.of_nat k) by lia.
  - intros s' h' HI'. apply HQ.
    by replace (hi - Z.of_nat (Z.to_nat (hi - lo + 1)))
      with (lo - 1) in HI' by lia.
Qed.

(** * Simpson's rule: errors and termination *)

Section SimpsonLoops.

Variable g : Z * float64 -> float64.
Variable B : Z.

(** The shape of both loops of [Simpson]: an index that moves by two up
    to a bound, and an accumulator. *)
Definition count_by_two (fuel : nat) (st : Z * float64)
  : go (Z * float64) :=
  while fuel (fun st => fst st <? B)
             (fun st => ret (iadd (fst st) 2, g st)) st.

(** Below the largest [int] the index cannot wrap, and the loop ends. *)
Lemma count_by_two_returns fuel i s h :
  min_int <= i -> B <= max_int - 1 ->
  (Z.to_nat (B - i) < fuel)%nat ->
  exists i' s', count_by_two fuel (i, s) h = Val ((i', s'), h).
Proof.
  unfold count_by_two, min_int, max_int.
  revert i s. induction fuel as [|fuel IH]; intros i s Hi HB Hfuel; [lia|].
  simpl. destruct (Z.ltb_spec i B) as [Hlt|Hge].
  - unfold bind, ret. simpl.
    assert (iadd i 2 = i + 2) as ->.
    { unfold iadd. apply to_int_small. lia. }
    apply IH; lia.
  - unfold ret. eauto.
Qed.

(** With the largest [int] as its bound, an even index never reaches
    it: the addition wraps around and the loop goes on. *)
Lemma count_by_two_spins fuel i s h :
  B = max_int -> min_int <= i <= max_int -> i mod 2 = 0 ->
  count_by_two fuel (i, s) h = OutOfFuel.
Proof.
  unfold count_by_two, min_int, max_int.
  revert i s. induction fuel as [|fuel IH]; intros i s HB Hi Heven; [done|].
  simpl. destruct (Z.ltb_spec i B) as [Hlt|Hge].
  - unfold bind, ret. simpl.
    destruct (decide (i = 2 ^ 63 - 2)) as [->|Hne].
    + apply IH; [done | by vm_compute | by vm_compute].
    + assert (iadd i 2 = i + 2) as ->.
      { unfold iadd. apply to_int_small.
        assert (i <> 2 ^ 63 - 1) by (intros ->; by vm_compute in Heven).
        lia. }
      apply IH; [done | | ].
      * assert (i <> 2 ^ 63 - 1) by (intros ->; by vm_compute in Heven).
        lia.
      * rewrite <- Heven.
        replace (i + 2) with (i + 1 * 2) by lia. apply Z.mod_add. lia.
  - subst B. assert (i = 2 ^ 63 - 1) as -> by lia. by vm_compute in Heven.
Qed.

End SimpsonLoops.

Lemma Simpson_unfold fuel inf sup f n :
  Simpson fuel inf sup f n =
  if negb (Z.rem n 2 =? 0)
  then ret (0%float,
            Some (error_msg "Invalid number of iterations, for simpson, iterations number has to be even"))
  else
    let h := ((sup - inf) / float64_of_int n)%float in
    r <- count_by_two
           (fun st => (snd st + 4 * f (inf + float64_of_int (fst st) * h))%float)
           n fuel (1, (f inf + f sup)%float) ;;
    r <- count_by_two
           (fun st => (snd st + 2 * f (inf + float64_of_int (fst st) * h))%float)
           (isub n 1) fuel (2, snd r) ;;
    ret ((snd r * h / 3)%float, None).
Proof. reflexivity. Qed.

(** A call that no amount of fuel lets return. *)
Definition never_returns {A} (c : nat -> go A) (h : heap) : Prop :=
  forall fuel, c fuel h = OutOfFuel.

Ltac count_returns :=
  match goal with
  | |- context [count_by_two ?g ?B ?fuel (?i, ?s) ?h] =>
      let i' := fresh "i'" in
      let s' := fresh "s'" in
      let E := fresh "E" in
      destruct (count_by_two_returns g B fuel i s h) as (i' & s' & E);
      [unfold min_int, max_int; lia | unfold min_int, max_int; lia | try lia
      | rewrite E; clear E ]
  end.

(** For [n = math.MinInt64], which is even, the bound [n-1] of the second
    loop wraps around to the largest [int], which the even index [j] never
    reaches. *)
Lemma Simpson_min_int fuel inf sup f h :
  Simpson fuel inf sup f min_int h = OutOfFuel.
Proof.
  rewrite Simpson_unfold.
  replace (negb (Z.rem min_int 2 =? 0)) with false by by vm_compute.
  cbv zeta. unfold bind.
  destruct fuel as [|fuel]; [done|].
  count_returns.
  { replace (Z.to_nat (min_int - 1)) with 0%nat by by vm_compute. lia. }
  rewrite count_by_two_spins; [done | by vm_compute | by vm_compute | done].
Qed.

(** C10, the call the claim misses: [Simpson(0, 1, f, math.MinInt64)] with
    [f] the identity returns neither an error nor a value. *)
Lemma Simpson_min_int_never_returns :
  never_returns
    (fun fuel => Simpson fuel 0%float 1%float (fun x => x) min_int) [].
Proof. intros fuel. apply Simpson_min_int. Qed.

(** C10 (amended): [Simpson] returns an error exactly when [n] is odd, with
    the value 0; for every even [n] other than the least [int] it returns a
    value and a nil error, whatever [inf], [sup] and [f] are, once the fuel
    covers the iterations of its loops. *)
Theorem Simpson_error_iff_odd inf sup f n h :
  is_int n ->
  (Z.rem n 2 <> 0 ->
   forall fuel, exists e,
     Simpson fuel inf sup f n h = Val ((0%float, Some e), h)) /\
  (Z.rem n 2 = 0 -> n <> min_int ->
   forall fuel, (Z.to_nat n < fuel)%nat -> exists v,
     Simpson fuel inf sup f n h = Val ((v, None), h)).
Proof.
  intros [Hlo Hhi]. unfold min_int, max_int in *. split.
  - intros Hodd fuel. rewrite Simpson_unfold.
    destruct (Z.eqb_spec (Z.rem n 2) 0); [done|]. simpl.
    unfold ret. eauto.
  - intros Heven Hmin fuel Hfuel. rewrite Simpson_unfold.
    destruct (Z.eqb_spec (Z.rem n 2) 0); [|done]. simpl.
    assert (n <> 2 ^ 63 - 1) by (intros ->; by vm_compute in Heven).
    assert (isub n 1 = n - 1) as ->.
    { unfold isub. apply to_int_small. lia. }
    unfold bind.
    count_returns. simpl snd. count_returns.
    unfold ret. eauto.
Qed.

Lemma Simpson_error_iff_odd_witness :
  (exists e, Simpson 0 0%float 1%float (fun x => x) 7 [] = Val ((0%float, Some e), []))
  /\ (exists v, Simpson 6 0%float 1%float (fun x => x) 4 [] = Val ((v, None), [])).
Proof.
  destruct (Simpson_error_iff_odd 0%float 1%float (fun x => x) 7 [])
    as [Hodd _]; [by vm_compute|].
  destruct (Simpson_error_iff_odd 0%float 1%float (fun x => x) 4 [])
    as [_ Heven]; [by vm_compute|].
  split.
  - apply Hodd. by vm_compute.
  - apply Heven; [by vm_compute | by vm_compute | vm_compute; lia].
Defined.

(** * The store: old arrays and fresh arrays *)

(** A slice of an array allocated before [h] grew reads the same. *)
Lemma peek_old (h ext : heap) s i :
  (s_arr s < length h)%nat -> peek (h ++ ext) s i = peek h s i.
Proof. intros. unfold peek. by rewrite lookup_app_l. Qed.

(** A slice that is a whole array [cur], as [make] returns it. *)
Lemma peek_new (h pre : heap) cur (post : heap) s i :
  s_arr s = (length h + length pre)%nat -> s_off s = 0 ->
  0 <= i < s_len s ->
  peek (h ++ pre ++ cur :: post) s i = cur !! Z.to_nat i.
Proof.
  intros Ha Ho Hi. unfold peek.
  destruct (Z.leb_spec 0 i), (Z.ltb_spec i (s_len s)); try lia. simpl.
  rewrite Ha, Ho, app_assoc, list_lookup_middle by (by rewrite length_app).
  done.
Qed.

Lemma alter_new {A} (f : A -> A) (h pre : list A) cur post p :
  p = (length h + length pre)%nat ->
  alter f p (h ++ pre ++ cur :: post) = h ++ pre ++ f cur :: post.
Proof.
  intros ->. rewrite !app_assoc.
  rewrite <- length_app.
  replace (length (h ++ pre)) with (length (h ++ pre) + 0)%nat by lia.
  by rewrite alter_app_r.
Qed.

Lemma wp_load_old (h ext : heap) s i x (Q : float -> heap -> Prop) :
  (s_arr s < length h)%nat -> peek h s i = Some x ->
  Q x (h ++ ext) -> wp (load s i) (h ++ ext) Q.
Proof. intros. eapply wp_load; [|done]. by rewrite peek_old. Qed.

Lemma wp_load_new (h pre : heap) cur (post : heap) s i x
      (Q : float -> heap -> Prop) :
  s_arr s = (length h + length pre)%nat -> s_off s = 0 ->
  0 <= i < s_len s -> cur !! Z.to_nat i = Some x ->
  Q x (h ++ pre ++ cur :: post) ->
  wp (load s i) (h ++ pre ++ cur :: post) Q.
Proof. intros. eapply wp_load; [|done]. by rewrite peek_new. Qed.

Lemma wp_store_new (h pre : heap) cur (post : heap) s i v
      (Q : unit -> heap -> Prop) :
  s_arr s = (length h + length pre)%nat -> s_off s = 0 ->
  0 <= i < s_len s -> s_len s <= Z.of_nat (length cur) ->
  Q tt (h ++ pre ++ <[Z.to_nat i := v]> cur :: post) ->
  wp (store s i v) (h ++ pre ++ cur :: post) Q.
Proof.
  intros Ha Ho Hi Hlen HQ.
  destruct (lookup_lt_is_Some_2 cur (Z.to_nat i)) as [x Hx]; [lia|].
  eapply wp_store.
  - rewrite peek_new by done. exact Hx.
  - rewrite alter_new by done. by rewrite Ho.
Qed.

(** ** Well-formed matrices *)

(** The invariant of the data model: the buffer holds [rows*cols] elements,
    a product that does not wrap, and the slice lies within an array of the
    store. *)
Record wf (h : heap) (m : Matrix) : Prop := mk_wf {
  wf_rows : 0 <= NumberOfRows m < 2 ^ 64;
  wf_cols : 0 <= NumberOfColumns m < 2 ^ 64;
  wf_len : s_len (M m) = NumberOfRows m * NumberOfColumns m;
  wf_max : s_len (M m) <= max_int;
  wf_off : 0 <= s_off (M m);
  wf_cap : s_len (M m) <= s_cap (M m);
  wf_arr : exists a, h !! s_arr (M m) = Some a /\
                     s_off (M m) + s_cap (M m) <= Z.of_nat (length a)
}.

Lemma wf_arr_lt h m : wf h m -> (s_arr (M m) < length h)%nat.
Proof.
  intros [_ _ _ _ _ _ (a & Ha & _)]. by eapply lookup_lt_Some.
Qed.

Lemma wf_app h ext m : wf h m -> wf (h ++ ext) m.
Proof.
  intros [Hr Hc Hlen Hmax Hoff Hcap (a & Ha & Hb)].
  split; try done. exists a. split; [|done]. by apply lookup_app_l_Some.
Qed.

Lemma elements_app h ext m :
  (s_arr (M m) < length h)%nat -> elements (h ++ ext) m = elements h m.
Proof. intros. unfold elements. by rewrite lookup_app_l. Qed.

(** The elements of a well-formed matrix are what [peek] reads. *)
Lemma elements_lookup h m i :
  wf h m -> 0 <= i < NumberOfRows m * NumberOfColumns m ->
  elements h m !! Z.to_nat i = peek h (M m) i.
Proof.
  intros [Hr Hc Hlen Hmax Hoff Hcap (a & Ha & Hb)] Hi.
  unfold elements, peek.
  destruct (Z.leb_spec 0 i), (Z.ltb_spec i (s_len (M m))); try lia. simpl.
  rewrite Ha, lookup_take_lt, lookup_drop by lia.
  f_equal. lia.
Qed.

Lemma length_elements h m :
  wf h m ->
  Z.of_nat (length (elements h m)) = NumberOfRows m * NumberOfColumns m.
Proof.
  intros [Hr Hc Hlen Hmax Hoff Hcap (a & Ha & Hb)].
  unfold elements. rewrite Ha, length_take, length_drop. lia.
Qed.

(** Reading an element of a well-formed matrix never panics. *)
Lemma Get_peek h m r c x :
  wf h m -> 0 <= r < NumberOfRows m -> 0 <= c < NumberOfColumns m ->
  peek h (M m) (r * NumberOfColumns m + c) = Some x ->
  Get m r c h = Val (x, h).
Proof.
  intros Hwf Hr Hc Hx. unfold Get, load.
  rewrite (offset_uint r c (NumberOfRows m)) by (destruct Hwf; lia).
  by rewrite Hx.
Qed.

(** * Transposition *)

(** ** The index permutation of a transposition *)

(** Where the element at offset [j] of the [C]-by-[R] transpose lies in
    the [R]-by-[C] original. *)
Definition sigma (R C j : Z) : Z := (j mod R) * C + j / R.

Lemma sigma_bound R C j :
  0 < R -> 0 <= j < R * C -> 0 <= sigma R C j < R * C.
Proof.
  intros HR Hj. unfold sigma.
  assert (0 <= j mod R < R) by (apply Z.mod_pos_bound; lia).
  assert (0 <= j / R < C).
  { split; [apply Z.div_pos; lia|]. apply Z.div_lt_upper_bound; lia. }
  apply offset_bound; lia.
Qed.

Lemma sigma_offset R C r c :
  0 <= r < R -> 0 <= c < C -> sigma R C (c * R + r) = r * C + c.
Proof.
  intros Hr Hc. unfold sigma. rewrite offset_mod, offset_div; lia.
Qed.

Lemma sigma_inv R C j :
  0 < R -> 0 <= j < R * C -> sigma C R (sigma R C j) = j.
Proof.
  intros HR Hj. unfold sigma at 2.
  assert (0 <= j mod R < R) by (apply Z.mod_pos_bound; lia).
  assert (0 <= j / R < C).
  { split; [apply Z.div_pos; lia|]. apply Z.div_lt_upper_bound; lia. }
  rewrite sigma_offset by lia.
  rewrite (Z.div_mod j R) at 3 by lia. lia.
Qed.

Lemma sigma_inj R C i j :
  0 < R -> 0 <= i < R * C -> 0 <= j < R * C ->
  sigma R C i = sigma R C j -> i = j.
Proof.
  intros HR Hi Hj Heq.
  rewrite <- (sigma_inv R C i), <- (sigma_inv R C j) by done.
  by rewrite Heq.
Qed.

(** ** Orbits of an injection of a finite range *)

Section Orbit.

Variable f : Z -> Z.
Variable N : Z.
Hypothesis f_range : forall j, 0 <= j < N -> 0 <= f j < N.
Hypothesis f_inj :
  forall i j, 0 <= i < N -> 0 <= j < N -> f i = f j -> i = j.

Lemma iter_range k s : 0 <= s < N -> 0 <= Nat.iter k f s < N.
Proof. intros Hs. induction k as [|k IH]; simpl; auto. Qed.

Lemma iter_cancel a b s :
  0 <= s < N -> (a <= b)%nat ->
  Nat.iter a f s = Nat.iter b f s -> Nat.iter (b - a) f s = s.
Proof.
  intros Hs. revert b. induction a as [|a IH]; intros b Hab Heq.
  - by rewrite Nat.sub_0_r.
  - destruct b as [|b]; [lia|]. simpl in *.
    apply IH; [lia|]. apply f_inj; auto using iter_range.
Qed.

(** Every point comes back to itself, within [N] steps. *)
Lemma orbit_returns s :
  0 <= s < N ->
  exists K, (1 <= K <= Z.to_nat N)%nat /\ Nat.iter K f s = s.
Proof.
  intros Hs. set (n := Z.to_nat N).
  destruct (decide (Exists (fun K => Nat.iter K f s = s) (seq 1 n)))
    as [Hex|Hno].
  - apply list.Exists_exists in Hex as (K & HK & Heq).
    apply elem_of_seq in HK. exists K. split; [lia | done].
  - exfalso.
    apply list.not_Exists_Forall in Hno; [|intros K; apply _].
    rewrite list.Forall_forall in Hno.
    assert (NoDup ((fun K => Nat.iter K f s) <$> seq 0 (S n))) as Hnd.
    { apply NoDup_fmap_2_strong; [|apply NoDup_seq].
      intros a b Ha Hb Heq. apply elem_of_seq in Ha, Hb.
      destruct (decide (a = b)) as [|Hne]; [done|]. exfalso.
      destruct (decide (a < b)%nat).
      - apply (Hno (b - a)%nat); [apply elem_of_seq; lia|].
        apply iter_cancel; [done | lia | done].
      - apply (Hno (a - b)%nat); [apply elem_of_seq; lia|].
        apply iter_cancel; [done | lia | done]. }
    apply (NoDup_submseteq _ (seqZ 0 N)) in Hnd.
    + apply submseteq_length in Hnd.
      rewrite length_fmap, length_seq, length_seqZ in Hnd. lia.
    + intros x Hx. apply list_elem_of_fmap in Hx as (K & -> & _).
      apply elem_of_seqZ. pose proof (iter_range K s Hs). lia.
Qed.

End Orbit.

(** ** Loops on fuel *)

(** A loop [for ; i <= B; i++] whose bound is below the largest [int]: the
    body moves the index by one, and the loop returns once the fuel covers
    the iterations left. *)
Lemma wp_while_le {St} (idx : St -> Z) (I : St -> heap -> Prop) fuel B
      (body : St -> go St) s h (Q : St -> heap -> Prop) :
  (Z.to_nat (B + 1 - idx s) < fuel)%nat ->
  I s h ->
  (forall s h, idx s <= B -> I s h ->
     wp (body s) h (fun s' h' => idx s' = idx s + 1 /\ I s' h')) ->
  (forall s h, B < idx s -> I s h -> Q s h) ->
  wp (while fuel (fun s => idx s <=? B) body s) h Q.
Proof.
  intros Hfuel HI Hbody HQ.
  revert s h Hfuel HI.
  induction fuel as [|fuel IH]; intros s h Hfuel HI; [lia|].
  simpl. destruct (Z.leb_spec (idx s) B) as [Hin|Hout].
  - apply wp_bind. eapply wp_mono; [by apply Hbody|].
    intros s' h' [Hidx HI']. apply IH; [lia | done].
  - apply wp_ret. by apply HQ.
Qed.

(** A [do]-[while] loop with a budget [d] of iterations that every
    iteration but the last spends. *)
Lemma wp_do_while {St} (I : nat -> St -> heap -> Prop) fuel
      (body : St -> go (St * bool)) d s h (Q : St -> heap -> Prop) :
  (d < fuel)%nat ->
  I d s h ->
  (forall d s h, I d s h ->
     wp (body s) h (fun r h' =>
       if snd r then exists d', (d' < d)%nat /\ I d' (fst r) h'
       else Q (fst r) h')) ->
  wp (do_while fuel body s) h Q.
Proof.
  intros Hfuel HI Hbody. revert d s h Hfuel HI.
  induction fuel as [|fuel IH]; intros d s h Hfuel HI; [lia|].
  simpl. apply wp_bind. eapply wp_mono; [by eapply Hbody|].
  intros [s' ok] h'. simpl. destruct ok.
  - intros (d' & Hd' & HI'). apply (IH d'); [lia | done].
  - intros HQ. by apply wp_ret.
Qed.

(** ** The index computation of [nonSquareTranspose] *)

Lemma cycle_next_sigma m j h :
  0 < NumberOfRows m -> 0 <= NumberOfColumns m ->
  NumberOfRows m * NumberOfColumns m <= max_int ->
  0 <= j < NumberOfRows m * NumberOfColumns m ->
  cycle_next m j h = Val (sigma (NumberOfRows m) (NumberOfColumns m) j, h).
Proof.
  set (R := NumberOfRows m). set (C := NumberOfColumns m).
  intros HR HC HN Hj. unfold max_int in HN.
  assert (0 < C) by nia. assert (R <= R * C) by nia. assert (C <= R * C) by nia.
  pose proof (sigma_bound R C j HR Hj) as Hs. unfold sigma in Hs.
  assert (0 <= j mod R < R) by (apply Z.mod_pos_bound; lia).
  assert (0 <= j / R < C).
  { split; [apply Z.div_pos; lia|]. apply Z.div_lt_upper_bound; lia. }
  assert (0 <= j mod R * C < R * C) by nia.
  unfold cycle_next, irem, idiv, bind, ret. fold R C.
  rewrite (to_int_small R), (to_int_small C) by lia.
  destruct (Z.eqb_spec R 0); [lia|].
  rewrite Z.rem_mod_nonneg, Z.quot_div_nonneg by lia.
  rewrite (to_int_small (j mod R)), (to_int_small (j / R)) by lia.
  unfold iadd, imul.
  rewrite (to_int_small (j mod R * C)) by lia.
  rewrite to_int_small by lia. done.
Qed.

(** ** Filling the buffer of the transpose *)

#[global] Instance float_inhabited : Inhabited float := populate 0%float.

(** The buffer of the transpose of an [R]-by-[C] matrix with buffer [a]. *)
Definition transposed (R C : Z) (a : list float) : list float :=
  (fun j => a !!! Z.to_nat (sigma R C j)) <$> seqZ 0 (R * C).

Lemma wp_eq {A} (c : go A) h a0 h0 :
  wp c h (fun a h' => a = a0 /\ h' = h0) -> c h = Val (a0, h0).
Proof. by intros (a & h' & -> & -> & ->). Qed.

Lemma peek_elements h m i :
  wf h m -> 0 <= i < NumberOfRows m * NumberOfColumns m ->
  peek h (M m) i = Some (elements h m !!! Z.to_nat i).
Proof.
  intros Hwf Hi. rewrite <- elements_lookup by done.
  apply list_lookup_lookup_total_lt.
  pose proof (length_elements h m Hwf). lia.
Qed.

Section Filling.

Variables (R C : Z) (a : list float).

(** Every offset in [P] already holds its final value. *)
Definition filled (P : Z -> Prop) (cur : list float) : Prop :=
  length cur = Z.to_nat (R * C) /\
  forall j, 0 <= j < R * C -> P j ->
            cur !! Z.to_nat j = Some (a !!! Z.to_nat (sigma R C j)).

Lemma filled_zero : filled (fun _ => False) (replicate (Z.to_nat (R * C)) 0%float).
Proof. split; [apply length_replicate | done]. Qed.

Lemma filled_weaken P P' cur :
  filled P cur -> (forall j, 0 <= j < R * C -> P' j -> P j) -> filled P' cur.
Proof. intros [Hlen Hf] HP. split; [done|]. auto. Qed.

Lemma filled_store P cur j0 :
  filled P cur -> 0 <= j0 < R * C ->
  filled (fun j => P j \/ j = j0)
         (<[Z.to_nat j0 := a !!! Z.to_nat (sigma R C j0)]> cur).
Proof.
  intros [Hlen Hf] Hj0. split; [by rewrite length_insert|].
  intros j Hj HP.
  destruct (decide (j = j0)) as [->|Hne].
  - apply list_lookup_insert_eq. lia.
  - rewrite list_lookup_insert_ne by lia. destruct HP; [auto | done].
Qed.

Lemma filled_all P cur :
  filled P cur -> (forall j, 0 <= j < R * C -> P j) -> cur = transposed R C a.
Proof.
  intros [Hlen Hf] HP. apply list_eq. intros k. unfold transposed.
  rewrite list_lookup_fmap.
  destruct (decide (Z.of_nat k < R * C)) as [Hk|Hk].
  - rewrite lookup_seqZ_lt by done. simpl.
    rewrite <- (Nat2Z.id k) at 1. apply Hf; [lia|]. apply HP. lia.
  - rewrite lookup_seqZ_ge by lia. simpl.
    apply lookup_ge_None. lia.
Qed.

End Filling.

(** ** The cycle-following transposition *)

Lemma nonSquareTranspose_spec fuel h m :
  wf h m ->
  (Z.to_nat (NumberOfRows m * NumberOfColumns m) < fuel)%nat ->
  nonSquareTranspose fuel m h =
  Val (mkMatrix (NumberOfColumns m) (NumberOfRows m)
         (mkSlice (length h) 0 (NumberOfColumns m * NumberOfRows m)
                  (NumberOfColumns m * NumberOfRows m)),
       h ++ [transposed (NumberOfRows m) (NumberOfColumns m) (elements h m)]).
Proof.
  intros Hwf Hfuel.
  pose proof Hwf as [HR HC Hlen Hmax _ _ _].
  pose proof (wf_arr_lt h m Hwf) as Hold.
  set (R := NumberOfRows m) in *. set (C := NumberOfColumns m) in *.
  set (a := elements h m).
  assert (0 <= R * C <= max_int) as HN by (split; [nia | lia]).
  unfold max_int in HN.
  apply wp_eq. unfold nonSquareTranspose. fold R C.
  apply wp_bind. unfold NewMatrix. apply wp_bind.
  assert (umul C R = C * R) as ->.
  { unfold umul. apply to_uint_small. lia. }
  apply wp_make; [unfold max_int; lia|]. apply wp_ret. apply wp_bind.
  set (t := mkMatrix C R (mkSlice (length h) 0 (C * R) (C * R))).
  assert (to_int (usub (umul R C) 1) = R * C - 1) as ->.
  { unfold usub, umul. rewrite (to_uint_small (R * C)) by lia.
    destruct (decide (R * C = 0)) as [->|]; [by vm_compute|].
    rewrite to_uint_small by lia. apply to_int_small. lia. }
  eapply wp_mono.
  { apply (wp_while_le fst (fun st h' =>
      0 <= fst st <= R * C /\ exists cur, h' = h ++ [cur] /\
        filled R C a (fun j => j < fst st) cur)).
    - simpl. lia.
    - simpl. split; [lia|]. eexists. split; [done|].
      replace (C * R) with (R * C) by lia.
      eapply filled_weaken; [apply filled_zero|]. simpl. lia.
    - intros [start c0] h1 Hstart (Hs0 & cur & -> & Hfill). simpl in *.
      assert (0 < R) by nia.
      assert (0 <= start < R * C) as Hs by lia.
      destruct (orbit_returns (sigma R C) (R * C)
                  (fun j => sigma_bound R C j ltac:(done))
                  (fun i j => sigma_inj R C i j ltac:(done)) start Hs)
        as (K & HK & Hret).
      (* the first inner loop only walks the cycle *)
      apply wp_bind. eapply wp_mono.
      { apply (wp_do_while (fun d c h' =>
          h' = h ++ [cur] /\ (1 <= d <= K)%nat /\
          cur_j c = Nat.iter (K - d) (sigma R C) start) fuel _ K _ _
          (fun _ h' => h' = h ++ [cur])); [lia | |].
        - split; [done|]. split; [lia|]. by rewrite Nat.sub_diag.
        - intros d c h' (-> & Hd & Hj).
          pose proof (iter_range (sigma R C) (R * C)
            (fun j => sigma_bound R C j ltac:(done)) (K - d) start Hs) as Hr.
          rewrite <- Hj in Hr.
          apply wp_bind. eapply wp_val; [by apply cycle_next_sigma; try lia|].
          apply wp_ret. simpl. fold R C.
          destruct (Z.ltb_spec start (sigma R C (cur_j c))) as [Hlt|Hge];
            [|done].
          exists (d - 1)%nat.
          assert (d <> 1%nat).
          { intros ->. rewrite Hj in Hlt.
            change (sigma R C (Nat.iter (K - 1) (sigma R C) start))
              with (Nat.iter (S (K - 1)) (sigma R C) start) in Hlt.
            replace (S (K - 1)) with K in Hlt by lia. lia. }
          split; [lia|]. split; [done|]. split; [lia|].
          replace (K - (d - 1))%nat with (S (K - d)) by lia.
          simpl. by rewrite Hj. }
      intros c1 h1 ->. simpl.
      (* tmp = m.M[start] *)
      apply wp_bind.
      eapply (wp_load_old h [cur]); [done | by apply peek_elements|].
      fold a.
      (* the second inner loop writes along the cycle *)
      apply wp_bind. eapply wp_mono.
      { apply (wp_do_while (fun d c h' =>
          (1 <= d <= K)%nat /\
          cur_j c = Nat.iter (K - d) (sigma R C) start /\
          exists cur', h' = h ++ [cur'] /\
            filled R C a (fun j => j < start \/ ((d < K)%nat /\ j = start))
                   cur') fuel _ K _ _
          (fun _ h' => exists cur', h' = h ++ [cur'] /\
             filled R C a (fun j => j < start + 1) cur')); [lia | |].
        - split; [lia|]. split; [by rewrite Nat.sub_diag|].
          exists cur. split; [done|].
          eapply filled_weaken; [exact Hfill|]. simpl. lia.
        - intros d c h' (Hd & Hj & cur' & -> & Hfill').
          pose proof (iter_range (sigma R C) (R * C)
            (fun j => sigma_bound R C j ltac:(done)) (K - d) start Hs) as Hr.
          rewrite <- Hj in Hr.
          pose proof (sigma_bound R C (cur_j c) ltac:(done) Hr) as Hsr.
          apply wp_bind. eapply wp_val; [by apply cycle_next_sigma; try lia|].
          fold R C. apply wp_bind.
          eapply (wp_load_old h [cur']); [done | by apply peek_elements|].
          fold a.
          apply wp_bind.
          apply (wp_store_new h [] cur' []); simpl;
            [lia | done | lia | destruct Hfill'; lia |].
          pose proof (filled_store R C a _ cur' (cur_j c) Hfill' Hr) as Hf1.
          set (cur1 := <[Z.to_nat (cur_j c) :=
                          a !!! Z.to_nat (sigma R C (cur_j c))]> cur') in *.
          apply wp_bind.
          eapply (wp_mono _ _ (fun _ h' => exists cur2, h' = h ++ [cur2] /\
                    filled R C a (fun j => (j < start \/
                       ((d < K)%nat /\ j = start)) \/ j = cur_j c) cur2)).
          { destruct (Z.eqb_spec (sigma R C (cur_j c)) start) as [Heq|Hne].
            - apply (wp_store_new h [] cur1 []); simpl;
                [lia | done | lia | destruct Hf1; lia |].
              eexists. split; [done|].
              replace (a !!! Z.to_nat start)
                with (a !!! Z.to_nat (sigma R C (cur_j c))) by (by rewrite Heq).
              eapply filled_weaken;
                [apply (filled_store R C a _ cur1 (cur_j c) Hf1 Hr)|].
              simpl. tauto.
            - apply wp_ret. by exists cur1. }
          intros _ h2 (cur2 & -> & Hf2). apply wp_ret. simpl.
          assert (d = 1%nat -> sigma R C (cur_j c) = start) as Hlast.
          { intros ->. rewrite Hj.
            change (sigma R C (Nat.iter (K - 1) (sigma R C) start))
              with (Nat.iter (S (K - 1)) (sigma R C) start).
            by replace (S (K - 1)) with K by lia. }
          assert (d = K -> cur_j c = start) as Hfirst.
          { intros ->. by rewrite Hj, Nat.sub_diag. }
          destruct (Z.ltb_spec start (sigma R C (cur_j c))) as [Hlt|Hge].
          + exists (d - 1)%nat. split; [lia|]. split; [lia|].
            split.
            { replace (K - (d - 1))%nat with (S (K - d)) by lia.
              simpl. by rewrite Hj. }
            exists cur2. split; [done|].
            eapply filled_weaken; [exact Hf2|]. simpl.
            intros j _ [Hj1|[Hj2 ->]]; [tauto|].
            destruct (decide (d = K)) as [->|]; [right; by rewrite Hfirst|].
            left. right. split; [lia | done].
          + exists cur2. split; [done|].
            eapply filled_weaken; [exact Hf2|]. simpl.
            intros j _ Hjs.
            destruct (decide (j = start)) as [->|]; [|left; left; lia].
            destruct (decide (d = K)) as [->|]; [right; by rewrite Hfirst|].
            left. right. split; [lia | done]. }
      intros c2 h2 (cur2 & -> & Hf2). apply wp_ret. simpl.
      split.
      { unfold iadd. apply to_int_small. lia. }
      split; [unfold iadd; rewrite to_int_small; lia|].
      exists cur2. split; [done|].
      unfold iadd. rewrite to_int_small by lia. done.
    - intros st h' Hidx HI. exact (conj Hidx HI). }
  intros [start c] h' (Hidx & Hs0 & cur & -> & Hfill). simpl in *.
  apply wp_ret. split; [done|]. f_equal. f_equal.
  eapply filled_all; [exact Hfill|]. simpl. lia.
Qed.

(** ** [Transpose] *)

(** The matrix and the store that [Transpose] returns. *)
Definition transpose_result (h : heap) (m : Matrix) : Matrix :=
  mkMatrix (NumberOfColumns m) (NumberOfRows m)
    (mkSlice (length h) 0 (NumberOfColumns m * NumberOfRows m)
             (NumberOfColumns m * NumberOfRows m)).

Definition transpose_store (h : heap) (m : Matrix) : heap :=
  h ++ [transposed (NumberOfRows m) (NumberOfColumns m) (elements h m)].

Lemma Transpose_square fuel h m :
  wf h m -> NumberOfColumns m = NumberOfRows m ->
  (Z.to_nat (NumberOfRows m * NumberOfColumns m) < fuel)%nat ->
  Transpose fuel m h =
  Val ((Some (transpose_result h m), None), transpose_store h m).
Proof.
  intros Hwf Hsq Hfuel. unfold transpose_result, transpose_store.
  pose proof Hwf as [HR HC Hlen Hmax _ _ _].
  pose proof (wf_arr_lt h m Hwf) as Hold.
  assert (forall i, 0 <= i < NumberOfRows m * NumberOfColumns m ->
            peek h (M m) i = Some (elements h m !!! Z.to_nat i)) as Hpeek
    by (intros; by apply peek_elements).
  unfold Transpose, IsSquare, Get, Set_.
  rewrite Hsq in *. rewrite Z.eqb_refl. simpl negb. cbv iota.
  set (n := NumberOfRows m) in *. set (a := elements h m) in *.
  assert (0 <= n * n <= max_int) as HN by (split; [nia | lia]).
  unfold max_int in HN.
  assert (n <= n * n) as Hnn by nia.
  assert (forall r c, 0 <= r < n -> 0 <= c < n ->
            uadd (umul r n) c = r * n + c) as Hoff.
  { intros. apply (offset_uint r c n); unfold max_int; lia. }
  assert (forall r c, 0 <= r < n -> 0 <= c < n -> 0 <= r * n + c < n * n)
    as Hbound by (intros; by apply offset_bound).
  apply wp_eq.
  apply wp_bind. unfold NewMatrix. apply wp_bind.
  assert (umul n n = n * n) as ->.
  { unfold umul. apply to_uint_small. lia. }
  apply wp_make; [unfold max_int; lia|]. apply wp_ret. simpl.
  rewrite (to_int_small n) by lia.
  (* copy diagonal *)
  apply wp_bind.
  apply (wp_for_up (fun k _ h' => exists cur, h' = h ++ [cur] /\
           filled n n a (fun j => exists d, 0 <= d < k /\ j = d * n + d) cur));
    [lia | | |].
  { eexists. split; [done|].
    eapply filled_weaken; [apply filled_zero|]. simpl.
    intros j _ (d & ? & _). lia. }
  { intros k _ h1 Hk (cur & -> & Hfill).
    rewrite (to_uint_small k), Hoff by lia.
    apply wp_bind. eapply (wp_load_old h [cur]); [done | by apply Hpeek; auto|].
    apply (wp_store_new h [] cur []); simpl;
      [lia | done | auto | destruct Hfill; lia |].
    eexists. split; [done|].
    pose proof (filled_store n n a _ cur (k * n + k) Hfill
                  ltac:(auto with lia)) as Hf1.
    rewrite (sigma_offset n n k k) in Hf1 by lia.
    eapply filled_weaken; [exact Hf1|].
    simpl. intros j _ (d & Hd & ->).
    destruct (decide (d = k)) as [->|]; [by right|].
    left. exists d. split; [lia | done]. }
  intros _ h1 (cur0 & -> & Hdiag).
  (* swap the off-diagonal pairs *)
  assert (isub n 2 = n - 2) as ->.
  { unfold isub. apply to_int_small. lia. }
  assert (isub n 1 = n - 1) as ->.
  { unfold isub. apply to_int_small. lia. }
  apply wp_bind. eapply wp_mono.
  { apply (wp_while_le (fun i => i) (fun i h' =>
      0 <= i /\ exists cur, h' = h ++ [cur] /\
        filled n n a (fun k => exists r c, 0 <= r < n /\ 0 <= c < n /\
          k = r * n + c /\ (r = c \/ r < i \/ c < i)) cur)).
    - lia.
    - split; [lia|]. exists cur0. split; [done|].
      eapply filled_weaken; [exact Hdiag|]. simpl.
      intros k _ (r & c & Hr & Hc & -> & [->|?]); [|lia].
      exists c. split; [lia | done].
    - intros i h1 Hi (Hi0 & cur & -> & Hfill).
      assert (iadd i 1 = i + 1) as Hi1.
      { unfold iadd. apply to_int_small. lia. }
      rewrite Hi1.
      apply wp_bind. eapply wp_mono.
      { apply (wp_while_le (fun j => j) (fun j h' =>
          i < j /\ exists cur, h' = h ++ [cur] /\
            filled n n a (fun k => exists r c, 0 <= r < n /\ 0 <= c < n /\
              k = r * n + c /\
              (r = c \/ r < i \/ c < i \/ (r = i /\ c < j) \/
               (c = i /\ r < j))) cur)).
        - lia.
        - split; [lia|]. exists cur. split; [done|].
          eapply filled_weaken; [exact Hfill|]. simpl.
          intros k _ (r & c & Hr & Hc & -> & Hcase).
          exists r, c. repeat split; try lia.
        - intros j h1 Hj (Hij & cur1 & -> & Hfill1).
          rewrite (to_uint_small i), (to_uint_small j) by lia.
          rewrite !Hoff by lia.
          apply wp_bind.
          eapply (wp_load_old h [cur1]); [done | by apply Hpeek; auto with lia|].
          apply wp_bind.
          apply (wp_store_new h [] cur1 []); simpl;
            [lia | done | auto with lia | destruct Hfill1; lia |].
          pose proof (filled_store n n a _ cur1 (j * n + i) Hfill1
                        ltac:(auto with lia)) as Hf2.
          rewrite (sigma_offset n n i j) in Hf2 by lia.
          set (cur2 := <[Z.to_nat (j * n + i) := _]> cur1) in *.
          apply wp_bind.
          eapply (wp_load_old h [cur2]); [done | by apply Hpeek; auto with lia|].
          apply wp_bind.
          apply (wp_store_new h [] cur2 []); simpl;
            [lia | done | auto with lia | destruct Hf2; lia |].
          pose proof (filled_store n n a _ cur2 (i * n + j) Hf2
                        ltac:(auto with lia)) as Hf3.
          rewrite (sigma_offset n n j i) in Hf3 by lia.
          set (cur3 := <[Z.to_nat (i * n + j) := _]> cur2) in *.
          assert (iadd j 1 = j + 1) as ->.
          { unfold iadd. apply to_int_small. lia. }
          apply wp_ret.
          split; [done|]. split; [lia|]. exists cur3. split; [done|].
          eapply filled_weaken; [exact Hf3|]. simpl.
          intros k _ (r & c & Hr & Hc & -> & Hcase).
          destruct (decide (r = i /\ c = j)) as [[-> ->]|];
            [by right|].
          destruct (decide (c = i /\ r = j)) as [[-> ->]|];
            [left; by right|].
          left. left. exists r, c. repeat split; try lia.
        - intros j h1 Hj HI. exact (conj Hj HI). }
      intros j h1 (Hj & Hij & cur1 & -> & Hfill1). apply wp_ret.
      split; [done|]. split; [lia|]. exists cur1.
      split; [done|].
      eapply filled_weaken; [exact Hfill1|]. simpl.
      intros k _ (r & c & Hr & Hc & -> & Hcase).
      exists r, c. repeat split; try lia.
    - intros i h1 Hi HI. exact (conj Hi HI). }
  intros i h1 (Hi & Hi0 & cur & -> & Hfill). apply wp_ret.
  split; [done|]. f_equal. f_equal.
  eapply filled_all; [exact Hfill|]. simpl.
  intros k Hk.
  assert (0 < n) by nia.
  exists (k / n), (k mod n).
  assert (0 <= k mod n < n) by (apply Z.mod_pos_bound; lia).
  assert (0 <= k / n < n).
  { split; [apply Z.div_pos; lia|]. apply Z.div_lt_upper_bound; lia. }
  repeat split; try lia.
  rewrite (Z.div_mod k n) at 1 by lia. lia.
Qed.

Lemma Transpose_spec fuel h m :
  wf h m ->
  (Z.to_nat (NumberOfRows m * NumberOfColumns m) < fuel)%nat ->
  Transpose fuel m h =
  Val ((Some (transpose_result h m), None), transpose_store h m).
Proof.
  intros Hwf Hfuel.
  destruct (decide (NumberOfColumns m = NumberOfRows m)) as [Hsq|Hns].
  - by apply Transpose_square.
  - unfold Transpose, IsSquare.
    destruct (Z.eqb_spec (NumberOfColumns m) (NumberOfRows m)); [done|].
    simpl. unfold bind. by rewrite nonSquareTranspose_spec.
Qed.

Lemma length_transposed R C a :
  length (transposed R C a) = Z.to_nat (R * C).
Proof. unfold transposed. by rewrite length_fmap, length_seqZ. Qed.

Lemma lookup_transposed R C a j :
  0 <= j < R * C ->
  transposed R C a !! Z.to_nat j = Some (a !!! Z.to_nat (sigma R C j)).
Proof.
  intros Hj. unfold transposed.
  rewrite list_lookup_fmap, lookup_seqZ_lt by lia. simpl.
  by rewrite Z2Nat.id by lia.
Qed.

(** Transposing twice gives the buffer back, element for element. *)
Lemma transposed_involutive R C a :
  0 <= R -> 0 <= C -> length a = Z.to_nat (R * C) ->
  transposed C R (transposed R C a) = a.
Proof.
  intros HR HC Hlen. apply list_eq. intros k.
  destruct (decide (Z.of_nat k < C * R)) as [Hk|Hk].
  - rewrite <- (Nat2Z.id k) at 1.
    rewrite lookup_transposed by lia.
    assert (0 < C) by nia.
    pose proof (sigma_bound C R (Z.of_nat k) ltac:(done) ltac:(lia)) as Hs.
    assert (0 <= sigma C R (Z.of_nat k) < R * C) as Hs' by lia.
    rewrite (list_lookup_total_correct _ _ _
               (lookup_transposed R C a _ Hs')).
    rewrite sigma_inv, Nat2Z.id by lia.
    symmetry. apply list_lookup_lookup_total_lt. lia.
  - rewrite !lookup_ge_None_2; [done | lia |].
    rewrite length_transposed. lia.
Qed.

Lemma wf_transpose h m :
  wf h m -> wf (transpose_store h m) (transpose_result h m).
Proof.
  intros [HR HC Hlen Hmax Hoff Hcap _].
  unfold transpose_store, transpose_result.
  assert (0 <= NumberOfRows m * NumberOfColumns m) by nia.
  split; simpl; try lia.
  eexists. split; [by apply list_lookup_middle|].
  rewrite length_transposed. lia.
Qed.

Lemma elements_transpose h m :
  wf h m ->
  elements (transpose_store h m) (transpose_result h m) =
  transposed (NumberOfRows m) (NumberOfColumns m) (elements h m).
Proof.
  intros [HR HC Hlen Hmax Hoff Hcap _].
  unfold elements at 1, transpose_store, transpose_result. simpl.
  rewrite list_lookup_middle by done. simpl.
  apply take_ge. rewrite length_transposed. lia.
Qed.

(** C3: for every well-formed matrix [m], square or not, [Transpose]
    returns without error a matrix [t] with the rows and columns of [m]
    exchanged, whose buffer is a new array of the store; the store is the one
    before the call with that array added, so [m] and every other matrix keep
    their elements; [t.Get(c, r)] is [m.Get(r, c)] for all [r], [c] in range;
    and the transpose of [t] has the shape and, element for element, the
    buffer of [m].  The fuel covers the cycles that the non-square case
    follows, each at most [rows*cols] long. *)
Theorem Transpose_correct fuel h m :
  wf h m ->
  (Z.to_nat (NumberOfRows m * NumberOfColumns m) < fuel)%nat ->
  exists t h',
    Transpose fuel m h = Val ((Some t, None), h') /\
    NumberOfRows t = NumberOfColumns m /\
    NumberOfColumns t = NumberOfRows m /\
    wf h' t /\
    s_arr (M t) = length h /\
    (exists data, h' = h ++ [data]) /\
    elements h' m = elements h m /\
    (forall r c,
       0 <= r < NumberOfRows m -> 0 <= c < NumberOfColumns m ->
       exists v, Get m r c h = Val (v, h) /\ Get t c r h' = Val (v, h')) /\
    exists t2 h'',
      Transpose fuel t h' = Val ((Some t2, None), h'') /\
      NumberOfRows t2 = NumberOfRows m /\
      NumberOfColumns t2 = NumberOfColumns m /\
      elements h'' t2 = elements h m.
Proof.
  intros Hwf Hfuel.
  pose proof (wf_transpose h m Hwf) as Hwft.
  pose proof (wf_arr_lt h m Hwf) as Hold.
  pose proof (length_elements h m Hwf) as Hlen.
  pose proof Hwf as [HR HC _ _ _ _ _].
  exists (transpose_result h m), (transpose_store h m).
  split; [by apply Transpose_spec|].
  split; [done|]. split; [done|]. split; [done|]. split; [done|].
  split; [by eexists|].
  split; [by apply elements_app|].
  split.
  - intros r c Hr Hc.
    pose proof (offset_bound r c _ _ Hr Hc) as Hb.
    exists (elements h m !!! Z.to_nat (r * NumberOfColumns m + c)).
    split.
    + apply Get_peek; [done.. |]. by apply peek_elements.
    + apply Get_peek; [done | simpl; lia | simpl; lia |]. simpl.
      assert (0 <= c * NumberOfRows m + r
              < NumberOfRows m * NumberOfColumns m) as Hb'.
      { pose proof (offset_bound c r _ _ Hc Hr). lia. }
      rewrite <- (elements_lookup _ _ _ Hwft) by (simpl; lia).
      rewrite elements_transpose, lookup_transposed by done.
      by rewrite sigma_offset.
  - exists (transpose_result (transpose_store h m) (transpose_result h m)),
           (transpose_store (transpose_store h m) (transpose_result h m)).
    split.
    { apply Transpose_spec; [done|]. simpl.
      by rewrite Z.mul_comm. }
    split; [done|]. split; [done|].
    rewrite elements_transpose by done. simpl.
    rewrite elements_transpose by done.
    apply transposed_involutive; lia.
Qed.

(** A 2-by-3 matrix in a store of its own. *)
Definition store_2x3 : heap := [[1; 2; 3; 4; 5; 6]%float].
Definition matrix_2x3 : Matrix := mkMatrix 2 3 (mkSlice 0 0 6 6).

Lemma wf_matrix_2x3 : wf store_2x3 matrix_2x3.
Proof.
  split; simpl; try (unfold max_int; lia).
  eexists. split; [reflexivity|]. simpl. lia.
Qed.

Lemma Transpose_correct_witness :
  wf store_2x3 matrix_2x3 /\
  (Z.to_nat (2 * 3) < 7)%nat /\
  exists t h',
    Transpose 7 matrix_2x3 store_2x3 = Val ((Some t, None), h') /\
    NumberOfRows t = 3 /\ NumberOfColumns t = 2.
Proof.
  split; [exact wf_matrix_2x3|]. split; [vm_compute; lia|].
  destruct (Transpose_correct 7 store_2x3 matrix_2x3 wf_matrix_2x3)
    as (t & h' & Ht & Hr & Hc & _); [vm_compute; lia|].
  exists t, h'. auto.
Defined.

(** * ScalarMultiply, Add, Subtract, SubMatrix *)

(** ** Zeros and finite scalars *)

(** Go's [x == 0.0]: true of both zeros. *)
Definition is_zero (x : float) : bool := PrimFloat.eqb x 0%float.

Lemma is_zero_spec x :
  is_zero x = true -> exists sg, Prim2SF x = S754_zero sg.
Proof.
  unfold is_zero. rewrite FloatAxioms.eqb_spec.
  change (Prim2SF 0) with (S754_zero false).
  destruct (Prim2SF x) as [sg|[]| |[] mx ex]; try done. by eexists.
Qed.

Lemma zero_is_zero x sg : Prim2SF x = S754_zero sg -> is_zero x = true.
Proof.
  intros Hx. unfold is_zero. rewrite FloatAxioms.eqb_spec, Hx. done.
Qed.

Lemma is_finite_spec k :
  is_finite k = true ->
  (exists sg, Prim2SF k = S754_zero sg) \/
  (exists sg mx ex, Prim2SF k = S754_finite sg mx ex).
Proof.
  unfold is_finite, is_nan, is_infinity.
  rewrite !FloatAxioms.eqb_spec, FloatAxioms.abs_spec.
  change (Prim2SF infinity) with (S754_infinity false).
  destruct (Prim2SF k) as [sg|[]| |sg mx ex]; try done.
  - left. by eexists.
  - right. by do 3 eexists.
Qed.

(** A zero times a finite scalar is a zero (of either sign). *)
Lemma mul_zero_finite x k :
  is_zero x = true -> is_finite k = true -> is_zero (x * k) = true.
Proof.
  intros Hx Hk.
  apply is_zero_spec in Hx as [sx Hx].
  apply is_finite_spec in Hk as [[sk Hk]|(sk & mk & ek & Hk)].
  - apply (zero_is_zero _ (xorb sx sk)). by rewrite FloatAxioms.mul_spec, Hx, Hk.
  - apply (zero_is_zero _ (xorb sx sk)). by rewrite FloatAxioms.mul_spec, Hx, Hk.
Qed.

(** ** [ScalarMultiply] *)

(** C4, the scalar the claim misses: zero times NaN is NaN, so the result is
    not all-zero regardless of [k]. *)
Lemma ScalarMultiply_nan :
  run (m <- matrix_of 1 1 [7%float] ;;
       r <- ScalarMultiply m nan ;;
       Get r 0 0) = Val nan
  /\ is_zero nan = false.
Proof. split; by vm_compute. Qed.

(** On a matrix with more rows than columns the loop leaves the buffer,
    whose rows and columns [ScalarMultiply] has exchanged. *)
Lemma ScalarMultiply_tall_panics :
  run (m <- matrix_of 3 1 [1; 2; 3]%float ;; ScalarMultiply m 2%float) = Panic.
Proof. by vm_compute. Qed.

(** ** [Add] *)

(** C6, where the code departs from the claim: [Add] allocates its result
    with rows and columns exchanged and still indexes it by the rows of the
    receiver.  The sum of a 2-by-3 matrix [[1 2 3] [4 5 6]] with itself comes
    back as a 3-by-2 matrix whose buffer is [2 4 8 10 12 0] (the claim: a
    2-by-3 matrix with buffer [2 4 6 8 10 12]), and on a 3-by-2 matrix the
    call panics. *)
Lemma Add_non_square :
  observe (m <- matrix_of 2 3 [1; 2; 3; 4; 5; 6]%float ;; Add m m)
  = Val (Some (3, 2, [2; 4; 8; 10; 12; 0]%float), None)
  /\ observe (m <- matrix_of 3 2 [1; 2; 3; 4; 5; 6]%float ;; Add m m) = Panic.
Proof. split; by vm_compute. Qed.

(** ** [Subtract] *)

(** C5, where the code departs from the claim: [Neg] goes through
    [ScalarMultiply], which scales a zero buffer, so [Subtract] adds a
    matrix of zeros.  [[5 6] [7 8]] minus [[1 1] [1 1]] comes back as
    [[5 6] [7 8]]; for two 1-by-2 matrices the negated operand is 2-by-1 and
    [Add] refuses it with its dimension error; for two 2-by-1 matrices the
    call panics. *)
Lemma Subtract_returns_receiver :
  observe (a <- matrix_of 2 2 [5; 6; 7; 8]%float ;;
           b <- matrix_of 2 2 [1; 1; 1; 1]%float ;;
           Subtract a b)
  = Val (Some (2, 2, [5; 6; 7; 8]%float), None)
  /\ observe (a <- matrix_of 1 2 [5; 6]%float ;;
              b <- matrix_of 1 2 [1; 1]%float ;;
              Subtract a b)
     = Val (None, Some (error_code errorCannotAdd))
  /\ observe (a <- matrix_of 2 1 [5; 6]%float ;;
              b <- matrix_of 2 1 [1; 1]%float ;;
              Subtract a b)
     = Panic.
Proof. repeat split; by vm_compute. Qed.

(** ** [SubMatrix] *)

(** C8, where the code departs from the claim: the window taken on the
    buffer is one contiguous run, and it is [numberRows*cols + numberCols]
    long.  On the 3-by-3 matrix [[1 2 3] [4 5 6] [7 8 9]],
    [SubMatrix(0, 0, 2, 2)] (in range, [row == 0]) has 3 at (1, 0) where the
    matrix has 4; [SubMatrix(0, 0, 3, 3)] (in range, all the columns) and the
    documented [SubMatrix(1, 1, 2, 2)] panic, the window ending past the
    buffer. *)
Lemma SubMatrix_not_a_block :
  run (m <- matrix_of 3 3 [1; 2; 3; 4; 5; 6; 7; 8; 9]%float ;;
       sub <- SubMatrix m 0 0 2 2 ;;
       x <- Get sub 1 0 ;;
       y <- Get m 1 0 ;;
       ret (x, y)) = Val (3%float, 4%float)
  /\ run (m <- matrix_of 3 3 [1; 2; 3; 4; 5; 6; 7; 8; 9]%float ;;
          SubMatrix m 0 0 3 3) = Panic
  /\ run (m <- matrix_of 3 3 [1; 2; 3; 4; 5; 6; 7; 8; 9]%float ;;
          SubMatrix m 1 1 2 2) = Panic.
Proof. repeat split; by vm_compute. Qed.

(** * LU decomposition *)

(** ** Entries of a square buffer *)

(** The element at row [r] and column [c] of an [n]-column buffer. *)
Definition entry (n : Z) (d : list float) (r c : Z) : float :=
  d !!! Z.to_nat (r * n + c).

Section Entries.

Variable n : Z.
Hypothesis n_max : n * n <= max_int.

Lemma entry_lookup d r c :
  length d = Z.to_nat (n * n) -> 0 <= r < n -> 0 <= c < n ->
  d !! Z.to_nat (r * n + c) = Some (entry n d r c).
Proof.
  intros Hlen Hr Hc. apply list_lookup_lookup_total_lt.
  pose proof (offset_bound r c n n Hr Hc). lia.
Qed.

Lemma entry_insert_eq d r c v :
  length d = Z.to_nat (n * n) -> 0 <= r < n -> 0 <= c < n ->
  entry n (<[Z.to_nat (r * n + c) := v]> d) r c = v.
Proof.
  intros Hlen Hr Hc. unfold entry. apply list_lookup_total_correct.
  apply list_lookup_insert_eq.
  pose proof (offset_bound r c n n Hr Hc). lia.
Qed.

Lemma entry_insert_ne d r c r' c' v :
  0 <= r < n -> 0 <= c < n -> 0 <= r' < n -> 0 <= c' < n ->
  r <> r' \/ c <> c' ->
  entry n (<[Z.to_nat (r' * n + c') := v]> d) r c = entry n d r c.
Proof.
  intros Hr Hc Hr' Hc' Hne. unfold entry.
  rewrite !list_lookup_total_alt, list_lookup_insert_ne; [done|].
  pose proof (offset_bound r c n n Hr Hc).
  pose proof (offset_bound r' c' n n Hr' Hc').
  intros Heq. apply Z2Nat.inj in Heq; [|lia..].
  apply offset_inj in Heq; [|lia..]. lia.
Qed.

Lemma entry_replicate r c :
  0 <= r < n -> 0 <= c < n ->
  entry n (replicate (Z.to_nat (n * n)) 0%float) r c = 0%float.
Proof.
  intros Hr Hc. unfold entry. apply lookup_total_replicate_2.
  pose proof (offset_bound r c n n Hr Hc). lia.
Qed.

(** Reading and writing an entry of a matrix that [NewMatrix] returned. *)
Lemma wp_load_entry (h pre : heap) cur (post : heap) s r c
      (Q : float -> heap -> Prop) :
  s_arr s = (length h + length pre)%nat -> s_off s = 0 ->
  s_len s = n * n -> length cur = Z.to_nat (n * n) ->
  0 <= r < n -> 0 <= c < n ->
  Q (entry n cur r c) (h ++ pre ++ cur :: post) ->
  wp (load s (uadd (umul r n) c)) (h ++ pre ++ cur :: post) Q.
Proof.
  intros Ha Ho Hl Hlen Hr Hc HQ.
  rewrite (offset_uint r c n n) by done.
  pose proof (offset_bound r c n n Hr Hc).
  eapply wp_load_new; [done | done | lia | by apply entry_lookup | done].
Qed.

Lemma wp_store_entry (h pre : heap) cur (post : heap) s r c v
      (Q : unit -> heap -> Prop) :
  s_arr s = (length h + length pre)%nat -> s_off s = 0 ->
  s_len s = n * n -> length cur = Z.to_nat (n * n) ->
  0 <= r < n -> 0 <= c < n ->
  Q tt (h ++ pre ++ <[Z.to_nat (r * n + c) := v]> cur :: post) ->
  wp (store s (uadd (umul r n) c) v) (h ++ pre ++ cur :: post) Q.
Proof.
  intros Ha Ho Hl Hlen Hr Hc HQ.
  rewrite (offset_uint r c n n) by done.
  pose proof (offset_bound r c n n Hr Hc).
  eapply wp_store_new; [done | done | lia | lia | done].
Qed.

(** Reading an entry of a well-formed matrix of an older store. *)
Lemma wp_load_matrix (h ext : heap) m r c (Q : float -> heap -> Prop) :
  wf h m -> NumberOfRows m = n -> NumberOfColumns m = n ->
  0 <= r < n -> 0 <= c < n ->
  Q (entry n (elements h m) r c) (h ++ ext) ->
  wp (load (M m) (uadd (umul r n) c)) (h ++ ext) Q.
Proof.
  intros Hwf HR HC Hr Hc HQ.
  rewrite (offset_uint r c n n) by done.
  pose proof (offset_bound r c n n Hr Hc).
  eapply wp_load_old; [by eapply wf_arr_lt | | done].
  apply peek_elements; [done|]. rewrite HR, HC. lia.
Qed.

End Entries.

(** ** The sums of the Doolittle recursion *)

(** [acc + f j + f (j+1) + ...], [cnt] terms added from the left, each
    addition rounded. *)
Fixpoint dsum (f : Z -> float) (cnt : nat) (j : Z) (acc : float) : float :=
  match cnt with
  | O => acc
  | S cnt' => dsum f cnt' (j + 1) (acc + f j)%float
  end.

(** The sum of [L[r][j] * U[j][c]] for [j < i], from [0.0]. *)
Definition doolittle_sum (n : Z) (lc uc : list float) (r c i : Z) : float :=
  dsum (fun j => (entry n lc r j * entry n uc j c)%float) (Z.to_nat i) 0
       0%float.

Lemma dsum_ext f g cnt j acc :
  (forall j', j <= j' < j + Z.of_nat cnt -> f j' = g j') ->
  dsum f cnt j acc = dsum g cnt j acc.
Proof.
  revert j acc. induction cnt as [|cnt IH]; intros j acc Hfg; [done|].
  simpl. rewrite (Hfg j) by lia. apply IH. intros j' Hj'. apply Hfg. lia.
Qed.

Lemma dsum_snoc f cnt j acc :
  dsum f (S cnt) j acc = (dsum f cnt j acc + f (j + Z.of_nat cnt)%Z)%float.
Proof.
  revert j acc. induction cnt as [|cnt IH]; intros j acc.
  - simpl. by rewrite Z.add_0_r.
  - change (dsum f (S (S cnt)) j acc)
      with (dsum f (S cnt) (j + 1) (acc + f j)%float).
    rewrite IH. simpl. do 2 f_equal. lia.
Qed.

Lemma doolittle_sum_ext n lc uc lc' uc' r c i :
  (forall j, 0 <= j < i -> entry n lc' r j = entry n lc r j) ->
  (forall j, 0 <= j < i -> entry n uc' j c = entry n uc j c) ->
  doolittle_sum n lc' uc' r c i = doolittle_sum n lc uc r c i.
Proof.
  intros Hl Hu. unfold doolittle_sum. apply dsum_ext.
  intros j Hj. rewrite Hl, Hu by lia. done.
Qed.

(** ** The invariant of the decomposition *)

(** The buffers [lc] and [uc] of [L] and [U] when rows [0..i-1] of [U] and
    columns [0..i-1] of [L] are done, row [i] of [U] is done up to column
    [ku], and column [i] of [L] up to row [kl]. *)
Record lu_state (n : Z) (a lc uc : list float) (i ku kl : Z) : Prop :=
  mk_lu_state {
  lu_len_l : length lc = Z.to_nat (n * n);
  lu_len_u : length uc = Z.to_nat (n * n);
  lu_l_zero : forall r c,
    0 <= r < n -> 0 <= c < n -> r < c -> entry n lc r c = 0%float;
  lu_u_zero : forall r c,
    0 <= r < n -> 0 <= c < n -> c < r -> entry n uc r c = 0%float;
  lu_l_one : forall d,
    0 <= d < n -> d < i \/ (d = i /\ i < kl) -> entry n lc d d = 1%float;
  lu_u_rec : forall r c,
    0 <= r -> r <= c -> c < n -> r < i \/ (r = i /\ c < ku) ->
    entry n uc r c = (entry n a r c - doolittle_sum n lc uc r c r)%float;
  lu_l_rec : forall r c,
    0 <= c -> c < r -> r < n -> c < i \/ (c = i /\ r < kl) ->
    entry n lc r c =
    ((entry n a r c - doolittle_sum n lc uc r c c) / entry n uc c c)%float
}.

Section LUSteps.

Variable n : Z.
Variable a : list float.

Lemma lu_state_init :
  lu_state n a (replicate (Z.to_nat (n * n)) 0%float)
           (replicate (Z.to_nat (n * n)) 0%float) 0 0 0.
Proof.
  split; try (intros; lia); try apply length_replicate;
    intros; by apply entry_replicate.
Qed.

Lemma lu_state_next lc uc i :
  0 <= i < n -> lu_state n a lc uc i n n ->
  lu_state n a lc uc (i + 1) (i + 1) (i + 1).
Proof.
  intros Hi [Hll Hlu Hlz Huz Hone Hur Hlr].
  split; try done.
  - intros d Hd Hcase. apply Hone; [done|]. lia.
  - intros r c Hr Hrc Hc Hcase. apply Hur; try done. lia.
  - intros r c Hc Hrc Hr Hcase. apply Hlr; try done. lia.
Qed.

(** [u.M[i*n+k] = m.M[i*n+k] - sum]. *)
Lemma lu_store_u lc uc i k :
  0 <= i -> i <= k < n -> lu_state n a lc uc i k i ->
  lu_state n a lc
    (<[Z.to_nat (i * n + k) :=
         (entry n a i k - doolittle_sum n lc uc i k i)%float]> uc)
    i (k + 1) i.
Proof.
  intros Hi Hk [Hll Hlu Hlz Huz Hone Hur Hlr].
  set (v := (entry n a i k - doolittle_sum n lc uc i k i)%float).
  assert (forall r c, 0 <= r < n -> 0 <= c < n -> r <> i \/ c <> k ->
            entry n (<[Z.to_nat (i * n + k) := v]> uc) r c = entry n uc r c)
    as Hne by (intros; apply entry_insert_ne; lia).
  split; try done.
  - by rewrite length_insert.
  - intros r c Hr Hc Hrc. rewrite Hne by lia. by apply Huz.
  - intros r c Hr Hrc Hc Hcase.
    rewrite (doolittle_sum_ext n lc uc lc _ r c r);
      [|done | intros; apply Hne; lia].
    destruct (decide (r = i /\ c = k)) as [[-> ->]|Hother].
    + by rewrite entry_insert_eq by lia.
    + rewrite Hne by lia. apply Hur; try done. lia.
  - intros r c Hc Hrc Hr Hcase.
    rewrite (doolittle_sum_ext n lc uc lc _ r c c);
      [|done | intros; apply Hne; lia].
    rewrite Hne by lia. apply Hlr; try done.
Qed.

(** [l.M[i*n+i] = 1.0]. *)
Lemma lu_store_l_diag lc uc i :
  0 <= i < n -> lu_state n a lc uc i n i ->
  lu_state n a (<[Z.to_nat (i * n + i) := 1%float]> lc) uc i n (i + 1).
Proof.
  intros Hi [Hll Hlu Hlz Huz Hone Hur Hlr].
  assert (forall r c, 0 <= r < n -> 0 <= c < n -> r <> i \/ c <> i ->
            entry n (<[Z.to_nat (i * n + i) := 1%float]> lc) r c
            = entry n lc r c)
    as Hne by (intros; apply entry_insert_ne; lia).
  split; try done.
  - by rewrite length_insert.
  - intros r c Hr Hc Hrc. rewrite Hne by lia. by apply Hlz.
  - intros d Hd Hcase.
    destruct (decide (d = i)) as [->|].
    + by rewrite entry_insert_eq by lia.
    + rewrite Hne by lia. apply Hone; [done|]. lia.
  - intros r c Hr Hrc Hc Hcase.
    rewrite (doolittle_sum_ext n lc uc _ uc r c r);
      [|intros; apply Hne; lia | done].
    by apply Hur.
  - intros r c Hc Hrc Hr Hcase.
    rewrite (doolittle_sum_ext n lc uc _ uc r c c);
      [|intros; apply Hne; lia | done].
    rewrite Hne by lia. apply Hlr; try done. lia.
Qed.

(** [l.M[k*n+i] = (m.M[k*n+i] - sum) / u.M[i*n+i]]. *)
Lemma lu_store_l lc uc i k :
  0 <= i -> i < k < n -> lu_state n a lc uc i n k ->
  lu_state n a
    (<[Z.to_nat (k * n + i) :=
         ((entry n a k i - doolittle_sum n lc uc k i i)
          / entry n uc i i)%float]> lc)
    uc i n (k + 1).
Proof.
  intros Hi Hk [Hll Hlu Hlz Huz Hone Hur Hlr].
  set (v := ((entry n a k i - doolittle_sum n lc uc k i i)
             / entry n uc i i)%float).
  assert (forall r c, 0 <= r < n -> 0 <= c < n -> r <> k \/ c <> i ->
            entry n (<[Z.to_nat (k * n + i) := v]> lc) r c = entry n lc r c)
    as Hne by (intros; apply entry_insert_ne; lia).
  split; try done.
  - by rewrite length_insert.
  - intros r c Hr Hc Hrc. rewrite Hne by lia. by apply Hlz.
  - intros d Hd Hcase. rewrite Hne by lia. apply Hone; [done|]. lia.
  - intros r c Hr Hrc Hc Hcase.
    rewrite (doolittle_sum_ext n lc uc _ uc r c r);
      [|intros; apply Hne; lia | done].
    by apply Hur.
  - intros r c Hc Hrc Hr Hcase.
    rewrite (doolittle_sum_ext n lc uc _ uc r c c);
      [|intros; apply Hne; lia | done].
    destruct (decide (r = k /\ c = i)) as [[-> ->]|Hother].
    + by rewrite entry_insert_eq by lia.
    + rewrite Hne by lia. apply Hlr; try done. lia.
Qed.

End LUSteps.

(** ** The run of [LUDecomposition] *)

(** The matrices [L] and [U] that [LUDecomposition] returns from [h]. *)
Definition lu_lower (h : heap) (m : Matrix) : Matrix :=
  mkMatrix (NumberOfRows m) (NumberOfColumns m)
    (mkSlice (length h) 0 (NumberOfRows m * NumberOfColumns m)
             (NumberOfRows m * NumberOfColumns m)).

Definition lu_upper (h : heap) (m : Matrix) : Matrix :=
  mkMatrix (NumberOfRows m) (NumberOfColumns m)
    (mkSlice (S (length h)) 0 (NumberOfRows m * NumberOfColumns m)
             (NumberOfRows m * NumberOfColumns m)).

Section LURun.

Variable n : Z.
Hypothesis n_max : n * n <= max_int.
Variable h : heap.
Variables sl su : slice.
Hypothesis sl_arr : s_arr sl = length h.
Hypothesis sl_off : s_off sl = 0.
Hypothesis sl_len : s_len sl = n * n.
Hypothesis su_arr : s_arr su = S (length h).
Hypothesis su_off : s_off su = 0.
Hypothesis su_len : s_len su = n * n.

(** The inner loops of the decomposition: the sum of [L[r][j] * U[j][c]]
    over [j < i]. *)
Lemma wp_doolittle_sum lc uc r c i (Q : float -> heap -> Prop) :
  length lc = Z.to_nat (n * n) -> length uc = Z.to_nat (n * n) ->
  0 <= r < n -> 0 <= c < n -> 0 <= i <= n ->
  Q (doolittle_sum n lc uc r c i) (h ++ [lc; uc]) ->
  wp (for_up 0 i (fun j sum =>
        a <- load sl (uadd (umul r n) j) ;;
        b <- load su (uadd (umul j n) c) ;;
        ret (sum + a * b)%float) 0%float) (h ++ [lc; uc]) Q.
Proof.
  intros Hll Hlu Hr Hc Hi HQ.
  apply (wp_for_up (fun j acc h' =>
           h' = h ++ [lc; uc] /\
           acc = dsum (fun j => (entry n lc r j * entry n uc j c)%float)
                      (Z.to_nat j) 0 0%float)); [lia | done | |].
  - intros j acc h' Hj [-> ->].
    apply wp_bind.
    apply (wp_load_entry n n_max h [] lc [uc]); simpl; try done; try lia.
    apply wp_bind.
    apply (wp_load_entry n n_max h [lc] uc []); simpl; try done; try lia.
    apply wp_ret. split; [done|].
    replace (Z.to_nat (j + 1)) with (S (Z.to_nat j)) by lia.
    rewrite dsum_snoc. do 3 f_equal; lia.
  - by intros acc h' [-> ->].
Qed.

End LURun.

Lemma LUDecomposition_square h m :
  wf h m -> NumberOfColumns m = NumberOfRows m ->
  exists lc uc,
    LUDecomposition m h =
    Val ((Some (lu_lower h m), Some (lu_upper h m), None), h ++ [lc; uc]) /\
    lu_state (NumberOfRows m) (elements h m) lc uc
             (NumberOfRows m) (NumberOfRows m) (NumberOfRows m).
Proof.
  intros Hwf Hsq.
  pose proof Hwf as [HR HC Hlen Hmax _ _ _].
  unfold lu_lower, lu_upper.
  set (n := NumberOfRows m) in *. set (a := elements h m).
  rewrite Hsq in *.
  assert (n * n <= max_int) as Hnn by lia.
  assert (0 <= n * n) by nia.
  cut (wp (LUDecomposition m) h (fun r h' =>
         r = (Some (mkMatrix n n (mkSlice (length h) 0 (n * n) (n * n))),
              Some (mkMatrix n n (mkSlice (S (length h)) 0 (n * n) (n * n))),
              None) /\
         exists lc uc, h' = h ++ [lc; uc] /\ lu_state n a lc uc n n n)).
  { intros (r & h' & Hrun & -> & lc & uc & -> & Hst). by exists lc, uc. }
  unfold LUDecomposition, IsSquare. fold n. rewrite Hsq, Z.eqb_refl.
  simpl negb. cbv iota.
  apply wp_bind. unfold NewMatrix. apply wp_bind.
  assert (umul n n = n * n) as ->.
  { unfold umul. apply to_uint_small. unfold max_int in *. lia. }
  apply wp_make; [lia|]. apply wp_ret.
  apply wp_bind. apply wp_bind.
  apply wp_make; [lia|]. apply wp_ret.
  rewrite length_app. simpl length. rewrite Nat.add_1_r.
  rewrite <- app_assoc. simpl app.
  set (sl := mkSlice (length h) 0 (n * n) (n * n)).
  set (su := mkSlice (S (length h)) 0 (n * n) (n * n)).
  simpl NumberOfColumns.
  apply wp_bind.
  apply (wp_for_up (fun i _ h' => exists lc uc,
           h' = h ++ [lc; uc] /\ lu_state n a lc uc i i i)); [lia | | |].
  { eexists _, _. split; [done|]. apply lu_state_init. }
  { intros i _ h1 Hi (lc0 & uc0 & -> & Hst0).
    (* Upper Triangular *)
    apply wp_bind.
    apply (wp_for_up (fun k _ h' => exists lc uc,
             h' = h ++ [lc; uc] /\ lu_state n a lc uc i k i)); [lia | | |].
    { by exists lc0, uc0. }
    { intros k _ h1 Hk (lc & uc & -> & Hst).
      apply wp_bind.
      apply (wp_doolittle_sum n Hnn h sl su); try done;
        try lia; try apply Hst.
      apply wp_bind.
      apply (wp_load_matrix n Hnn h [lc; uc] m); try done; try lia.
      fold a.
      apply (wp_store_entry n Hnn h [lc] uc []); simpl; try done;
        try lia; try apply Hst.
      eexists _, _. split; [done|]. apply lu_store_u; [lia | lia | done]. }
    intros _ h1 (lc1 & uc1 & -> & Hst1).
    (* Lower Triangular *)
    apply (wp_for_up (fun k _ h' => exists lc uc,
             h' = h ++ [lc; uc] /\ lu_state n a lc uc i n k)); [lia | | |].
    { by exists lc1, uc1. }
    { intros k _ h1 Hk (lc & uc & -> & Hst).
      destruct (Z.eqb_spec i k) as [<-|Hik].
      - apply (wp_store_entry n Hnn h [] lc [uc]); simpl; try done;
          try lia; try apply Hst.
        eexists _, _. split; [done|]. by apply lu_store_l_diag.
      - apply wp_bind.
        apply (wp_doolittle_sum n Hnn h sl su); try done;
          try lia; try apply Hst.
        apply wp_bind.
        apply (wp_load_matrix n Hnn h [lc; uc] m); try done; try lia.
        fold a. apply wp_bind.
        apply (wp_load_entry n Hnn h [lc] uc []); simpl; try done;
          try lia; try apply Hst.
        apply (wp_store_entry n Hnn h [] lc [uc]); simpl; try done;
          try lia; try apply Hst.
        eexists _, _. split; [done|]. apply lu_store_l; [lia | lia | done]. }
    intros _ h1 (lc2 & uc2 & -> & Hst2).
    exists lc2, uc2. split; [done|]. by apply lu_state_next. }
  intros _ h1 (lc & uc & -> & Hst). apply wp_ret.
  split; [done|]. by exists lc, uc.
Qed.

(** ** Determinant *)

(** [acc * f j * f (j+1) * ...], [cnt] factors multiplied from the left. *)
Fixpoint dprod (f : Z -> float) (cnt : nat) (j : Z) (acc : float) : float :=
  match cnt with
  | O => acc
  | S cnt' => dprod f cnt' (j + 1) (acc * f j)%float
  end.

Lemma dprod_snoc f cnt j acc :
  dprod f (S cnt) j acc = (dprod f cnt j acc * f (j + Z.of_nat cnt)%Z)%float.
Proof.
  revert j acc. induction cnt as [|cnt IH]; intros j acc.
  - simpl. by rewrite Z.add_0_r.
  - change (dprod f (S (S cnt)) j acc)
      with (dprod f (S cnt) (j + 1) (acc * f j)%float).
    rewrite IH. simpl. do 2 f_equal. lia.
Qed.

(** The product of the diagonal of an [n]-by-[n] buffer, from [1.0]. *)
Definition diagonal (n : Z) (uc : list float) : float :=
  dprod (fun d => entry n uc d d) (Z.to_nat n) 0 1%float.

Lemma diagonal_product_spec h m lc uc :
  wf h m -> NumberOfColumns m = NumberOfRows m ->
  length uc = Z.to_nat (NumberOfRows m * NumberOfRows m) ->
  diagonal_product m (lu_upper h m) (h ++ [lc; uc]) =
  Val (diagonal (NumberOfRows m) uc, h ++ [lc; uc]).
Proof.
  intros Hwf Hsq Hlu.
  pose proof Hwf as [HR HC Hlen Hmax _ _ _].
  unfold lu_upper. rewrite Hsq in *.
  set (n := NumberOfRows m) in *.
  assert (n * n <= max_int) as Hnn by lia.
  assert (n <= n * n) by nia.
  apply wp_eq. unfold diagonal_product, Get. fold n. simpl.
  apply wp_bind.
  apply (wp_for_up (fun row st h' =>
           h' = h ++ [lc; uc] /\ snd st = row /\
           fst st = dprod (fun d => entry n uc d d) (Z.to_nat row) 0 1%float));
    [lia | done | |].
  - intros row [det column] h1 Hrow (-> & Hcol & Hdet). simpl in *. subst.
    apply wp_bind.
    apply (wp_load_entry n Hnn h [lc] uc []); simpl; try done; try lia.
    apply wp_ret. simpl. split; [done|]. split.
    + unfold uadd. apply to_uint_small. unfold max_int in *. lia.
    + replace (Z.to_nat (row + 1)) with (S (Z.to_nat row)) by lia.
      rewrite dprod_snoc. do 3 f_equal; lia.
  - intros [det column] h1 (-> & Hcol & Hdet). simpl in *.
    apply wp_ret. by subst.
Qed.

Lemma Determinant_square h m :
  wf h m -> NumberOfColumns m = NumberOfRows m ->
  exists lc uc,
    Determinant m h =
    Val ((diagonal (NumberOfRows m) uc, None), h ++ [lc; uc]) /\
    determinantLU m h =
    Val ((diagonal (NumberOfRows m) uc,
          Some (lu_lower h m), Some (lu_upper h m), None),
         h ++ [lc; uc]) /\
    lu_state (NumberOfRows m) (elements h m) lc uc
             (NumberOfRows m) (NumberOfRows m) (NumberOfRows m).
Proof.
  intros Hwf Hsq.
  destruct (LUDecomposition_square h m Hwf Hsq) as (lc & uc & Hlu & Hst).
  exists lc, uc.
  pose proof (diagonal_product_spec h m lc uc Hwf Hsq (lu_len_u _ _ _ _ _ _ _ Hst))
    as Hdiag.
  unfold Determinant, determinantLU, IsSquare.
  rewrite Hsq, Z.eqb_refl. change (negb true) with false. cbv iota.
  unfold bind. rewrite Hlu. cbv beta iota. rewrite Hdiag. done.
Qed.

Lemma non_square_errors h m :
  NumberOfColumns m <> NumberOfRows m ->
  LUDecomposition m h =
    Val ((None, None, Some (error_code errorNonSquareMatrix)), h) /\
  Determinant m h = Val ((0%float, Some (error_code errorNonSquareMatrix)), h) /\
  determinantLU m h =
    Val ((0%float, None, None, Some (error_code errorNonSquareMatrix)), h) /\
  Inverse m h = Val ((None, Some (error_code errorNonSquareMatrix)), h).
Proof.
  intros Hns.
  unfold Inverse, bind, determinantLU, Determinant, LUDecomposition, IsSquare.
  by destruct (Z.eqb_spec (NumberOfColumns m) (NumberOfRows m)).
Qed.

(** ** What the decomposition guarantees *)

(** [tolerance] of the test file: [a] is the value computed, [b] the value
    expected, [e] the relative error allowed. *)
Definition tolerance (a b e : float) : bool :=
  if PrimFloat.eqb a b then true
  else
    let d := (a - b)%float in
    let d := if PrimFloat.ltb d 0 then (- d)%float else d in
    let e :=
      if negb (PrimFloat.eqb b 0)
      then (let e := (e * b)%float in
            if PrimFloat.ltb e 0 then (- e)%float else e)
      else e in
    PrimFloat.ltb d e.

(** The binary64 value of the constant [1e-9]. *)
Definition one_billionth : float := 0x1.12e0be826d695p-30%float.

(** C2, a matrix the claim misses: the pivots of [[2^-60 1] [1 1]] are
    [2^-60] and [-2^60], both nonzero, but [1 - 2^60] rounds to [-2^60] and
    the entry (1, 1) of [L*U] is [0] where the matrix has [1]. *)
Lemma LUDecomposition_small_pivot :
  run (m <- matrix_of 2 2 [0x1p-60; 1; 1; 1]%float ;;
       r <- LUDecomposition m ;;
       match r with
       | (Some l, Some u, None) =>
           p <- Multiply l u ;;
           match p with
           | (Some lu, None) =>
               u00 <- Get u 0 0 ;;
               u11 <- Get u 1 1 ;;
               x <- Get lu 1 1 ;;
               ret (u00, u11, x)
           | _ => panic
           end
       | _ => panic
       end) = Val (0x1p-60, -0x1p+60, 0)%float
  /\ tolerance 0 1 one_billionth = false.
Proof. split; by vm_compute. Qed.

(** C2 (amended): [LUDecomposition] refuses a non-square matrix with the
    non-square error; for every well-formed square matrix, whatever its
    pivots, it returns without error two new matrices [L] and [U] of the
    same shape: [L] has [1.0] on the diagonal and [0.0] above it, [U] has
    [0.0] below the diagonal, and their entries satisfy the Doolittle
    recursion evaluated in [float64] arithmetic, the sums accumulated from
    [0.0] in increasing order of [j]:
    [U[i][k] = A[i][k] - sum_{j<i} L[i][j]*U[j][k]] for [k >= i] and
    [L[k][i] = (A[k][i] - sum_{j<i} L[k][j]*U[j][i]) / U[i][i]] for [k > i]. *)
Theorem LUDecomposition_doolittle h m :
  wf h m ->
  (NumberOfColumns m <> NumberOfRows m ->
   LUDecomposition m h =
   Val ((None, None, Some (error_code errorNonSquareMatrix)), h)) /\
  (NumberOfColumns m = NumberOfRows m ->
   let n := NumberOfRows m in
   let a := elements h m in
   exists l u lc uc,
     LUDecomposition m h = Val ((Some l, Some u, None), h ++ [lc; uc]) /\
     NumberOfRows l = n /\ NumberOfColumns l = n /\
     NumberOfRows u = n /\ NumberOfColumns u = n /\
     elements (h ++ [lc; uc]) l = lc /\
     elements (h ++ [lc; uc]) u = uc /\
     (forall r c, 0 <= r < n -> 0 <= c < n -> r < c ->
        entry n lc r c = 0%float) /\
     (forall d, 0 <= d < n -> entry n lc d d = 1%float) /\
     (forall r c, 0 <= r < n -> 0 <= c < n -> c < r ->
        entry n uc r c = 0%float) /\
     (forall i k, 0 <= i -> i <= k -> k < n ->
        entry n uc i k =
        (entry n a i k - doolittle_sum n lc uc i k i)%float) /\
     (forall i k, 0 <= i -> i < k -> k < n ->
        entry n lc k i =
        ((entry n a k i - doolittle_sum n lc uc k i i)
         / entry n uc i i)%float)).
Proof.
  intros Hwf. split.
  - intros Hns. by apply non_square_errors.
  - intros Hsq n a.
    destruct (LUDecomposition_square h m Hwf Hsq) as (lc & uc & Hlu & Hst).
    pose proof Hwf as [HR HC Hlen Hmax _ _ _].
    fold n a in Hst. rewrite Hsq in *. fold n in HR, Hlen.
    assert (0 <= n * n) by nia.
    exists (lu_lower h m), (lu_upper h m), lc, uc.
    destruct Hst as [Hll Hlu' Hlz Huz Hone Hur Hlr].
    split; [done|]. simpl. rewrite Hsq. fold n.
    repeat split; try done.
    + unfold elements. simpl.
      rewrite (list_lookup_middle h [uc] lc) by done. simpl.
      rewrite Hsq. fold n. apply take_ge. lia.
    + unfold elements. simpl.
      rewrite lookup_app_r by lia.
      replace (S (length h) - length h)%nat with 1%nat by lia. simpl.
      rewrite Hsq. fold n. apply take_ge. lia.
    + intros d Hd. apply Hone; [done|]. lia.
    + intros i k Hi Hik Hk. apply Hur; try done. lia.
    + intros i k Hi Hik Hk. apply Hlr; try done. lia.
Qed.

(** A 2-by-2 matrix in a store of its own. *)
Definition store_2x2 : heap := [[4; 3; 6; 3]%float].
Definition matrix_2x2 : Matrix := mkMatrix 2 2 (mkSlice 0 0 4 4).

Lemma wf_matrix_2x2 : wf store_2x2 matrix_2x2.
Proof.
  split; simpl; try (unfold max_int; lia).
  eexists. split; [reflexivity|]. simpl. lia.
Qed.

Lemma LUDecomposition_doolittle_witness :
  wf store_2x2 matrix_2x2 /\
  exists l u lc uc,
    LUDecomposition matrix_2x2 store_2x2 =
    Val ((Some l, Some u, None), store_2x2 ++ [lc; uc]) /\
    entry 2 lc 0 0 = 1%float.
Proof.
  split; [exact wf_matrix_2x2|].
  destruct (LUDecomposition_doolittle store_2x2 matrix_2x2 wf_matrix_2x2)
    as [_ Hsq].
  destruct (Hsq eq_refl)
    as (l & u & lc & uc & Hrun & _ & _ & _ & _ & _ & _ & _ & Hone & _).
  exists l, u, lc, uc. split; [done|]. apply Hone. simpl. lia.
Defined.

(** ** The identity matrix *)

(** The buffer of the [n]-by-[n] identity. *)
Definition identity_data (n : Z) : list float :=
  (fun j => if j / n =? j mod n then 1%float else 0%float) <$> seqZ 0 (n * n).

Lemma length_identity_data n : length (identity_data n) = Z.to_nat (n * n).
Proof. unfold identity_data. by rewrite length_fmap, length_seqZ. Qed.

Lemma entry_identity_data n r c :
  0 <= r < n -> 0 <= c < n ->
  entry n (identity_data n) r c = if r =? c then 1%float else 0%float.
Proof.
  intros Hr Hc. unfold entry, identity_data.
  pose proof (offset_bound r c n n Hr Hc).
  apply list_lookup_total_correct.
  rewrite list_lookup_fmap, lookup_seqZ_lt by lia. simpl.
  rewrite Z2Nat.id by lia.
  rewrite !Z.add_0_l, offset_div, offset_mod by lia. done.
Qed.

(** The matrix that [NewIdentity] returns from [h]. *)
Definition identity_matrix (h : heap) (n : Z) : Matrix :=
  mkMatrix n n (mkSlice (length h) 0 (n * n) (n * n)).

Lemma NewIdentity_spec h n :
  0 <= n -> n * n <= max_int ->
  NewIdentity n h = Val (identity_matrix h n, h ++ [identity_data n]).
Proof.
  intros Hn Hnn. unfold identity_matrix.
  assert (0 <= n * n) by nia.
  apply wp_eq. unfold NewIdentity.
  apply wp_bind.
  assert (umul n n = n * n) as ->.
  { unfold umul. apply to_uint_small. unfold max_int in *. lia. }
  apply wp_make; [lia|]. simpl.
  (* rows below [j] are those of the identity, the others are zero *)
  set (I := fun (j k : Z) (h' : heap) => exists cur,
         h' = h ++ [cur] /\ length cur = Z.to_nat (n * n) /\
         forall r c, 0 <= r < n -> 0 <= c < n ->
           entry n cur r c =
           if (r =? c) && ((r <? j) || ((r =? j) && (c <? k)))
           then 1%float else 0%float).
  apply wp_bind.
  apply (wp_for_up (fun j _ h' => I j 0 h')); [lia | | |].
  { eexists. split; [done|]. split; [apply length_replicate|].
    intros r c Hr Hc. rewrite entry_replicate by done.
    destruct (Z.eqb_spec r c), (Z.ltb_spec r 0), (Z.eqb_spec r 0),
      (Z.ltb_spec c 0); simpl; try done; lia. }
  { intros j _ h1 Hj HI.
    apply (wp_for_up (fun k _ h' => I j k h')); [lia | done | |].
    - intros k _ h2 Hk (cur & -> & Hlen & Hent).
      destruct (Z.eqb_spec j k) as [<-|Hjk].
      + apply (wp_store_entry n Hnn h [] cur []); simpl; try done; try lia.
        eexists. split; [done|]. split; [by rewrite length_insert|].
        intros r c Hr Hc.
        destruct (decide (r = j /\ c = j)) as [[-> ->]|Hother].
        * rewrite entry_insert_eq by done.
          rewrite Z.eqb_refl. simpl.
          destruct (Z.ltb_spec j j), (Z.ltb_spec j (j + 1)); simpl;
            try done; try lia.
        * rewrite entry_insert_ne, Hent by (done || lia).
          destruct (Z.eqb_spec r c), (Z.ltb_spec r j), (Z.eqb_spec r j),
            (Z.ltb_spec c j), (Z.ltb_spec c (j + 1)); simpl; try done; lia.
      + apply wp_ret. exists cur. split; [done|]. split; [done|].
        intros r c Hr Hc. rewrite Hent by done.
        destruct (Z.eqb_spec r c), (Z.ltb_spec r j), (Z.eqb_spec r j),
          (Z.ltb_spec c k), (Z.ltb_spec c (k + 1)); simpl; try done; lia.
    - intros _ h2 (cur & -> & Hlen & Hent).
      exists cur. split; [done|]. split; [done|].
      intros r c Hr Hc. rewrite Hent by done.
      destruct (Z.eqb_spec r c), (Z.ltb_spec r j), (Z.eqb_spec r j),
        (Z.ltb_spec c n), (Z.ltb_spec r (j + 1)), (Z.eqb_spec r (j + 1)),
        (Z.ltb_spec c 0); simpl; try done; lia. }
  intros _ h1 (cur & -> & Hlen & Hent). apply wp_ret.
  split; [done|]. f_equal. f_equal.
  apply list_eq. intros i.
  destruct (decide (i < Z.to_nat (n * n))%nat) as [Hi|Hi].
  - assert (0 < n) by nia.
    set (z := Z.of_nat i).
    assert (0 <= z mod n < n) by (apply Z.mod_pos_bound; lia).
    assert (0 <= z / n < n).
    { split; [apply Z.div_pos; lia|]. apply Z.div_lt_upper_bound; lia. }
    assert (i = Z.to_nat (z / n * n + z mod n)) as Hz.
    { rewrite Z.mul_comm, <- Z.div_mod by lia. unfold z. lia. }
    clearbody z. rewrite Hz.
    rewrite !entry_lookup by (done || apply length_identity_data).
    f_equal. rewrite Hent, entry_identity_data by done.
    destruct (Z.eqb_spec (z / n) (z mod n)), (Z.ltb_spec (z / n) n);
      simpl; try done; lia.
  - rewrite !lookup_ge_None_2; [done | rewrite length_identity_data; lia | lia].
Qed.

Lemma wf_identity h n :
  0 <= n -> n * n <= max_int ->
  wf (h ++ [identity_data n]) (identity_matrix h n) /\
  elements (h ++ [identity_data n]) (identity_matrix h n) = identity_data n.
Proof.
  intros Hn Hnn. assert (0 <= n * n) by nia.
  assert (n <= n * n) by nia. unfold max_int in *.
  split.
  - split; simpl; unfold max_int; try lia.
    eexists. split; [by apply list_lookup_middle|].
    rewrite length_identity_data. lia.
  - unfold elements. simpl. rewrite list_lookup_middle by done. simpl.
    apply take_ge. rewrite length_identity_data. lia.
Qed.

(** ** The decomposition of the identity *)

Lemma dsum_zero f cnt j :
  (forall j', j <= j' < j + Z.of_nat cnt -> f j' = 0%float) ->
  dsum f cnt j 0%float = 0%float.
Proof.
  revert j. induction cnt as [|cnt IH]; intros j Hf; [done|].
  simpl. rewrite (Hf j) by lia.
  change (0 + 0)%float with 0%float. apply IH. intros j' Hj'. apply Hf. lia.
Qed.

Lemma dprod_one f cnt j :
  (forall j', j <= j' < j + Z.of_nat cnt -> f j' = 1%float) ->
  dprod f cnt j 1%float = 1%float.
Proof.
  revert j. induction cnt as [|cnt IH]; intros j Hf; [done|].
  simpl. rewrite (Hf j) by lia.
  change (1 * 1)%float with 1%float. apply IH. intros j' Hj'. apply Hf. lia.
Qed.

(** With the identity as input every sum of the recursion is [0.0], so [U]
    gets the rows of the identity and [L] zeros below its diagonal. *)
Lemma identity_lu n lc uc (i : nat) :
  lu_state n (identity_data n) lc uc n n n ->
  Z.of_nat i <= n ->
  (forall r c, 0 <= r < Z.of_nat i -> r <= c < n ->
     entry n uc r c = if r =? c then 1%float else 0%float) /\
  (forall r c, 0 <= c < Z.of_nat i -> c < r < n ->
     entry n lc r c = 0%float).
Proof.
  intros [Hll Hlu Hlz Huz Hone Hur Hlr].
  induction i as [|i IH]; intros Hi; [split; intros; lia|].
  destruct IH as [IHu IHl]; [lia|].
  assert (forall c, Z.of_nat i <= c < n ->
            entry n uc (Z.of_nat i) c =
            if Z.of_nat i =? c then 1%float else 0%float) as Hrow.
  { intros c Hc.
    rewrite Hur, entry_identity_data by lia.
    unfold doolittle_sum. rewrite dsum_zero.
    - by destruct (Z.of_nat i =? c).
    - intros j Hj. rewrite IHl, IHu by lia.
      destruct (Z.eqb_spec j c); [lia | done]. }
  split.
  - intros r c Hr Hc.
    destruct (decide (r = Z.of_nat i)) as [->|]; [by apply Hrow|].
    apply IHu; lia.
  - intros r c Hc Hr.
    destruct (decide (c = Z.of_nat i)) as [->|]; [|apply IHl; lia].
    rewrite Hlr, entry_identity_data by lia.
    rewrite Hrow, Z.eqb_refl by lia.
    unfold doolittle_sum. rewrite dsum_zero.
    + by destruct (Z.eqb_spec r (Z.of_nat i)); [lia|].
    + intros j Hj. rewrite IHl, IHu by lia.
      destruct (Z.eqb_spec j (Z.of_nat i)); [lia | done].
Qed.

Lemma identity_diagonal n lc uc :
  0 <= n -> lu_state n (identity_data n) lc uc n n n ->
  diagonal n uc = 1%float.
Proof.
  intros Hn Hst.
  destruct (identity_lu n lc uc (Z.to_nat n) Hst) as [Hu _]; [lia|].
  unfold diagonal. apply dprod_one. intros d Hd.
  rewrite Hu, Z.eqb_refl by lia. done.
Qed.

(** C9: for every [n >= 1] whose [n*n] elements [make] can allocate (the
    product neither wraps around nor exceeds the largest [int]),
    [NewIdentity(n)] returns and [Determinant] of the result is exactly
    [1.0], with a nil error. *)
Theorem Determinant_identity h n :
  1 <= n -> n * n <= max_int ->
  exists id h1 h2,
    NewIdentity n h = Val (id, h1) /\
    Determinant id h1 = Val ((1%float, None), h2).
Proof.
  intros Hn Hnn.
  destruct (wf_identity h n) as [Hwf Hel]; [lia | done |].
  destruct (Determinant_square _ _ Hwf eq_refl)
    as (lc & uc & Hdet & _ & Hst).
  simpl in Hst, Hdet. rewrite Hel in Hst.
  rewrite (identity_diagonal n lc uc) in Hdet by (done || lia).
  eexists _, _, _. split; [by apply NewIdentity_spec; lia|]. exact Hdet.
Qed.

Lemma Determinant_identity_witness :
  1 <= 3 /\ 3 * 3 <= max_int /\
  exists id h1 h2,
    NewIdentity 3 [] = Val (id, h1) /\
    Determinant id h1 = Val ((1%float, None), h2).
Proof.
  split; [lia|]. split; [by vm_compute|].
  apply (Determinant_identity [] 3); [lia | by vm_compute].
Defined.

Lemma for_up_first_panics {St} lo hi (body : Z -> St -> go St) s h :
  lo < hi -> body lo s h = Panic -> for_up lo hi body s h = Panic.
Proof.
  intros Hlt Hbody. unfold for_up.
  replace (Z.to_nat (hi - lo)) with (S (Z.to_nat (hi - lo - 1))) by lia.
  generalize (Z.to_nat (hi - lo - 1)). intros k.
  simpl. unfold bind. by rewrite Hbody.
Qed.

(** C9, a size the claim misses: for [n = 2^32] the product [n*n] wraps
    around to 0, [make] returns an empty buffer, and the first write of
    [NewIdentity], at offset 0, panics: there is no identity whose
    determinant could be taken. *)
Lemma NewIdentity_wraps :
  umul (2 ^ 32) (2 ^ 32) = 0 /\
  run (id <- NewIdentity (2 ^ 32) ;; Determinant id) = Panic.
Proof.
  split; [by vm_compute|].
  assert (NewIdentity (2 ^ 32) [] = Panic) as Hpanic.
  { unfold NewIdentity, bind.
    replace (umul (2 ^ 32) (2 ^ 32)) with 0 by by vm_compute.
    change (make 0 []) with (Val (mkSlice 0 0 0 0, [[]] : heap)).
    cbv beta iota zeta.
    rewrite for_up_first_panics; [done | done |].
    apply for_up_first_panics; [done | by vm_compute]. }
  unfold run, bind. by rewrite Hpanic.
Qed.

(** * More on ScalarMultiply and Add *)

Lemma for_iter_app {St} a b i step (body : Z -> St -> go St) s h :
  for_iter (a + b) i step body s h =
  (s' <- for_iter a i step body s ;;
   for_iter b (i + Z.of_nat a * step) step body s') h.
Proof.
  revert i s h. induction a as [|a IH]; intros i s h.
  - replace (i + Z.of_nat 0 * step) with i by lia. done.
  - replace (i + Z.of_nat (S a) * step)
      with (i + step + Z.of_nat a * step) by lia.
    simpl. unfold bind. destruct (body i s h) as [[s1 h1]| |]; [|done..].
    apply IH.
Qed.

(** A loop panics when the iterations before [mid] return and the
    iteration [mid] panics. *)
Lemma for_up_panics {St} (I : Z -> St -> heap -> Prop) lo mid hi
      (body : Z -> St -> go St) s h :
  lo <= mid < hi ->
  I lo s h ->
  (forall i s h, lo <= i < mid -> I i s h -> wp (body i s) h (I (i + 1))) ->
  (forall s h, I mid s h -> body mid s h = Panic) ->
  for_up lo hi body s h = Panic.
Proof.
  intros Hmid HI Hbody Hpanic. unfold for_up.
  replace (Z.to_nat (hi - lo))
    with (Z.to_nat (mid - lo) + Z.to_nat (hi - mid))%nat by lia.
  rewrite for_iter_app. unfold bind.
  destruct (wp_for_up I lo mid body s h (I mid)) as (s' & h' & Hrun & HI');
    [lia | done | done | done |].
  unfold for_up in Hrun. rewrite Hrun.
  replace (lo + Z.of_nat (Z.to_nat (mid - lo)) * 1) with mid by lia.
  apply (for_up_first_panics mid hi); [lia | by apply Hpanic].
Qed.

(** X28: on a well-formed matrix with more rows than columns, and at least
    one column, [ScalarMultiply] panics, whatever the scalar is: the result
    is allocated with the two dimensions exchanged, so row [cols] of the
    receiver starts where the [cols]-by-[rows] result ends. *)
Lemma ScalarMultiply_tall h m k :
  wf h m -> 1 <= NumberOfColumns m < NumberOfRows m ->
  ScalarMultiply m k h = Panic.
Proof.
  intros Hwf Htall.
  pose proof Hwf as [HR HC Hlen Hmax _ _ _].
  set (R := NumberOfRows m) in *. set (C := NumberOfColumns m) in *.
  assert (0 <= C * R <= max_int) as HN by (split; [nia | lia]).
  unfold max_int in HN.
  unfold ScalarMultiply, NewMatrix. fold R C. unfold bind at 1 2.
  assert (umul C R = C * R) as ->.
  { unfold umul. apply to_uint_small. lia. }
  unfold make. destruct (Z.leb_spec 0 (C * R)); [|lia].
  destruct (Z.leb_spec (C * R) max_int); [|unfold max_int in *; lia].
  simpl. unfold bind.
  rewrite (for_up_panics (fun _ _ h' => exists d,
             h' = h ++ [d] /\ length d = Z.to_nat (C * R)) 0 C R);
    [done | lia | | |].
  - eexists. split; [done|]. apply length_replicate.
  - intros row _ h1 Hrow HI.
    apply (wp_for_up (fun _ _ h' => exists d,
             h' = h ++ [d] /\ length d = Z.to_nat (C * R)));
      [lia | done | | done].
    intros col _ h2 Hcol (cur & -> & Hlen').
    assert (0 <= row * R + col < C * R) as Hidx by nia.
    assert (uadd (umul row R) col = row * R + col) as ->.
    { unfold uadd, umul.
      assert (0 <= row * R) by nia.
      rewrite (to_uint_small (row * R)) by lia.
      apply to_uint_small. lia. }
    destruct (lookup_lt_is_Some_2 cur (Z.to_nat (row * R + col)))
      as [x Hx]; [lia|].
    apply wp_bind.
    apply (wp_load_new h [] cur [] _ _ x); simpl; [lia | done | lia | done |].
    apply (wp_store_new h [] cur []); simpl; [lia | done | lia | lia |].
    eexists. split; [done|]. by rewrite length_insert.
  - intros _ h1 (d & -> & Hd).
    apply for_up_first_panics; [lia|].
    unfold bind, load, peek. simpl.
    assert (uadd (umul C R) 0 = C * R) as ->.
    { unfold uadd, umul. rewrite (to_uint_small (C * R)) by lia.
      rewrite Z.add_0_r. apply to_uint_small. lia. }
    destruct (Z.leb_spec 0 (C * R)), (Z.ltb_spec (C * R) (C * R));
      simpl; try done; lia.
Qed.

(** For square operands [Add] is the element-wise sum. *)
Lemma Add_square h a b :
  wf h a -> wf h b ->
  NumberOfColumns a = NumberOfRows a ->
  NumberOfRows b = NumberOfRows a -> NumberOfColumns b = NumberOfRows a ->
  let n := NumberOfRows a in
  exists d,
    Add a b h =
    Val ((Some (mkMatrix n n (mkSlice (length h) 0 (n * n) (n * n))), None),
         h ++ [d]) /\
    length d = Z.to_nat (n * n) /\
    forall r c, 0 <= r < n -> 0 <= c < n ->
      entry n d r c
      = (entry n (elements h a) r c + entry n (elements h b) r c)%float.
Proof.
  intros Hwa Hwb Hsq Hbr Hbc n.
  pose proof Hwa as [HR HC Hlen Hmax _ _ _].
  rewrite Hsq in *. fold n in HR, Hlen.
  assert (n * n <= max_int) as Hnn by lia.
  assert (0 <= n * n) by nia.
  set (ea := elements h a). set (eb := elements h b).
  set (I := fun (row col : Z) (h' : heap) => exists d,
         h' = h ++ [d] /\ length d = Z.to_nat (n * n) /\
         forall r c, 0 <= r < n -> 0 <= c < n ->
           r < row \/ (r = row /\ c < col) ->
           entry n d r c = (entry n ea r c + entry n eb r c)%float).
  cut (wp (Add a b) h (fun r h' =>
         r = (Some (mkMatrix n n (mkSlice (length h) 0 (n * n) (n * n))),
              None) /\ I n 0 h')).
  { intros (r & h' & Hrun & -> & d & -> & Hd & Hent).
    exists d. split; [done|]. split; [done|].
    intros r c Hr Hc. apply Hent; [done | done | lia]. }
  unfold Add. rewrite Hbr, Hbc, Hsq. fold n. rewrite Z.eqb_refl.
  change (negb true || negb true) with false. cbv iota.
  apply wp_bind. unfold NewMatrix. apply wp_bind.
  assert (umul n n = n * n) as ->.
  { unfold umul. apply to_uint_small. unfold max_int in *. lia. }
  apply wp_make; [lia|]. apply wp_ret. simpl.
  apply wp_bind.
  apply (wp_for_up (fun row _ h' => I row 0 h')); [lia | | |].
  { eexists. split; [done|]. split; [apply length_replicate|].
    intros r c Hr Hc Hcase. lia. }
  { intros row _ h1 Hrow HI.
    apply (wp_for_up (fun col _ h' => I row col h')); [lia | done | |].
    - intros col _ h2 Hcol (d & -> & Hd & Hent).
      apply wp_bind.
      apply (wp_load_matrix n Hnn h [d] a); try done.
      apply wp_bind.
      apply (wp_load_matrix n Hnn h [d] b); try done.
      apply (wp_store_entry n Hnn h [] d []); simpl; try done; try lia.
      eexists. split; [done|]. split; [by rewrite length_insert|].
      intros r c Hr Hc Hcase.
      destruct (decide (r = row /\ c = col)) as [[-> ->]|Hother].
      + by rewrite entry_insert_eq.
      + rewrite entry_insert_ne by (done || lia). apply Hent; try done. lia.
    - intros _ h2 (d & -> & Hd & Hent).
      exists d. split; [done|]. split; [done|].
      intros r c Hr Hc Hcase. apply Hent; try done. lia. }
  intros _ h1 HI. by apply wp_ret.
Qed.

(** * Inverse *)

(** ** Buffers with known contents *)

(** The slice [s] is the whole of the array [d] of [H]. *)
Definition holds (H : heap) (s : slice) (d : list float) : Prop :=
  s_off s = 0 /\ H !! s_arr s = Some d /\ s_len s = Z.of_nat (length d).

Lemma holds_app H ext s d : holds H s d -> holds (H ++ ext) s d.
Proof.
  intros (Ho & Ha & Hl). split; [done|]. split; [|done].
  by apply lookup_app_l_Some.
Qed.

Lemma holds_new (H : heap) d (post : heap) s :
  s_arr s = length H -> s_off s = 0 -> s_len s = Z.of_nat (length d) ->
  holds (H ++ d :: post) s d.
Proof.
  intros Ha Ho Hl. split; [done|]. split; [|done].
  rewrite Ha. by apply list_lookup_middle.
Qed.

Lemma peek_holds H s d i :
  holds H s d -> 0 <= i < s_len s -> peek H s i = d !! Z.to_nat i.
Proof.
  intros (Ho & Ha & Hl) Hi. unfold peek.
  destruct (Z.leb_spec 0 i), (Z.ltb_spec i (s_len s)); try lia. simpl.
  rewrite Ha, Ho. f_equal.
Qed.

Section SquareContents.

Variable n : Z.
Hypothesis n_pos : 0 <= n.
Hypothesis n_max : n * n <= max_int.

Lemma wp_Get_holds (H ext : heap) m d r c (Q : float -> heap -> Prop) :
  NumberOfColumns m = n -> holds H (M m) d ->
  length d = Z.to_nat (n * n) -> 0 <= r < n -> 0 <= c < n ->
  Q (entry n d r c) (H ++ ext) -> wp (Get m r c) (H ++ ext) Q.
Proof.
  intros Hcols Hh Hlen Hr Hc HQ. unfold Get. rewrite Hcols.
  rewrite (offset_uint r c n n) by done.
  pose proof (offset_bound r c n n Hr Hc).
  pose proof Hh as (Ho & Ha & Hl).
  eapply wp_load_old; [by eapply lookup_lt_Some | | done].
  rewrite (peek_holds H _ d) by (done || lia).
  by apply entry_lookup.
Qed.

(** [GetColumn] copies column [c] into a new array. *)
Lemma wp_GetColumn_holds (H : heap) m d c (Q : slice -> heap -> Prop) :
  NumberOfRows m = n -> NumberOfColumns m = n ->
  holds H (M m) d -> length d = Z.to_nat (n * n) -> 0 <= c < n ->
  (forall col dc,
     s_arr col = length H -> s_off col = 0 -> s_len col = n ->
     length dc = Z.to_nat n ->
     (forall r, 0 <= r < n -> dc !! Z.to_nat r = Some (entry n d r c)) ->
     Q col (H ++ [dc])) ->
  wp (GetColumn m c) H Q.
Proof.
  intros Hrows Hcols Hh Hlen Hc HQ. unfold GetColumn. rewrite Hrows, Hcols.
  assert (n <= n * n) by nia.
  pose proof Hh as (Ho & Ha & Hl).
  apply wp_bind. apply wp_make; [lia|].
  set (col := mkSlice (length H) 0 n n).
  apply wp_bind.
  apply (wp_for_up (fun row _ h' => exists dc,
           h' = H ++ [dc] /\ length dc = Z.to_nat n /\
           forall r, 0 <= r < row ->
             dc !! Z.to_nat r = Some (entry n d r c))); [lia | | |].
  - eexists. split; [done|]. split; [apply length_replicate | intros; lia].
  - intros r _ h1 Hr (dc & -> & Hdc & Hent).
    apply wp_bind. rewrite (offset_uint r c n n) by done.
    pose proof (offset_bound r c n n Hr Hc).
    eapply (wp_load_old H [dc]); [by eapply lookup_lt_Some | |].
    { rewrite (peek_holds H _ d) by (done || lia). by apply entry_lookup. }
    apply (wp_store_new H [] dc []); simpl; try done; try lia.
    eexists. split; [done|]. split; [by rewrite length_insert|].
    intros r' Hr'. destruct (decide (r' = r)) as [->|].
    + apply list_lookup_insert_eq. lia.
    + rewrite list_lookup_insert_ne by lia. apply Hent. lia.
  - intros _ h1 (dc & -> & Hdc & Hent). apply wp_ret. by apply HQ.
Qed.

End SquareContents.

(** ** The values of the two substitutions *)

(** [Y[r][c]], the solution of [L*Y = I] by forward substitution, from
    the entries of [Y] above it in its column. *)
Definition forward_entry (n : Z) (lc yc : list float) (r c : Z) : float :=
  if r =? 0
  then (entry n (identity_data n) 0 c / entry n lc 0 0)%float
  else ((entry n (identity_data n) r c - doolittle_sum n lc yc r c r)
        / entry n lc r r)%float.

(** The sum of [U[r][p] * X[p][c]] for [r < p < n], from [0.0]. *)
Definition backward_sum (n : Z) (uc xc : list float) (r c : Z) : float :=
  dsum (fun p => (entry n uc r p * entry n xc p c)%float)
       (Z.to_nat (n - 1 - r)) (r + 1) 0%float.

(** [X[r][c]], the solution of [U*X = Y] by backward substitution, from
    the entries of [X] below it in its column. *)
Definition backward_entry (n : Z) (uc yc xc : list float) (r c : Z) : float :=
  if r =? n - 1
  then (entry n yc (n - 1) c / entry n uc (n - 1) (n - 1))%float
  else ((entry n yc r c - backward_sum n uc xc r c) / entry n uc r r)%float.

Lemma forward_entry_ext n lc yc yc' r c :
  (forall j, 0 <= j < r -> entry n yc' j c = entry n yc j c) ->
  forward_entry n lc yc' r c = forward_entry n lc yc r c.
Proof.
  intros Hy. unfold forward_entry.
  by rewrite (doolittle_sum_ext n lc yc lc yc').
Qed.

Lemma backward_entry_ext n uc yc xc xc' r c :
  0 <= r < n ->
  (forall p, r < p < n -> entry n xc' p c = entry n xc p c) ->
  backward_entry n uc yc xc' r c = backward_entry n uc yc xc r c.
Proof.
  intros Hr Hx. unfold backward_entry, backward_sum.
  rewrite (dsum_ext _ (fun p => (entry n uc r p * entry n xc p c)%float));
    [done|].
  intros p Hp. rewrite Hx by lia. done.
Qed.

(** Columns below [k] of [Y] are done, and column [k] above row [i]. *)
Definition fw_state (n : Z) (lc yc : list float) (k i : Z) : Prop :=
  length yc = Z.to_nat (n * n) /\
  forall r c, 0 <= r < n -> 0 <= c < n -> c < k \/ (c = k /\ r < i) ->
    entry n yc r c = forward_entry n lc yc r c.

(** Columns above [cc] of [X] are done, and column [cc] below row [o]. *)
Definition bw_state (n : Z) (uc yc xc : list float) (cc o : Z) : Prop :=
  length xc = Z.to_nat (n * n) /\
  forall r c, 0 <= r < n -> 0 <= c < n -> cc < c \/ (c = cc /\ o < r) ->
    entry n xc r c = backward_entry n uc yc xc r c.

Lemma fw_store n lc yc k i :
  0 <= i < n -> 0 <= k < n -> fw_state n lc yc k i ->
  fw_state n lc
    (<[Z.to_nat (i * n + k) := forward_entry n lc yc i k]> yc) k (i + 1).
Proof.
  intros Hi Hk [Hlen Hent]. split; [by rewrite length_insert|].
  intros r c Hr Hc Hcase.
  set (v := forward_entry n lc yc i k) in *.
  assert (forall r' c', 0 <= r' < n -> 0 <= c' < n -> r' <> i \/ c' <> k ->
            entry n (<[Z.to_nat (i * n + k) := v]> yc) r' c'
            = entry n yc r' c')
    as Hne by (intros; apply entry_insert_ne; lia).
  rewrite (forward_entry_ext n lc yc);
    [|intros j Hj; apply Hne; lia].
  destruct (decide (r = i /\ c = k)) as [[-> ->]|Hother].
  - by rewrite entry_insert_eq.
  - rewrite Hne by lia. apply Hent; try done. lia.
Qed.

Lemma bw_store n uc yc xc cc o :
  0 <= o < n -> 0 <= cc < n -> bw_state n uc yc xc cc o ->
  bw_state n uc yc
    (<[Z.to_nat (o * n + cc) := backward_entry n uc yc xc o cc]> xc)
    cc (o - 1).
Proof.
  intros Ho Hcc [Hlen Hent]. split; [by rewrite length_insert|].
  intros r c Hr Hc Hcase.
  set (v := backward_entry n uc yc xc o cc) in *.
  assert (forall r' c', 0 <= r' < n -> 0 <= c' < n -> r' <> o \/ c' <> cc ->
            entry n (<[Z.to_nat (o * n + cc) := v]> xc) r' c'
            = entry n xc r' c')
    as Hne by (intros; apply entry_insert_ne; lia).
  rewrite (backward_entry_ext n uc yc xc) by
    (done || (intros p Hp; apply Hne; lia)).
  destruct (decide (r = o /\ c = cc)) as [[-> ->]|Hother].
  - by rewrite entry_insert_eq.
  - rewrite Hne by lia. apply Hent; try done. lia.
Qed.

Section SubstitutionRuns.

Variable n : Z.
Hypothesis n_pos : 0 <= n.
Hypothesis n_max : n * n <= max_int.
Variable H : heap.

Lemma forward_substitution_spec l lc id y yc g :
  NumberOfRows l = n -> NumberOfColumns l = n -> holds H (M l) lc ->
  length lc = Z.to_nat (n * n) ->
  NumberOfRows id = n -> NumberOfColumns id = n ->
  holds H (M id) (identity_data n) ->
  NumberOfRows y = n -> NumberOfColumns y = n ->
  s_arr (M y) = length H -> s_off (M y) = 0 -> s_len (M y) = n * n ->
  length yc = Z.to_nat (n * n) ->
  wp (forward_substitution l id y) (H ++ yc :: g)
     (fun _ h' => exists yc' g',
        h' = H ++ yc' :: g' /\ fw_state n lc yc' n 0).
Proof.
  intros Hlr Hlc Hl Hll Hir Hic Hid Hyr Hyc Hya Hyo Hyl Hlen.
  assert (n <= n * n) as Hnn by nia. unfold max_int in *.
  pose proof (length_identity_data n) as Hli.
  unfold forward_substitution. rewrite Hlr, Hyc.
  rewrite (to_int_small n) by lia.
  apply (wp_for_up (fun k sum h' => sum = 0%float /\ exists yc' g',
           h' = H ++ yc' :: g' /\ fw_state n lc yc' k 0)); [lia | | |].
  { split; [done|]. exists yc, g. split; [done|]. split; [done|].
    intros; lia. }
  2: { intros sum h' (_ & HI). exact HI. }
  intros k sum h1 Hk (-> & yc1 & g1 & -> & Hst1).
  pose proof Hst1 as [Hlen1 _].
  rewrite (to_uint_small k) by lia.
  apply wp_bind.
  apply (wp_GetColumn_holds n n_pos n_max (H ++ yc1 :: g1) id
           (identity_data n) k);
    [done | done | by apply holds_app | done | lia |].
  intros col dc Hca Hco Hcl Hdc Hcol.
  apply wp_bind.
  apply (wp_load_new (H ++ yc1 :: g1) [] dc [] col 0
           (entry n (identity_data n) 0 k)); simpl;
    [lia | done | lia | by apply (Hcol 0); lia |].
  rewrite <- app_assoc. simpl.
  apply wp_bind.
  apply (wp_Get_holds n n_max H _ l lc); [done | done | done | lia | lia |].
  apply wp_bind.
  apply (wp_store_new H [] yc1 (g1 ++ [dc])); simpl; [lia | done | lia | lia |].
  pose proof (fw_store n lc yc1 k 0 ltac:(lia) ltac:(lia) Hst1) as Hst2.
  change (<[Z.to_nat (0 * n + k) := forward_entry n lc yc1 0 k]> yc1)
    with (<[Z.to_nat k :=
              (entry n (identity_data n) 0 k / entry n lc 0 0)%float]> yc1)
    in Hst2.
  apply (wp_for_up (fun i sum h' => sum = 0%float /\ exists yc' g',
           h' = H ++ yc' :: g' /\ fw_state n lc yc' k i)); [lia | | |].
  { split; [done|]. by eexists _, _. }
  2: { intros sum h' (-> & yc3 & g3 & -> & [Hlen3 Hent3]).
       split; [done|]. exists yc3, g3. split; [done|]. split; [done|].
       intros r c Hr Hc Hcase. apply Hent3; try done. lia. }
  intros i sum1 h1 Hi (-> & yc2 & g2 & -> & Hst3).
  pose proof Hst3 as [Hlen2 _].
  rewrite (to_uint_small i) by lia.
  apply wp_bind.
  apply (wp_for_up (fun j acc h' =>
           h' = H ++ yc2 :: g2 /\
           acc = dsum (fun j => (entry n lc i j * entry n yc2 j k)%float)
                      (Z.to_nat j) 0 0%float)); [lia | done | |].
  { intros j acc h1 Hj [-> ->].
    rewrite (to_uint_small j) by lia.
    apply wp_bind.
    apply (wp_Get_holds n n_max H _ l lc); [done | done | done | lia | lia |].
    apply wp_bind.
    apply (wp_load_entry n n_max H [] yc2 g2); simpl; try done; try lia.
    apply wp_ret. split; [done|].
    replace (Z.to_nat (j + 1)) with (S (Z.to_nat j)) by lia.
    rewrite dsum_snoc. do 3 f_equal; lia. }
  intros acc h1 [-> ->].
  apply wp_bind.
  apply (wp_Get_holds n n_max H _ id (identity_data n));
    [done | done | done | lia | lia |].
  apply wp_bind.
  apply (wp_Get_holds n n_max H _ l lc); [done | done | done | lia | lia |].
  apply wp_bind.
  apply (wp_store_entry n n_max H [] yc2 g2); simpl; try done; try lia.
  apply wp_ret. split; [done|]. eexists _, _. split; [done|].
  pose proof (fw_store n lc yc2 k i ltac:(lia) ltac:(lia) Hst3) as Hst4.
  unfold forward_entry at 1 in Hst4.
  destruct (Z.eqb_spec i 0); [lia|]. exact Hst4.
Qed.

Lemma backward_substitution_spec u uc y yc x xc g :
  NumberOfRows u = n -> NumberOfColumns u = n -> holds H (M u) uc ->
  length uc = Z.to_nat (n * n) ->
  NumberOfRows y = n -> NumberOfColumns y = n -> holds H (M y) yc ->
  length yc = Z.to_nat (n * n) ->
  NumberOfRows x = n -> NumberOfColumns x = n ->
  s_arr (M x) = length H -> s_off (M x) = 0 -> s_len (M x) = n * n ->
  length xc = Z.to_nat (n * n) ->
  wp (backward_substitution u y x) (H ++ xc :: g)
     (fun _ h' => exists xc' g',
        h' = H ++ xc' :: g' /\ bw_state n uc yc xc' (-1) (n - 1)).
Proof.
  intros Hur Huc Hu Hlu Hyr Hyc Hy Hly Hxr Hxc Hxa Hxo Hxl Hlen.
  assert (n <= n * n) as Hnn by nia. unfold max_int in *.
  unfold backward_substitution, Set_. rewrite Hxr, Hxc, Hyr.
  rewrite (to_int_small n) by lia.
  eapply wp_mono.
  { apply (wp_for_up (fun k sum h' => sum = 0%float /\ exists xc' g',
             h' = H ++ xc' :: g' /\
             bw_state n uc yc xc' (n - 1 - k) (n - 1))); [lia | | |].
    { split; [done|]. exists xc, g. split; [done|]. split; [done|].
      intros; lia. }
    2: { intros sum h' HI. exact HI. }
    intros k sum h1 Hk (-> & xc1 & g1 & -> & Hst1).
    pose proof Hst1 as [Hlen1 _].
    assert (usub n 1 = n - 1) as ->.
    { unfold usub. apply to_uint_small. lia. }
    assert (usub (n - 1) (to_uint k) = n - 1 - k) as ->.
    { unfold usub. rewrite (to_uint_small k) by lia.
      apply to_uint_small. lia. }
    assert (isub n 1 = n - 1) as ->.
    { unfold isub. apply to_int_small. lia. }
    assert (isub n 2 = n - 2) as ->.
    { unfold isub. apply to_int_small. lia. }
    set (cc := n - 1 - k) in *.
    apply wp_bind.
    apply (wp_GetColumn_holds n n_pos n_max (H ++ xc1 :: g1) y yc cc);
      [done | done | by apply holds_app | done | lia |].
    intros col dc Hca Hco Hcl Hdc Hcol.
    apply wp_bind.
    apply (wp_load_new (H ++ xc1 :: g1) [] dc [] col (n - 1)
             (entry n yc (n - 1) cc)); simpl;
      [lia | done | lia | by apply Hcol; lia |].
    rewrite <- app_assoc. simpl.
    apply wp_bind.
    apply (wp_Get_holds n n_max H _ u uc); [done | done | done | lia | lia |].
    apply wp_bind.
    apply (wp_store_entry n n_max H [] xc1 (g1 ++ [dc])); simpl; try done;
      try lia.
    pose proof (bw_store n uc yc xc1 cc (n - 1) ltac:(lia) ltac:(lia) Hst1)
      as Hst2.
    unfold backward_entry at 1 in Hst2. rewrite Z.eqb_refl in Hst2.
    replace (n - 1 - 1) with (n - 2) in Hst2 by lia.
    apply (wp_for_down (fun o sum h' => sum = 0%float /\ exists xc' g',
             h' = H ++ xc' :: g' /\ bw_state n uc yc xc' cc o));
      [lia | | |].
    { split; [done|]. by eexists _, _. }
    2: { intros sum h' (-> & xc3 & g3 & -> & [Hlen3 Hent3]).
         split; [done|]. exists xc3, g3. split; [done|]. split; [done|].
         intros r c Hr Hc Hcase. apply Hent3; try done. lia. }
    intros o sum1 h1 Ho (-> & xc2 & g2 & -> & Hst3).
    pose proof Hst3 as [Hlen2 _].
    assert (iadd o 1 = o + 1) as ->.
    { unfold iadd. apply to_int_small. lia. }
    rewrite (to_uint_small o) by lia.
    apply wp_bind.
    apply (wp_for_up (fun p acc h' =>
             h' = H ++ xc2 :: g2 /\
             acc = dsum (fun p => (entry n uc o p * entry n xc2 p cc)%float)
                        (Z.to_nat (p - (o + 1))) (o + 1) 0%float));
      [lia | | |].
    { split; [done|]. by replace (Z.to_nat (o + 1 - (o + 1))) with 0%nat by lia. }
    { intros p acc h1 Hp [-> ->].
      rewrite (to_uint_small p) by lia.
      apply wp_bind.
      apply (wp_Get_holds n n_max H _ u uc); [done | done | done | lia | lia |].
      apply wp_bind. unfold Get. rewrite Hxc.
      apply (wp_load_entry n n_max H [] xc2 g2); simpl; try done; try lia.
      apply wp_ret. split; [done|].
      replace (Z.to_nat (p + 1 - (o + 1)))
        with (S (Z.to_nat (p - (o + 1)))) by lia.
      rewrite dsum_snoc. do 3 f_equal; lia. }
    intros acc h1 [-> ->].
    apply wp_bind.
    apply (wp_Get_holds n n_max H _ y yc); [done | done | done | lia | lia |].
    apply wp_bind.
    apply (wp_Get_holds n n_max H _ u uc); [done | done | done | lia | lia |].
    apply wp_bind.
    apply (wp_store_entry n n_max H [] xc2 g2); simpl; try done; try lia.
    apply wp_ret. split; [done|]. eexists _, _. split; [done|].
    pose proof (bw_store n uc yc xc2 cc o ltac:(lia) ltac:(lia) Hst3) as Hst4.
    unfold backward_entry at 1, backward_sum in Hst4.
    destruct (Z.eqb_spec o (n - 1)); [lia|].
    replace (Z.to_nat (n - (o + 1))) with (Z.to_nat (n - 1 - o)) by lia.
    exact Hst4. }
  intros sum h' (_ & xc' & g' & -> & Hst). exists xc', g'.
  split; [done|]. by replace (n - 1 - n) with (-1) in Hst by lia.
Qed.

End SubstitutionRuns.

(** ** The two substitutions, complete *)

(** [yc] is the solution of [L*Y = I] that the forward substitution
    computes, in [float64] arithmetic. *)
Definition forward_solution (n : Z) (lc yc : list float) : Prop :=
  length yc = Z.to_nat (n * n) /\
  forall r c, 0 <= r < n -> 0 <= c < n ->
    entry n yc r c = forward_entry n lc yc r c.

(** [xc] is the solution of [U*X = Y] that the backward substitution
    computes, in [float64] arithmetic. *)
Definition backward_solution (n : Z) (uc yc xc : list float) : Prop :=
  length xc = Z.to_nat (n * n) /\
  forall r c, 0 <= r < n -> 0 <= c < n ->
    entry n xc r c = backward_entry n uc yc xc r c.

Lemma fw_state_done n lc yc : fw_state n lc yc n 0 -> forward_solution n lc yc.
Proof.
  intros [Hlen Hent]. split; [done|].
  intros r c Hr Hc. apply Hent; try done. lia.
Qed.

Lemma bw_state_done n uc yc xc :
  bw_state n uc yc xc (-1) (n - 1) -> backward_solution n uc yc xc.
Proof.
  intros [Hlen Hent]. split; [done|].
  intros r c Hr Hc. apply Hent; try done. lia.
Qed.

Lemma elements_whole (H : heap) d (post : heap) m :
  s_arr (M m) = length H -> s_off (M m) = 0 ->
  s_len (M m) = Z.of_nat (length d) ->
  elements (H ++ d :: post) m = d.
Proof.
  intros Ha Ho Hl. unfold elements.
  rewrite Ha, list_lookup_middle by done. rewrite Ho, Hl. simpl.
  rewrite Nat2Z.id. by rewrite firstn_all.
Qed.

(** [Inverse] of a square matrix: the factors, then the solution of
    [L*Y = I], then that of [U*X = Y]. *)
Lemma Inverse_solution h m :
  wf h m -> NumberOfColumns m = NumberOfRows m ->
  let n := NumberOfRows m in
  exists lc uc,
    Determinant m h = Val ((diagonal n uc, None), h ++ [lc; uc]) /\
    lu_state n (elements h m) lc uc n n n /\
    (PrimFloat.eqb (diagonal n uc) 0 = true ->
     Inverse m h
     = Val ((None, Some (error_code errorNotInversible)), h ++ [lc; uc])) /\
    (PrimFloat.eqb (diagonal n uc) 0 = false ->
     exists yc x ext,
       Inverse m h = Val ((Some x, None), h ++ ext) /\
       NumberOfRows x = n /\ NumberOfColumns x = n /\
       (length h <= s_arr (M x))%nat /\
       wf (h ++ ext) x /\
       forward_solution n lc yc /\
       backward_solution n uc yc (elements (h ++ ext) x)).
Proof.
  intros Hwf Hsq n.
  destruct (Determinant_square h m Hwf Hsq) as (lc & uc & Hdet & HdetLU & Hst).
  pose proof Hwf as [HR HC Hlen Hmax _ _ _].
  rewrite Hsq in *. fold n in Hdet, HdetLU, Hst, HR, HC, Hlen, Hmax.
  assert (n * n <= max_int) as Hnn by lia.
  assert (0 <= n) as Hn by lia.
  assert (0 <= n * n) by nia.
  pose proof (lu_len_l _ _ _ _ _ _ _ Hst) as Hll.
  pose proof (lu_len_u _ _ _ _ _ _ _ Hst) as Hlu.
  exists lc, uc. split; [done|]. split; [done|].
  split.
  { intros Hz. unfold Inverse. unfold bind at 1.
    rewrite HdetLU. cbv beta iota. by rewrite Hz. }
  intros Hnz. unfold Inverse. unfold bind at 1.
  rewrite HdetLU. cbv beta iota. rewrite Hnz.
  set (H0 := h ++ [lc; uc]).
  set (l := lu_lower h m). set (u := lu_upper h m).
  assert (holds H0 (M l) lc) as Hl.
  { apply (holds_new h lc [uc]); simpl; try done. rewrite Hsq. fold n. lia. }
  assert (holds H0 (M u) uc) as Hu.
  { unfold H0. change (h ++ [lc; uc]) with (h ++ [lc] ++ [uc]).
    rewrite app_assoc.
    apply (holds_new (h ++ [lc]) uc []); simpl; try done.
    - rewrite length_app. simpl. lia.
    - rewrite Hsq. fold n. lia. }
  rewrite Hsq. fold n.
  lazymatch goal with
  | |- exists yc x ext, ?c ?hh = _ /\ _ =>
      cut (wp c hh (fun r h' => exists yc x ext,
             r = (Some x, None) /\ h' = h ++ ext /\
             NumberOfRows x = n /\ NumberOfColumns x = n /\
             (length h <= s_arr (M x))%nat /\ wf (h ++ ext) x /\
             forward_solution n lc yc /\
             backward_solution n uc yc (elements (h ++ ext) x)))
  end.
  { intros (r & h' & Hrun & yc & x & ext & -> & -> & Hx).
    exists yc, x, ext. by rewrite Hrun. }
  apply wp_bind. eapply wp_val; [by apply NewIdentity_spec|].
  set (H1 := H0 ++ [identity_data n]).
  pose proof (length_identity_data n) as Hli.
  assert (holds H1 (M (identity_matrix H0 n)) (identity_data n)) as Hid.
  { apply (holds_new H0 _ []); simpl; try done. lia. }
  apply wp_bind. unfold NewMatrix. apply wp_bind.
  assert (umul n n = n * n) as ->.
  { unfold umul. apply to_uint_small. unfold max_int in *. lia. }
  apply wp_make; [lia|]. apply wp_ret.
  apply wp_bind. eapply wp_mono.
  { apply (forward_substitution_spec n Hn Hnn H1 l lc _ _ _ []); simpl;
      try done; try (by rewrite ?Hsq);
      [by apply holds_app | apply length_replicate]. }
  intros _ h2 (yc & g & -> & Hyc).
  pose proof Hyc as [Hly _].
  set (H2 := H1 ++ yc :: g).
  apply wp_bind. apply wp_bind.
  apply wp_make; [lia|]. apply wp_ret.
  apply wp_bind. eapply wp_mono.
  { apply (backward_substitution_spec n Hn Hnn H2 u uc
             (mkMatrix n n (mkSlice (length H1) 0 (n * n) (n * n))) yc
             _ _ []);
      simpl; try done; try (by rewrite ?Hsq);
      [by do 2 apply holds_app
      | apply holds_new; simpl; try done; lia
      | apply length_replicate]. }
  intros _ h3 (xc & g2 & -> & Hxc).
  pose proof Hxc as [Hlx _].
  apply wp_ret.
  set (x := mkMatrix n n (mkSlice (length H2) 0 (n * n) (n * n))).
  assert (H2 ++ xc :: g2
          = h ++ [lc; uc] ++ [identity_data n] ++ (yc :: g) ++ xc :: g2) as Heq.
  { unfold H2, H1, H0. by rewrite <- !app_assoc. }
  assert (wf (H2 ++ xc :: g2) x) as Hwfx.
  { split; simpl; try lia.
    eexists. split; [by apply list_lookup_middle|]. lia. }
  assert (elements (H2 ++ xc :: g2) x = xc) as Hel.
  { apply elements_whole; simpl; try done. lia. }
  rewrite Heq in Hwfx, Hel.
  exists yc, x, ([lc; uc] ++ [identity_data n] ++ (yc :: g) ++ xc :: g2).
  split; [done|]. split; [done|]. split; [done|]. split; [done|].
  split; [unfold x, H2, H1, H0; simpl; rewrite !length_app; lia|].
  split; [done|]. split; [by apply fw_state_done|].
  rewrite Hel. by apply bw_state_done.
Qed.

(** ** The errors of [Inverse] *)

(** C7: [Inverse] fails with the non-square error for every matrix with
    [rows != cols]; for every well-formed square matrix [Determinant]
    returns a value [det], and [Inverse] fails with the not-inversible
    error when [det == 0.0] and returns a matrix and a nil error when
    [det != 0.0], the comparison being that of [float64], without
    tolerance; with either error no matrix is returned. *)
Theorem Inverse_errors h m :
  (NumberOfColumns m <> NumberOfRows m ->
   Inverse m h = Val ((None, Some (error_code errorNonSquareMatrix)), h)) /\
  (wf h m -> NumberOfColumns m = NumberOfRows m ->
   exists det h1,
     Determinant m h = Val ((det, None), h1) /\
     (PrimFloat.eqb det 0 = true ->
      Inverse m h = Val ((None, Some (error_code errorNotInversible)), h1)) /\
     (PrimFloat.eqb det 0 = false ->
      exists x h2, Inverse m h = Val ((Some x, None), h2))).
Proof.
  split.
  - intros Hns. by apply non_square_errors.
  - intros Hwf Hsq.
    destruct (Inverse_solution h m Hwf Hsq) as (lc & uc & Hdet & _ & Hz & Hnz).
    exists (diagonal (NumberOfRows m) uc), (h ++ [lc; uc]).
    split; [done|]. split; [done|].
    intros Hne. destruct (Hnz Hne) as (yc & x & ext & Hrun & _).
    by exists x, (h ++ ext).
Qed.

Lemma Inverse_errors_witness :
  NumberOfColumns matrix_2x3 <> NumberOfRows matrix_2x3 /\
  Inverse matrix_2x3 store_2x3
  = Val ((None, Some (error_code errorNonSquareMatrix)), store_2x3) /\
  wf store_2x2 matrix_2x2 /\
  NumberOfColumns matrix_2x2 = NumberOfRows matrix_2x2 /\
  exists det h1,
    Determinant matrix_2x2 store_2x2 = Val ((det, None), h1).
Proof.
  destruct (Inverse_errors store_2x3 matrix_2x3) as [Hns _].
  destruct (Inverse_errors store_2x2 matrix_2x2) as [_ Hsq].
  split; [done|]. split; [by apply Hns|].
  split; [exact wf_matrix_2x2|]. split; [done|].
  destruct (Hsq wf_matrix_2x2 eq_refl) as (det & h1 & Hdet & _).
  by exists det, h1.
Defined.

(** ** The product of two square matrices *)



(** ** The product with the inverse *)









(** * The matrix interface on well-formed matrices *)

(** ** Entries of a rectangular buffer *)

Section Rectangle.

Variables R C : Z.
Hypothesis RC_max : R * C <= max_int.

Lemma rect_lookup d r c :
  length d = Z.to_nat (R * C) -> 0 <= r < R -> 0 <= c < C ->
  d !! Z.to_nat (r * C + c) = Some (entry C d r c).
Proof.
  intros Hlen Hr Hc. apply list_lookup_lookup_total_lt.
  pose proof (offset_bound r c R C Hr Hc). lia.
Qed.

Lemma rect_insert_eq d r c v :
  length d = Z.to_nat (R * C) -> 0 <= r < R -> 0 <= c < C ->
  entry C (<[Z.to_nat (r * C + c) := v]> d) r c = v.
Proof.
  intros Hlen Hr Hc. unfold entry. apply list_lookup_total_correct.
  apply list_lookup_insert_eq.
  pose proof (offset_bound r c R C Hr Hc). lia.
Qed.

Lemma rect_insert_ne d r c r' c' v :
  0 <= r < R -> 0 <= c < C -> 0 <= r' < R -> 0 <= c' < C ->
  r <> r' \/ c <> c' ->
  entry C (<[Z.to_nat (r' * C + c') := v]> d) r c = entry C d r c.
Proof.
  intros Hr Hc Hr' Hc' Hne. unfold entry.
  rewrite !list_lookup_total_alt, list_lookup_insert_ne; [done|].
  pose proof (offset_bound r c R C Hr Hc).
  pose proof (offset_bound r' c' R C Hr' Hc').
  intros Heq. apply Z2Nat.inj in Heq; [|lia..].
  apply offset_inj in Heq; [|lia..]. lia.
Qed.

Lemma rect_replicate r c :
  0 <= r < R -> 0 <= c < C ->
  entry C (replicate (Z.to_nat (R * C)) 0%float) r c = 0%float.
Proof.
  intros Hr Hc. unfold entry. apply lookup_total_replicate_2.
  pose proof (offset_bound r c R C Hr Hc). lia.
Qed.

Lemma wp_load_rect (h pre : heap) cur (post : heap) s r c
      (Q : float -> heap -> Prop) :
  s_arr s = (length h + length pre)%nat -> s_off s = 0 ->
  s_len s = R * C -> length cur = Z.to_nat (R * C) ->
  0 <= r < R -> 0 <= c < C ->
  Q (entry C cur r c) (h ++ pre ++ cur :: post) ->
  wp (load s (uadd (umul r C) c)) (h ++ pre ++ cur :: post) Q.
Proof.
  intros Ha Ho Hl Hlen Hr Hc HQ.
  rewrite (offset_uint r c R C) by done.
  pose proof (offset_bound r c R C Hr Hc).
  eapply wp_load_new; [done | done | lia | by apply rect_lookup | done].
Qed.

Lemma wp_store_rect (h pre : heap) cur (post : heap) s r c v
      (Q : unit -> heap -> Prop) :
  s_arr s = (length h + length pre)%nat -> s_off s = 0 ->
  s_len s = R * C -> length cur = Z.to_nat (R * C) ->
  0 <= r < R -> 0 <= c < C ->
  Q tt (h ++ pre ++ <[Z.to_nat (r * C + c) := v]> cur :: post) ->
  wp (store s (uadd (umul r C) c) v) (h ++ pre ++ cur :: post) Q.
Proof.
  intros Ha Ho Hl Hlen Hr Hc HQ.
  rewrite (offset_uint r c R C) by done.
  pose proof (offset_bound r c R C Hr Hc).
  eapply wp_store_new; [done | done | lia | lia | done].
Qed.

Lemma wp_load_wf (h ext : heap) m r c (Q : float -> heap -> Prop) :
  wf h m -> NumberOfRows m = R -> NumberOfColumns m = C ->
  0 <= r < R -> 0 <= c < C ->
  Q (entry C (elements h m) r c) (h ++ ext) ->
  wp (load (M m) (uadd (umul r C) c)) (h ++ ext) Q.
Proof.
  intros Hwf HR HC Hr Hc HQ.
  rewrite (offset_uint r c R C) by done.
  pose proof (offset_bound r c R C Hr Hc).
  eapply wp_load_old; [by eapply wf_arr_lt | | done].
  apply peek_elements; [done|]. rewrite HR, HC. lia.
Qed.

End Rectangle.

(** [Get] on a well-formed matrix, inside its shape. *)
Lemma Get_entry h m r c :
  wf h m -> 0 <= r < NumberOfRows m -> 0 <= c < NumberOfColumns m ->
  Get m r c h = Val (entry (NumberOfColumns m) (elements h m) r c, h).
Proof.
  intros Hwf Hr Hc. apply Get_peek; try done.
  apply peek_elements; [done|]. by apply offset_bound.
Qed.

(** A write inside the buffer of a well-formed matrix changes that element
    of that array, and nothing else. *)
Lemma store_elements h m i v :
  wf h m -> 0 <= i < NumberOfRows m * NumberOfColumns m ->
  exists h',
    store (M m) i v h = Val (tt, h') /\
    wf h' m /\ length h' = length h /\
    elements h' m = <[Z.to_nat i := v]> (elements h m) /\
    forall a, a <> s_arr (M m) -> h' !! a = h !! a.
Proof.
  intros Hwf Hi.
  pose proof (peek_elements h m i Hwf Hi) as Hpeek.
  pose proof Hwf as [HR HC Hlen Hmax Hoff Hcap (a & Ha & Hb)].
  unfold store. rewrite Hpeek. eexists. split; [done|].
  set (g := fun a0 : list float => <[Z.to_nat (s_off (M m) + i) := v]> a0).
  assert (alter g (s_arr (M m)) h !! s_arr (M m) = Some (g a)) as Hnew.
  { by rewrite list_lookup_alter_eq, Ha. }
  split; [|split; [|split]].
  - split; try done. exists (g a). split; [done|].
    unfold g. by rewrite length_insert.
  - apply length_alter.
  - unfold elements. rewrite Hnew, Ha. unfold g.
    rewrite drop_insert_ge by lia.
    rewrite take_insert_lt by lia.
    f_equal. lia.
  - intros a' Hne. by apply list_lookup_alter_ne.
Qed.

(** ** [NewMatrix], [NewIdentity], [Get] and [Set] *)

Lemma NewMatrix_run h rows cols :
  0 <= rows * cols <= max_int ->
  NewMatrix rows cols h
  = Val (mkMatrix rows cols (mkSlice (length h) 0 (rows * cols) (rows * cols)),
         h ++ [replicate (Z.to_nat (rows * cols)) 0%float]).
Proof.
  intros Hmax. unfold NewMatrix, bind, make.
  assert (umul rows cols = rows * cols) as ->.
  { unfold umul. apply to_uint_small. unfold max_int in *. lia. }
  destruct (Z.leb_spec 0 (rows * cols)), (Z.leb_spec (rows * cols) max_int);
    try lia. done.
Qed.

(** X1: when [rows*cols] fits an [int], [NewMatrix] adds one array of
    [rows*cols] zeros to the store and returns a well-formed matrix on it:
    [Get] returns [0.0] at every position. *)
Theorem NewMatrix_zero h rows cols :
  0 <= rows < 2 ^ 64 -> 0 <= cols < 2 ^ 64 -> rows * cols <= max_int ->
  exists m h',
    NewMatrix rows cols h = Val (m, h') /\
    h' = h ++ [replicate (Z.to_nat (rows * cols)) 0%float] /\
    NumberOfRows m = rows /\ NumberOfColumns m = cols /\
    s_arr (M m) = length h /\
    wf h' m /\
    forall r c, 0 <= r < rows -> 0 <= c < cols ->
      Get m r c h' = Val (0%float, h').
Proof.
  intros Hr Hc Hmax.
  assert (0 <= rows * cols) by nia.
  set (d := replicate (Z.to_nat (rows * cols)) 0%float).
  set (m := mkMatrix rows cols
              (mkSlice (length h) 0 (rows * cols) (rows * cols))).
  assert (NewMatrix rows cols h = Val (m, h ++ [d])) as Hrun
    by (apply NewMatrix_run; lia).
  assert (wf (h ++ [d]) m) as Hwf.
  { split; simpl; try lia.
    exists d. split; [by apply list_lookup_middle|].
    unfold d. rewrite length_replicate. lia. }
  exists m, (h ++ [d]). repeat (split; [done|]).
  intros r c Hrr Hcc. rewrite (Get_entry _ m) by done.
  do 2 f_equal. simpl.
  rewrite (elements_whole h d [] m); simpl; try done.
  - by apply rect_replicate.
  - unfold d. rewrite length_replicate. lia.
Qed.

Lemma NewMatrix_zero_witness :
  0 <= 2 < 2 ^ 64 /\ 0 <= 3 < 2 ^ 64 /\ 2 * 3 <= max_int /\
  exists m h', NewMatrix 2 3 [] = Val (m, h') /\ Get m 1 2 h' = Val (0%float, h').
Proof.
  assert (2 * 3 <= max_int) as Hmax by (unfold max_int; lia).
  split; [lia|]. split; [lia|]. split; [done|].
  destruct (NewMatrix_zero [] 2 3) as (m & h' & Hrun & _ & _ & _ & _ & _ & Hget);
    [lia | lia | done |].
  exists m, h'. split; [done|]. apply Hget; lia.
Defined.

(** X2: when [n*n] fits an [int], [NewIdentity n] returns a well-formed
    [n]-by-[n] matrix on a new array, at which [Get] returns [1.0] on the
    diagonal and [0.0] elsewhere. *)
Theorem NewIdentity_entries h n :
  0 <= n < 2 ^ 64 -> n * n <= max_int ->
  exists id h',
    NewIdentity n h = Val (id, h') /\
    NumberOfRows id = n /\ NumberOfColumns id = n /\
    wf h' id /\
    forall r c, 0 <= r < n -> 0 <= c < n ->
      Get id r c h' = Val (if r =? c then 1%float else 0%float, h').
Proof.
  intros Hn Hmax.
  destruct (wf_identity h n) as [Hwf Hel]; [lia | done |].
  exists (identity_matrix h n), (h ++ [identity_data n]).
  split; [apply NewIdentity_spec; lia|].
  split; [done|]. split; [done|]. split; [done|].
  intros r c Hr Hc. rewrite (Get_entry _ _ r c) by done.
  rewrite Hel. simpl. by rewrite entry_identity_data.
Qed.

Lemma NewIdentity_entries_witness :
  0 <= 3 < 2 ^ 64 /\ 3 * 3 <= max_int /\
  exists id h',
    NewIdentity 3 [] = Val (id, h') /\
    Get id 1 1 h' = Val (1%float, h') /\ Get id 1 2 h' = Val (0%float, h').
Proof.
  assert (3 * 3 <= max_int) as Hmax by (unfold max_int; lia).
  split; [lia|]. split; [done|].
  destruct (NewIdentity_entries [] 3) as (id & h' & Hrun & _ & _ & _ & Hget);
    [lia | done |].
  exists id, h'. split; [done|].
  split; [apply (Hget 1 1); lia | apply (Hget 1 2); lia].
Defined.

(** X3: on a well-formed matrix, [Set] inside the shape returns; afterwards
    [Get] at that position returns the value written, [Get] at any other
    position returns what it returned before, and no other array of the
    store has changed. *)
Theorem Set_then_Get h m r c v :
  wf h m -> 0 <= r < NumberOfRows m -> 0 <= c < NumberOfColumns m ->
  exists h',
    Set_ m r c v h = Val (tt, h') /\
    wf h' m /\
    Get m r c h' = Val (v, h') /\
    (forall r' c', 0 <= r' < NumberOfRows m -> 0 <= c' < NumberOfColumns m ->
       r' <> r \/ c' <> c ->
       exists x, Get m r' c' h = Val (x, h) /\ Get m r' c' h' = Val (x, h')) /\
    (forall a, a <> s_arr (M m) -> h' !! a = h !! a).
Proof.
  intros Hwf Hr Hc.
  pose proof Hwf as [HR HC Hlen Hmax _ _ _].
  set (R := NumberOfRows m) in *. set (C := NumberOfColumns m) in *.
  assert (R * C <= max_int) as HN by lia.
  pose proof (offset_bound r c R C Hr Hc) as Hb.
  destruct (store_elements h m (r * C + c) v Hwf Hb)
    as (h' & Hrun & Hwf' & _ & Hel & Hframe).
  exists h'. split.
  { unfold Set_. fold C. by rewrite (offset_uint r c R C). }
  split; [done|].
  pose proof (length_elements h m Hwf) as Hle. fold R C in Hle.
  split; [|split; [|done]].
  - rewrite (Get_entry h' m r c) by done. fold C. rewrite Hel.
    by rewrite (rect_insert_eq R C) by (done || lia).
  - intros r' c' Hr' Hc' Hne.
    exists (entry C (elements h m) r' c').
    rewrite (Get_entry h m r' c'), (Get_entry h' m r' c') by done.
    fold C. rewrite Hel.
    by rewrite (rect_insert_ne R C) by (done || lia).
Qed.

Lemma Set_then_Get_witness :
  wf store_2x3 matrix_2x3 /\
  0 <= 1 < NumberOfRows matrix_2x3 /\ 0 <= 2 < NumberOfColumns matrix_2x3 /\
  exists h', Set_ matrix_2x3 1 2 7%float store_2x3 = Val (tt, h') /\
             Get matrix_2x3 1 2 h' = Val (7%float, h').
Proof.
  split; [exact wf_matrix_2x3|]. split; [simpl; lia|]. split; [simpl; lia|].
  destruct (Set_then_Get store_2x3 matrix_2x3 1 2 7%float wf_matrix_2x3)
    as (h' & Hrun & _ & Hget & _); [simpl; lia | simpl; lia |].
  by exists h'.
Defined.

(** X4: [Get] checks the offset against the buffer, not the column against
    the number of columns: a column index that runs past the end of a row
    reads the row below. *)
Theorem Get_column_overflow h m r c :
  wf h m -> 0 <= r -> r + 1 < NumberOfRows m -> 0 <= c < NumberOfColumns m ->
  Get m r (NumberOfColumns m + c) h = Get m (r + 1) c h.
Proof.
  intros Hwf Hr Hr1 Hc.
  pose proof Hwf as [HR HC Hlen Hmax _ _ _].
  set (R := NumberOfRows m) in *. set (C := NumberOfColumns m) in *.
  assert (R * C <= max_int) as HN by lia.
  unfold Get. fold C.
  rewrite (offset_uint (r + 1) c R C) by (done || lia).
  assert (0 <= r * C + (C + c) < R * C) by nia.
  assert (0 <= r * C) by nia.
  unfold uadd, umul. unfold max_int in HN.
  rewrite (to_uint_small (r * C)) by lia.
  rewrite to_uint_small by lia.
  f_equal. lia.
Qed.

Lemma Get_column_overflow_witness :
  wf store_2x3 matrix_2x3 /\ 0 <= 0 /\ 0 + 1 < NumberOfRows matrix_2x3 /\
  0 <= 1 < NumberOfColumns matrix_2x3 /\
  Get matrix_2x3 0 (3 + 1) store_2x3 = Get matrix_2x3 (0 + 1) 1 store_2x3.
Proof.
  split; [exact wf_matrix_2x3|]. split; [lia|]. split; [simpl; lia|].
  split; [simpl; lia|].
  apply (Get_column_overflow store_2x3 matrix_2x3 0 1 wf_matrix_2x3);
    simpl; lia.
Defined.

(** X5: on a well-formed matrix, [Get] at a row that is not below
    [NumberOfRows] panics, provided the offset [row*cols + column] does not
    wrap around. *)
Theorem Get_row_out_of_range h m r c :
  wf h m -> NumberOfRows m <= r -> 0 <= c ->
  r * NumberOfColumns m + c < 2 ^ 64 ->
  Get m r c h = Panic.
Proof.
  intros Hwf Hr Hc Hsmall.
  pose proof Hwf as [HR HC Hlen Hmax _ _ _].
  set (R := NumberOfRows m) in *. set (C := NumberOfColumns m) in *.
  assert (R * C <= r * C) by nia.
  unfold Get, load, peek. fold C.
  unfold uadd, umul.
  rewrite (to_uint_small (r * C)) by nia.
  rewrite to_uint_small by nia.
  rewrite Hlen.
  destruct (Z.ltb_spec (r * C + c) (R * C)); [lia|].
  by rewrite andb_false_r.
Qed.

Lemma Get_row_out_of_range_witness :
  wf store_2x3 matrix_2x3 /\ NumberOfRows matrix_2x3 <= 2 /\ 0 <= 0 /\
  2 * NumberOfColumns matrix_2x3 + 0 < 2 ^ 64 /\
  Get matrix_2x3 2 0 store_2x3 = Panic.
Proof.
  split; [exact wf_matrix_2x3|]. split; [simpl; lia|]. split; [lia|].
  split; [simpl; lia|].
  apply (Get_row_out_of_range store_2x3 matrix_2x3 2 0 wf_matrix_2x3);
    simpl; lia.
Defined.

(** ** [GetRow], [GetColumn] and [SetRow] *)

Lemma wp_store_elements h m i v (Q : unit -> heap -> Prop) :
  wf h m -> 0 <= i < NumberOfRows m * NumberOfColumns m ->
  (forall h', wf h' m ->
     elements h' m = <[Z.to_nat i := v]> (elements h m) ->
     (forall a, a <> s_arr (M m) -> h' !! a = h !! a) -> Q tt h') ->
  wp (store (M m) i v) h Q.
Proof.
  intros Hwf Hi HQ.
  destruct (store_elements h m i v Hwf Hi)
    as (h' & Hrun & Hwf' & _ & Hel & Hframe).
  exists tt, h'. split; [done|]. by apply HQ.
Qed.

(** X6: on a well-formed matrix, [GetRow] of a row of the matrix returns a
    new slice of [NumberOfColumns] elements on a new array, the store being
    otherwise unchanged: its element [c] is what [Get] returns at row [r]
    and column [c]. *)
Theorem GetRow_copy h m r :
  wf h m -> 0 <= r < NumberOfRows m ->
  exists row d,
    GetRow m r h = Val (row, h ++ [d]) /\
    s_arr row = length h /\ s_off row = 0 /\
    s_len row = NumberOfColumns m /\
    forall c, 0 <= c < NumberOfColumns m ->
      exists x, Get m r c h = Val (x, h) /\
                load row c (h ++ [d]) = Val (x, h ++ [d]).
Proof.
  intros Hwf Hr.
  pose proof Hwf as [HR HC Hlen Hmax _ _ _].
  set (R := NumberOfRows m) in *. set (C := NumberOfColumns m) in *.
  assert (R * C <= max_int) as HN by lia.
  assert (C <= max_int) as HCmax by nia.
  set (row := mkSlice (length h) 0 C C).
  cut (wp (GetRow m r) h (fun s h' => s = row /\ exists d,
         h' = h ++ [d] /\ length d = Z.to_nat C /\
         forall c, 0 <= c < C ->
           d !! Z.to_nat c = Some (entry C (elements h m) r c))).
  { intros (s & h' & Hrun & -> & d & -> & Hd & Hent).
    exists row, d. repeat (split; [done|]).
    intros c Hc. exists (entry C (elements h m) r c).
    split; [by apply Get_entry|].
    unfold load.
    assert (peek (h ++ [d]) row c = d !! Z.to_nat c) as ->
      by (apply (peek_new h [] d []); simpl; lia).
    by rewrite Hent. }
  unfold GetRow. fold C. apply wp_bind. apply wp_make; [lia|]. fold row.
  apply wp_bind.
  apply (wp_for_up (fun i _ h' => exists d,
           h' = h ++ [d] /\ length d = Z.to_nat C /\
           forall c, 0 <= c < i ->
             d !! Z.to_nat c = Some (entry C (elements h m) r c)));
    [lia | | |].
  - eexists. split; [done|]. split; [apply length_replicate | intros; lia].
  - intros c _ h1 Hc (d & -> & Hd & Hent).
    apply wp_bind.
    apply (wp_load_wf R C HN h [d] m); try done.
    apply (wp_store_new h [] d []); simpl; try done; try lia.
    eexists. split; [done|]. split; [by rewrite length_insert|].
    intros c' Hc'. destruct (decide (c' = c)) as [->|].
    + apply list_lookup_insert_eq. lia.
    + rewrite list_lookup_insert_ne by lia. apply Hent. lia.
  - intros _ h1 (d & -> & Hd & Hent). apply wp_ret.
    split; [done|]. by exists d.
Qed.

Lemma GetRow_copy_witness :
  wf store_2x3 matrix_2x3 /\ 0 <= 1 < NumberOfRows matrix_2x3 /\
  exists row d, GetRow matrix_2x3 1 store_2x3 = Val (row, store_2x3 ++ [d]).
Proof.
  split; [exact wf_matrix_2x3|]. split; [simpl; lia|].
  destruct (GetRow_copy store_2x3 matrix_2x3 1 wf_matrix_2x3)
    as (row & d & Hrun & _); [simpl; lia|].
  by exists row, d.
Defined.

(** X7: on a well-formed matrix, [GetColumn] of a column of the matrix
    returns a new slice of [NumberOfRows] elements on a new array, the store
    being otherwise unchanged: its element [r] is what [Get] returns at row
    [r] and column [c]. *)
Theorem GetColumn_copy h m c :
  wf h m -> 0 <= c < NumberOfColumns m ->
  exists col d,
    GetColumn m c h = Val (col, h ++ [d]) /\
    s_arr col = length h /\ s_off col = 0 /\
    s_len col = NumberOfRows m /\
    forall r, 0 <= r < NumberOfRows m ->
      exists x, Get m r c h = Val (x, h) /\
                load col r (h ++ [d]) = Val (x, h ++ [d]).
Proof.
  intros Hwf Hc.
  pose proof Hwf as [HR HC Hlen Hmax _ _ _].
  set (R := NumberOfRows m) in *. set (C := NumberOfColumns m) in *.
  assert (R * C <= max_int) as HN by lia.
  assert (R <= max_int) as HRmax by nia.
  set (col := mkSlice (length h) 0 R R).
  cut (wp (GetColumn m c) h (fun s h' => s = col /\ exists d,
         h' = h ++ [d] /\ length d = Z.to_nat R /\
         forall r, 0 <= r < R ->
           d !! Z.to_nat r = Some (entry C (elements h m) r c))).
  { intros (s & h' & Hrun & -> & d & -> & Hd & Hent).
    exists col, d. repeat (split; [done|]).
    intros r Hr. exists (entry C (elements h m) r c).
    split; [by apply Get_entry|].
    unfold load.
    assert (peek (h ++ [d]) col r = d !! Z.to_nat r) as ->
      by (apply (peek_new h [] d []); simpl; lia).
    by rewrite Hent. }
  unfold GetColumn. fold R C. apply wp_bind. apply wp_make; [lia|]. fold col.
  apply wp_bind.
  apply (wp_for_up (fun i _ h' => exists d,
           h' = h ++ [d] /\ length d = Z.to_nat R /\
           forall r, 0 <= r < i ->
             d !! Z.to_nat r = Some (entry C (elements h m) r c)));
    [lia | | |].
  - eexists. split; [done|]. split; [apply length_replicate | intros; lia].
  - intros r _ h1 Hr (d & -> & Hd & Hent).
    apply wp_bind.
    apply (wp_load_wf R C HN h [d] m); try done.
    apply (wp_store_new h [] d []); simpl; try done; try lia.
    eexists. split; [done|]. split; [by rewrite length_insert|].
    intros r' Hr'. destruct (decide (r' = r)) as [->|].
    + apply list_lookup_insert_eq. lia.
    + rewrite list_lookup_insert_ne by lia. apply Hent. lia.
  - intros _ h1 (d & -> & Hd & Hent). apply wp_ret.
    split; [done|]. by exists d.
Qed.

Lemma GetColumn_copy_witness :
  wf store_2x3 matrix_2x3 /\ 0 <= 2 < NumberOfColumns matrix_2x3 /\
  exists col d,
    GetColumn matrix_2x3 2 store_2x3 = Val (col, store_2x3 ++ [d]).
Proof.
  split; [exact wf_matrix_2x3|]. split; [simpl; lia|].
  destruct (GetColumn_copy store_2x3 matrix_2x3 2 wf_matrix_2x3)
    as (col & d & Hrun & _); [simpl; lia|].
  by exists col, d.
Defined.

(** A slice of another array reads the same after a write to the matrix. *)
Lemma peek_frame (h h' : heap) s i :
  h' !! s_arr s = h !! s_arr s -> peek h' s i = peek h s i.
Proof. intros Heq. unfold peek. by rewrite Heq. Qed.

(** The loop of [SetRow], from any column on. *)
Lemma SetRow_loop h m r row (hi : Z) :
  wf h m -> 0 <= r < NumberOfRows m ->
  s_arr row <> s_arr (M m) ->
  0 <= hi <= NumberOfColumns m ->
  (forall c, 0 <= c < hi -> is_Some (peek h row c)) ->
  wp (for_up 0 hi (fun cols _ =>
        v <- load row cols ;;
        store (M m) (uadd (umul r (NumberOfColumns m)) cols) v) tt) h
     (fun _ h' =>
        wf h' m /\
        (forall a, a <> s_arr (M m) -> h' !! a = h !! a) /\
        forall r' c', 0 <= r' < NumberOfRows m ->
                      0 <= c' < NumberOfColumns m ->
          Some (entry (NumberOfColumns m) (elements h' m) r' c')
          = if (r' =? r) && (c' <? hi) then peek h row c'
            else Some (entry (NumberOfColumns m) (elements h m) r' c')).
Proof.
  intros Hwf Hr Hne Hhi Hrow.
  pose proof Hwf as [HR HC Hlen Hmax _ _ _].
  set (R := NumberOfRows m) in *. set (C := NumberOfColumns m) in *.
  assert (R * C <= max_int) as HN by lia.
  apply (wp_for_up (fun i _ h' =>
           wf h' m /\
           (forall a, a <> s_arr (M m) -> h' !! a = h !! a) /\
           forall r' c', 0 <= r' < R -> 0 <= c' < C ->
             Some (entry C (elements h' m) r' c')
             = if (r' =? r) && (c' <? i) then peek h row c'
               else Some (entry C (elements h m) r' c')));
    [lia | | | done].
  - split; [done|]. split; [done|].
    intros r' c' Hr' Hc'.
    destruct (Z.ltb_spec c' 0); [lia|]. by rewrite andb_false_r.
  - intros c _ h1 Hc (Hwf1 & Hframe1 & Hent1).
    destruct (Hrow c) as [x Hx]; [lia|].
    apply wp_bind.
    apply (wp_load _ _ _ x).
    { rewrite (peek_frame h h1) by (by apply Hframe1). done. }
    rewrite (offset_uint r c R C) by (done || lia).
    pose proof (offset_bound r c R C Hr ltac:(lia)) as Hb.
    apply wp_store_elements; [done | done |].
    intros h2 Hwf2 Hel2 Hframe2.
    split; [done|].
    split; [intros a Ha; rewrite Hframe2 by done; by apply Hframe1|].
    intros r' c' Hr' Hc'. fold C. rewrite Hel2.
    pose proof (length_elements h1 m Hwf1) as Hle. fold R C in Hle.
    destruct (decide (r' = r /\ c' = c)) as [[-> ->]|Hother].
    + rewrite (rect_insert_eq R C) by (done || lia).
      rewrite Z.eqb_refl. destruct (Z.ltb_spec c (c + 1)); [|lia]. done.
    + rewrite (rect_insert_ne R C) by (done || lia).
      rewrite Hent1 by done.
      destruct (Z.eqb_spec r' r), (Z.ltb_spec c' c), (Z.ltb_spec c' (c + 1));
        simpl; try done; lia.
Qed.

(** X8: on a well-formed matrix, [SetRow] with a slice of another array that
    holds at least [NumberOfColumns] elements returns the matrix itself;
    afterwards [Get] in row [r] returns the elements of the slice, [Get] in
    any other row returns what it returned before, and no other array of
    the store has changed. *)
Theorem SetRow_then_Get h m r row :
  wf h m -> 0 <= r < NumberOfRows m ->
  s_arr row <> s_arr (M m) ->
  (forall c, 0 <= c < NumberOfColumns m -> is_Some (peek h row c)) ->
  exists h',
    SetRow m r row h = Val (m, h') /\
    wf h' m /\
    (forall c, 0 <= c < NumberOfColumns m ->
       exists x, load row c h = Val (x, h) /\ Get m r c h' = Val (x, h')) /\
    (forall r' c, 0 <= r' < NumberOfRows m -> 0 <= c < NumberOfColumns m ->
       r' <> r ->
       exists x, Get m r' c h = Val (x, h) /\ Get m r' c h' = Val (x, h')) /\
    (forall a, a <> s_arr (M m) -> h' !! a = h !! a).
Proof.
  intros Hwf Hr Hne Hrow.
  pose proof (wf_cols h m Hwf) as HC.
  destruct (SetRow_loop h m r row (NumberOfColumns m) Hwf Hr Hne
              ltac:(lia) Hrow) as ([] & h' & Hrun & Hwf' & Hframe & Hent).
  exists h'. split.
  { unfold SetRow. unfold bind at 1. by rewrite Hrun. }
  split; [done|]. split; [|split; [|done]].
  - intros c Hc. destruct (Hrow c Hc) as [x Hx]. exists x.
    split; [unfold load; by rewrite Hx|].
    rewrite (Get_entry h' m r c) by done.
    specialize (Hent r c Hr Hc). rewrite Z.eqb_refl in Hent.
    destruct (Z.ltb_spec c (NumberOfColumns m)); [|lia]. simpl in Hent.
    rewrite Hx in Hent. by injection Hent as ->.
  - intros r' c Hr' Hc Hrr.
    exists (entry (NumberOfColumns m) (elements h m) r' c).
    rewrite (Get_entry h m r' c), (Get_entry h' m r' c) by done.
    split; [done|].
    specialize (Hent r' c Hr' Hc).
    destruct (Z.eqb_spec r' r); [done|]. simpl in Hent.
    by injection Hent as ->.
Qed.

Lemma SetRow_then_Get_witness :
  let h := store_2x3 ++ [[7; 8; 9]%float] in
  let row := mkSlice 1 0 3 3 in
  wf h matrix_2x3 /\ 0 <= 0 < NumberOfRows matrix_2x3 /\
  s_arr row <> s_arr (M matrix_2x3) /\
  (forall c, 0 <= c < NumberOfColumns matrix_2x3 -> is_Some (peek h row c)) /\
  exists h', SetRow matrix_2x3 0 row h = Val (matrix_2x3, h').
Proof.
  intros h row.
  assert (wf h matrix_2x3) as Hwf by (apply wf_app; exact wf_matrix_2x3).
  assert (forall c, 0 <= c < NumberOfColumns matrix_2x3 ->
                    is_Some (peek h row c)) as Hrow.
  { intros c Hc. simpl in Hc.
    assert (c = 0 \/ c = 1 \/ c = 2) as [->|[->| ->]] by lia;
      eexists; by vm_compute. }
  split; [done|]. split; [simpl; lia|]. split; [simpl; lia|].
  split; [done|].
  destruct (SetRow_then_Get h matrix_2x3 0 row Hwf) as (h' & Hrun & _);
    [simpl; lia | simpl; lia | done |].
  by exists h'.
Defined.

(** X9: on a well-formed matrix, [SetRow] with a slice of another array
    that holds fewer than [NumberOfColumns] elements panics: the loop reads
    the slice past its length. *)
Theorem SetRow_short_row h m r row :
  wf h m -> 0 <= r < NumberOfRows m ->
  s_arr row <> s_arr (M m) ->
  0 <= s_len row < NumberOfColumns m ->
  (forall c, 0 <= c < s_len row -> is_Some (peek h row c)) ->
  SetRow m r row h = Panic.
Proof.
  intros Hwf Hr Hne Hshort Hrow.
  pose proof Hwf as [HR HC Hlen Hmax _ _ _].
  unfold SetRow. unfold bind at 1.
  rewrite (for_up_panics (fun _ _ h' =>
             wf h' m /\ forall a, a <> s_arr (M m) -> h' !! a = h !! a)
             0 (s_len row) (NumberOfColumns m));
    [done | lia | done | |].
  - intros i [] h1 Hi (Hwf1 & Hframe1).
    destruct (Hrow i ltac:(lia)) as [x Hx].
    apply wp_bind. apply (wp_load _ _ _ x).
    { rewrite (peek_frame h h1) by (by apply Hframe1). done. }
    rewrite (offset_uint r i (NumberOfRows m) (NumberOfColumns m))
      by (done || lia).
    pose proof (offset_bound r i (NumberOfRows m) (NumberOfColumns m) Hr
                  ltac:(lia)) as Hb.
    apply wp_store_elements; [done | done |].
    intros h2 Hwf2 _ Hframe2. split; [done|].
    intros a Ha. rewrite Hframe2 by done. by apply Hframe1.
  - intros [] h1 _. unfold bind, load, peek.
    destruct (Z.ltb_spec (s_len row) (s_len row)); [lia|].
    by rewrite andb_false_r.
Qed.

Lemma SetRow_short_row_witness :
  let h := store_2x3 ++ [[7; 8]%float] in
  let row := mkSlice 1 0 2 2 in
  wf h matrix_2x3 /\ 0 <= 0 < NumberOfRows matrix_2x3 /\
  s_arr row <> s_arr (M matrix_2x3) /\
  0 <= s_len row < NumberOfColumns matrix_2x3 /\
  (forall c, 0 <= c < s_len row -> is_Some (peek h row c)) /\
  SetRow matrix_2x3 0 row h = Panic.
Proof.
  intros h row.
  assert (wf h matrix_2x3) as Hwf by (apply wf_app; exact wf_matrix_2x3).
  assert (forall c, 0 <= c < s_len row -> is_Some (peek h row c)) as Hrow.
  { intros c Hc. simpl in Hc.
    assert (c = 0 \/ c = 1) as [->| ->] by lia; eexists; by vm_compute. }
  split; [done|]. split; [simpl; lia|]. split; [simpl; lia|].
  split; [simpl; lia|]. split; [done|].
  apply (SetRow_short_row h matrix_2x3 0 row Hwf);
    [simpl; lia | simpl; lia | simpl; lia | done].
Defined.

(** ** [SubMatrix] *)

(** The two bounds of the window of [SubMatrix], without wrap-around. *)
Lemma SubMatrix_bounds C row col nR nC N :
  0 <= C -> 0 <= row -> 0 <= col -> 0 <= nR -> 0 <= nC ->
  row * C + col + nR * C + nC <= N -> N < 2 ^ 64 ->
  uadd (umul row C) col = row * C + col /\
  uadd (uadd (uadd (umul row C) col) (umul nR C)) nC
  = row * C + col + nR * C + nC.
Proof.
  intros HC Hrow Hcol HnR HnC Hhi HN.
  assert (0 <= row * C) by nia. assert (0 <= nR * C) by nia.
  unfold uadd, umul.
  rewrite (to_uint_small (row * C)) by lia.
  rewrite (to_uint_small (nR * C)) by lia.
  rewrite (to_uint_small (row * C + col)) by lia.
  rewrite (to_uint_small (row * C + col + nR * C)) by lia.
  rewrite to_uint_small by lia. done.
Qed.

(** The run of [SubMatrix] when the window lies inside the buffer. *)
Lemma SubMatrix_run h m row col nR nC :
  wf h m -> 0 <= row -> 0 <= col -> 0 <= nR -> 0 <= nC ->
  nC <= NumberOfColumns m ->
  row * NumberOfColumns m + col + nR * NumberOfColumns m + nC
  <= NumberOfRows m * NumberOfColumns m ->
  SubMatrix m row col nR nC h
  = Val (mkMatrix nR nC
           (mkSlice (s_arr (M m))
              (s_off (M m) + (row * NumberOfColumns m + col))
              (nR * NumberOfColumns m + nC)
              (s_cap (M m) - (row * NumberOfColumns m + col))),
         h ++ [replicate (Z.to_nat (nR * nC)) 0%float]).
Proof.
  intros Hwf Hrow Hcol HnR HnC HnCC Hhi.
  pose proof Hwf as [HR HC Hlen Hmax _ Hcap _].
  set (R := NumberOfRows m) in *. set (C := NumberOfColumns m) in *.
  assert (0 <= row * C) by nia. assert (0 <= nR * C) by nia.
  assert (0 <= nR * nC <= nR * C) by nia.
  unfold SubMatrix. unfold bind at 1.
  rewrite NewMatrix_run by lia. fold C.
  destruct (SubMatrix_bounds C row col nR nC (R * C)) as [-> ->];
    [lia.. | unfold max_int in *; lia |].
  unfold bind, reslice.
  destruct (Z.leb_spec 0 (row * C + col)); [|lia].
  destruct (Z.leb_spec (row * C + col) (row * C + col + nR * C + nC)); [|lia].
  destruct (Z.leb_spec (row * C + col + nR * C + nC) (s_cap (M m))); [|lia].
  simpl. unfold ret. do 4 f_equal. lia.
Qed.

(** X10: when the window [row*cols+col .. row*cols+col+numberRows*cols+
    numberCols] lies inside the buffer of a well-formed matrix, [SubMatrix]
    returns a matrix on the array of the receiver (the array that
    [NewMatrix] allocated for it is dropped), and [Get] at [(i, j)] of the
    result reads the element of the receiver at the flat offset
    [row*cols + col + i*numberCols + j]: the result is a run of consecutive
    elements, not a block of rows and columns. *)
Theorem SubMatrix_window h m row col nR nC :
  wf h m -> 0 <= row -> 0 <= col -> 0 <= nR -> 0 <= nC ->
  nC <= NumberOfColumns m ->
  row * NumberOfColumns m + col + nR * NumberOfColumns m + nC
  <= NumberOfRows m * NumberOfColumns m ->
  exists sub h',
    SubMatrix m row col nR nC h = Val (sub, h') /\
    h' = h ++ [replicate (Z.to_nat (nR * nC)) 0%float] /\
    NumberOfRows sub = nR /\ NumberOfColumns sub = nC /\
    s_arr (M sub) = s_arr (M m) /\
    forall i j, 0 <= i < nR -> 0 <= j < nC ->
      Get sub i j h'
      = Val (elements h m
               !!! Z.to_nat (row * NumberOfColumns m + col + i * nC + j), h').
Proof.
  intros Hwf Hrow Hcol HnR HnC HnCC Hhi.
  eexists _, _. split; [by apply SubMatrix_run|].
  repeat (split; [done|]).
  intros i j Hi Hj.
  pose proof Hwf as [HR HC Hlen Hmax Hoff Hcap (a & Ha & Hb)].
  set (R := NumberOfRows m) in *. set (C := NumberOfColumns m) in *.
  assert (0 <= row * C) by nia. assert (0 <= nR * C) by nia.
  assert (0 <= nR * nC <= nR * C) by nia.
  pose proof (offset_bound i j nR nC Hi Hj) as Hidx.
  set (lo := row * C + col) in *.
  assert (0 <= lo + (i * nC + j) < R * C) as Hin by lia.
  pose proof (peek_elements h m _ Hwf Hin) as Hpeek.
  unfold Get, load. simpl NumberOfColumns. simpl M.
  rewrite (offset_uint i j nR nC) by (done || lia).
  replace (lo + i * nC + j) with (lo + (i * nC + j)) by lia.
  lazymatch goal with
  | |- match peek ?h1 ?s ?idx with _ => _ end = _ =>
      assert (peek h1 s idx = peek h (M m) (lo + (i * nC + j))) as ->
  end.
  { unfold peek. simpl.
    rewrite lookup_app_l by (by eapply lookup_lt_Some). rewrite Ha.
    destruct (Z.leb_spec 0 (i * nC + j)); [|lia].
    destruct (Z.ltb_spec (i * nC + j) (nR * C + nC)); [|lia].
    destruct (Z.leb_spec 0 (lo + (i * nC + j))); [|lia].
    destruct (Z.ltb_spec (lo + (i * nC + j)) (s_len (M m))); [|lia].
    simpl. f_equal. lia. }
  by rewrite Hpeek.
Qed.

Lemma SubMatrix_window_witness :
  wf store_2x3 matrix_2x3 /\ 2 <= NumberOfColumns matrix_2x3 /\
  0 * NumberOfColumns matrix_2x3 + 0 + 1 * NumberOfColumns matrix_2x3 + 2
  <= NumberOfRows matrix_2x3 * NumberOfColumns matrix_2x3 /\
  exists sub h',
    SubMatrix matrix_2x3 0 0 1 2 store_2x3 = Val (sub, h') /\
    Get sub 0 1 h' = Val (2%float, h').
Proof.
  split; [exact wf_matrix_2x3|]. split; [simpl; lia|]. split; [simpl; lia|].
  destruct (SubMatrix_window store_2x3 matrix_2x3 0 0 1 2 wf_matrix_2x3)
    as (sub & h' & Hrun & _ & _ & _ & _ & Hget);
    [lia | lia | lia | lia | simpl; lia.. |].
  exists sub, h'. split; [done|]. apply (Hget 0 1); lia.
Defined.

(** X11: the matrix that [SubMatrix] returns shares the buffer of the
    receiver: after [Set] at [(0, 0)] of the result, [Get] at [(row, col)]
    of the receiver returns the value written. *)
Theorem SubMatrix_aliases h m row col nR nC v :
  wf h m -> 0 <= row -> 0 <= col -> 1 <= nR -> 1 <= nC ->
  nC <= NumberOfColumns m ->
  row * NumberOfColumns m + col + nR * NumberOfColumns m + nC
  <= NumberOfRows m * NumberOfColumns m ->
  exists sub h1 h2,
    SubMatrix m row col nR nC h = Val (sub, h1) /\
    Set_ sub 0 0 v h1 = Val (tt, h2) /\
    Get m row col h2 = Val (v, h2).
Proof.
  intros Hwf Hrow Hcol HnR HnC HnCC Hhi.
  pose proof Hwf as [HR HC Hlen Hmax Hoff Hcap (a & Ha & Hb)].
  set (R := NumberOfRows m) in *. set (C := NumberOfColumns m) in *.
  assert (0 <= row * C) by nia. assert (0 <= nR * C) by nia.
  set (lo := row * C + col) in *.
  set (h1 := h ++ [replicate (Z.to_nat (nR * nC)) 0%float]).
  assert (h1 !! s_arr (M m) = Some a) as Ha1.
  { unfold h1. rewrite lookup_app_l by (by eapply lookup_lt_Some). done. }
  destruct (lookup_lt_is_Some_2 a (Z.to_nat (s_off (M m) + lo)))
    as [x Hx]; [lia|].
  eexists _, h1, _. split; [apply SubMatrix_run; (done || lia)|].
  fold C lo.
  split.
  - unfold Set_, store, peek. simpl.
    change (uadd (umul 0 nC) 0) with 0.
    destruct (Z.ltb_spec 0 (nR * C + nC)); [|lia]. simpl.
    rewrite Ha1, Z.add_0_r, Hx. done.
  - unfold Get, load, peek. fold C.
    destruct (SubMatrix_bounds C row col nR nC (R * C)) as [-> _];
      [lia.. | unfold max_int in *; lia |].
    fold lo.
    destruct (Z.leb_spec 0 lo); [|lia].
    destruct (Z.ltb_spec lo (s_len (M m))); [|lia]. simpl.
    rewrite list_lookup_alter_eq, Ha1. simpl.
    rewrite list_lookup_insert_eq by (by eapply lookup_lt_Some). done.
Qed.

Lemma SubMatrix_aliases_witness :
  wf store_2x3 matrix_2x3 /\
  0 * NumberOfColumns matrix_2x3 + 1 + 1 * NumberOfColumns matrix_2x3 + 2
  <= NumberOfRows matrix_2x3 * NumberOfColumns matrix_2x3 /\
  exists sub h1 h2,
    SubMatrix matrix_2x3 0 1 1 2 store_2x3 = Val (sub, h1) /\
    Set_ sub 0 0 9%float h1 = Val (tt, h2) /\
    Get matrix_2x3 0 1 h2 = Val (9%float, h2).
Proof.
  split; [exact wf_matrix_2x3|]. split; [simpl; lia|].
  apply (SubMatrix_aliases store_2x3 matrix_2x3 0 1 1 2 9%float wf_matrix_2x3);
    simpl; lia.
Defined.

(** X12: on a well-formed matrix whose buffer has no spare capacity (as
    [NewMatrix] makes it), [SubMatrix] panics for every block, of at least
    one column and inside the columns of the matrix, that ends with the
    last row: the upper bound of the window is then past the buffer. *)
Theorem SubMatrix_through_last_row h m row col nR nC :
  wf h m -> s_cap (M m) = s_len (M m) ->
  0 <= row -> 0 <= col -> 0 <= nR -> 1 <= nC ->
  col + nC <= NumberOfColumns m ->
  row + nR = NumberOfRows m ->
  SubMatrix m row col nR nC h = Panic.
Proof.
  intros Hwf Hfull Hrow Hcol HnR HnC Hcols Hrows.
  pose proof Hwf as [HR HC Hlen Hmax _ Hcap _].
  set (R := NumberOfRows m) in *. set (C := NumberOfColumns m) in *.
  assert (0 <= row * C) by nia. assert (0 <= nR * C) by nia.
  assert (row * C + nR * C = R * C) by nia.
  assert (0 <= nR * nC <= nR * C) by nia.
  assert (R * C + C < 2 ^ 64).
  { unfold max_int in *. destruct (decide (R = 0)) as [->|]; [lia | nia]. }
  unfold SubMatrix. unfold bind at 1.
  rewrite NewMatrix_run by lia. fold C.
  destruct (SubMatrix_bounds C row col nR nC (R * C + C)) as [-> ->];
    [lia.. |].
  unfold bind, reslice.
  destruct (Z.leb_spec (row * C + col + nR * C + nC) (s_cap (M m))); [lia|].
  by rewrite andb_false_r.
Qed.

Lemma SubMatrix_through_last_row_witness :
  wf store_2x3 matrix_2x3 /\
  s_cap (M matrix_2x3) = s_len (M matrix_2x3) /\
  1 + 2 <= NumberOfColumns matrix_2x3 /\ 0 + 2 = NumberOfRows matrix_2x3 /\
  SubMatrix matrix_2x3 0 1 2 2 store_2x3 = Panic.
Proof.
  split; [exact wf_matrix_2x3|]. split; [done|]. split; [simpl; lia|].
  split; [done|].
  apply (SubMatrix_through_last_row store_2x3 matrix_2x3 0 1 2 2
           wf_matrix_2x3); simpl; lia.
Defined.

(** * Arithmetic on well-formed matrices *)

(** ** Shapes that do not match *)

(** X13: [Multiply] of matrices whose inner dimensions differ, and [Add] and
    [Subtract] of matrices of different shapes, return no matrix and an
    error, and leave the store as it was; [Subtract] reports the error of
    [Add].  The messages are those of [Error] for the two codes. *)
Theorem shape_errors h a b :
  (NumberOfColumns a <> NumberOfRows b ->
   exists e,
     Multiply a b h = Val ((None, Some e), h) /\
     Error e
     = "Number of columns of first do not match the number of rows of second matrix"%string) /\
  (NumberOfColumns b <> NumberOfColumns a \/
   NumberOfRows b <> NumberOfRows a ->
   exists e,
     Add a b h = Val ((None, Some e), h) /\
     Subtract a b h = Val ((None, Some e), h) /\
     Error e = "Can only add matrices of same size"%string).
Proof.
  split.
  - intros Hne. exists (error_code errorCannotMultiply). split; [|done].
    unfold Multiply. by destruct (Z.eqb_spec (NumberOfColumns a) (NumberOfRows b)).
  - intros Hne. exists (error_code errorCannotAdd).
    assert (negb (NumberOfColumns b =? NumberOfColumns a)
            || negb (NumberOfRows b =? NumberOfRows a) = true) as Hcond.
    { destruct (Z.eqb_spec (NumberOfColumns b) (NumberOfColumns a)),
        (Z.eqb_spec (NumberOfRows b) (NumberOfRows a)); simpl; try done.
      by destruct Hne. }
    unfold Add, Subtract. by rewrite Hcond.
Qed.

(** ** [Multiply] *)

(** X14: for well-formed matrices [a], of [R] rows and [K] columns, and [b],
    of [K] rows and [C] columns, with [R*C] elements fitting an [int],
    [Multiply] returns without error a new [R]-by-[C] matrix on a new
    array, the store being otherwise unchanged; its entry [(r, c)] is the
    sum of the [a[r][k] * b[k][c]], accumulated from [0.0] in increasing
    [k], each operation rounded. *)
Theorem Multiply_product h a b :
  wf h a -> wf h b -> NumberOfColumns a = NumberOfRows b ->
  NumberOfRows a * NumberOfColumns b <= max_int ->
  exists p d,
    Multiply a b h = Val ((Some p, None), h ++ [d]) /\
    NumberOfRows p = NumberOfRows a /\
    NumberOfColumns p = NumberOfColumns b /\
    wf (h ++ [d]) p /\ elements (h ++ [d]) p = d /\
    forall r c, 0 <= r < NumberOfRows a -> 0 <= c < NumberOfColumns b ->
      entry (NumberOfColumns b) d r c
      = dsum (fun k => (entry (NumberOfColumns a) (elements h a) r k
                        * entry (NumberOfColumns b) (elements h b) k c)%float)
             (Z.to_nat (NumberOfColumns a)) 0 0%float.
Proof.
  intros Hwa Hwb Hin HRC.
  pose proof Hwa as [HaR HaC Halen Hamax _ _ _].
  pose proof Hwb as [HbR HbC Hblen Hbmax _ _ _].
  set (R := NumberOfRows a) in *. set (K := NumberOfColumns a) in *.
  set (C := NumberOfColumns b) in *.
  assert (NumberOfRows b = K) as HbK by done.
  rewrite HbK in *.
  assert (R * K <= max_int) as HRK by lia.
  assert (K * C <= max_int) as HKC by lia.
  assert (0 <= R * C) by nia.
  set (ea := elements h a). set (eb := elements h b).
  set (f := fun (r c k : Z) => (entry K ea r k * entry C eb k c)%float).
  set (p := mkMatrix R C (mkSlice (length h) 0 (R * C) (R * C))).
  set (J := fun (row col : Z) (k : Z) (h' : heap) => exists d,
         h' = h ++ [d] /\ length d = Z.to_nat (R * C) /\
         (forall r c, 0 <= r < R -> 0 <= c < C ->
            r < row \/ (r = row /\ c < col) ->
            entry C d r c = dsum (f r c) (Z.to_nat K) 0 0%float) /\
         (0 <= row < R -> 0 <= col < C ->
          entry C d row col = dsum (f row col) (Z.to_nat k) 0 0%float) /\
         (forall r c, 0 <= r < R -> 0 <= c < C ->
            row < r \/ (r = row /\ col < c) ->
            entry C d r c = 0%float)).
  cut (wp (Multiply a b) h (fun r h' =>
         r = (Some p, None) /\ J R 0 0 h')).
  { intros (r & h' & Hrun & -> & d & -> & Hd & Hent & _).
    exists p, d. split; [done|]. split; [done|]. split; [done|].
    split; [|split].
    - split; simpl; try lia.
      exists d. split; [by apply list_lookup_middle | lia].
    - apply (elements_whole h d []); simpl; try done. lia.
    - intros r c Hr Hc. apply Hent; [done | done | lia]. }
  unfold Multiply. fold R K C. rewrite HbK, Z.eqb_refl.
  change (negb true) with false. cbv iota.
  apply wp_bind. eapply wp_val; [apply NewMatrix_run; lia|]. fold p.
  simpl NumberOfColumns. simpl M.
  apply wp_bind.
  apply (wp_for_up (fun row _ h' => J row 0 0 h')); [lia | | |].
  { eexists. split; [done|]. split; [apply length_replicate|].
    split; [intros; lia|].
    split; intros; by apply rect_replicate. }
  { intros row _ h1 Hrow HI.
    apply (wp_for_up (fun col _ h' => J row col 0 h')); [lia | done | |].
    - intros col _ h2 Hcol HK.
      apply (wp_for_up (fun k _ h' => J row col k h')); [lia | done | |].
      + intros k _ h3 Hk (d & -> & Hd & Hdone & Hcur & Hzero).
        apply wp_bind.
        apply (wp_load_rect R C HRC h [] d []); simpl; try done; try lia.
        apply wp_bind.
        apply (wp_load_wf R K HRK h [d] a); try done.
        apply wp_bind.
        apply (wp_load_wf K C HKC h [d] b); try done.
        apply (wp_store_rect R C HRC h [] d []); simpl; try done; try lia.
        eexists. split; [done|]. split; [by rewrite length_insert|].
        split; [|split].
        * intros r c Hr Hc Hcase.
          rewrite (rect_insert_ne R C) by (done || lia). by apply Hdone.
        * intros _ _. rewrite (rect_insert_eq R C) by (done || lia).
          replace (Z.to_nat (k + 1)) with (S (Z.to_nat k)) by lia.
          rewrite dsum_snoc, Hcur by lia. unfold f.
          do 3 f_equal; lia.
        * intros r c Hr Hc Hcase.
          rewrite (rect_insert_ne R C) by (done || lia). by apply Hzero.
      + intros _ h3 (d & -> & Hd & Hdone & Hcur & Hzero).
        exists d. split; [done|]. split; [done|]. split; [|split].
        * intros r c Hr Hc Hcase.
          destruct (decide (r = row /\ c = col)) as [[-> ->]|Hother].
          -- by apply Hcur.
          -- apply Hdone; lia.
        * intros Hr0 Hc'. apply Hzero; lia.
        * intros r c Hr Hc Hcase. apply Hzero; lia.
    - intros _ h2 (d & -> & Hd & Hdone & Hcur & Hzero).
      exists d. split; [done|]. split; [done|]. split; [|split].
      + intros r c Hr Hc Hcase. apply Hdone; lia.
      + intros Hr' Hc0. apply Hzero; lia.
      + intros r c Hr Hc Hcase. apply Hzero; lia. }
  intros _ h1 HI. by apply wp_ret.
Qed.

Lemma Multiply_product_witness :
  wf store_2x3 matrix_2x3 /\
  wf store_2x3 (mkMatrix 3 2 (mkSlice 0 0 6 6)) /\
  exists p d,
    Multiply matrix_2x3 (mkMatrix 3 2 (mkSlice 0 0 6 6)) store_2x3
    = Val ((Some p, None), store_2x3 ++ [d]).
Proof.
  assert (wf store_2x3 (mkMatrix 3 2 (mkSlice 0 0 6 6))) as Hwb.
  { split; simpl; try (unfold max_int; lia).
    eexists. split; [reflexivity|]. simpl. lia. }
  split; [exact wf_matrix_2x3|]. split; [done|].
  destruct (Multiply_product store_2x3 matrix_2x3 _ wf_matrix_2x3 Hwb)
    as (p & d & Hrun & _); [done | simpl; unfold max_int; lia |].
  by exists p, d.
Defined.

(** ** [Add], [ScalarMultiply] and [Subtract] *)

(** X15: for well-formed square matrices of the same size, [Add] returns
    without error a new matrix of that size on a new array, and [Get] on
    the result returns the rounded sum of what [Get] returns on the two
    operands. *)
Theorem Add_square_elementwise h a b :
  wf h a -> wf h b ->
  NumberOfColumns a = NumberOfRows a ->
  NumberOfRows b = NumberOfRows a -> NumberOfColumns b = NumberOfRows a ->
  exists s d,
    Add a b h = Val ((Some s, None), h ++ [d]) /\
    NumberOfRows s = NumberOfRows a /\
    NumberOfColumns s = NumberOfRows a /\
    wf (h ++ [d]) s /\
    forall r c, 0 <= r < NumberOfRows a -> 0 <= c < NumberOfRows a ->
      exists x y,
        Get a r c h = Val (x, h) /\ Get b r c h = Val (y, h) /\
        Get s r c (h ++ [d]) = Val ((x + y)%float, h ++ [d]).
Proof.
  intros Hwa Hwb Hsq Hbr Hbc.
  destruct (Add_square h a b Hwa Hwb Hsq Hbr Hbc) as (d & Hrun & Hd & Hent).
  pose proof Hwa as [HR HC Hlen Hmax _ _ _].
  set (n := NumberOfRows a) in *. rewrite Hsq in *.
  assert (0 <= n * n) by nia.
  set (s := mkMatrix n n (mkSlice (length h) 0 (n * n) (n * n))) in *.
  assert (wf (h ++ [d]) s) as Hws.
  { split; simpl; try lia.
    exists d. split; [by apply list_lookup_middle | lia]. }
  assert (elements (h ++ [d]) s = d) as Hel.
  { apply (elements_whole h d []); simpl; try done. lia. }
  exists s, d. repeat (split; [done|]).
  intros r c Hr Hc.
  exists (entry n (elements h a) r c), (entry n (elements h b) r c).
  split; [|split].
  - rewrite (Get_entry h a r c) by (done || lia). by rewrite Hsq.
  - rewrite (Get_entry h b r c) by (done || lia). by rewrite Hbc.
  - rewrite (Get_entry _ s r c) by done. simpl. rewrite Hel.
    by rewrite Hent.
Qed.

Lemma Add_square_elementwise_witness :
  wf store_2x2 matrix_2x2 /\
  NumberOfColumns matrix_2x2 = NumberOfRows matrix_2x2 /\
  exists s d,
    Add matrix_2x2 matrix_2x2 store_2x2 = Val ((Some s, None), store_2x2 ++ [d]).
Proof.
  split; [exact wf_matrix_2x2|]. split; [done|].
  destruct (Add_square_elementwise store_2x2 matrix_2x2 matrix_2x2
              wf_matrix_2x2 wf_matrix_2x2 eq_refl eq_refl eq_refl)
    as (s & d & Hrun & _).
  by exists s, d.
Defined.

(** X16: on well-formed matrices of the same shape with more rows than
    columns, and at least one column, [Add] panics: the result is allocated
    with the two dimensions exchanged and written with the row stride of
    the exchanged shape, so row [cols] of the operands starts where the
    result ends. *)
Theorem Add_tall h a b :
  wf h a -> wf h b ->
  NumberOfRows b = NumberOfRows a -> NumberOfColumns b = NumberOfColumns a ->
  1 <= NumberOfColumns a < NumberOfRows a ->
  Add a b h = Panic.
Proof.
  intros Hwa Hwb Hbr Hbc Htall.
  pose proof Hwa as [HR HC Hlen Hmax _ _ _].
  set (R := NumberOfRows a) in *. set (C := NumberOfColumns a) in *.
  assert (0 <= C * R <= max_int) as HN by (split; [nia | lia]).
  assert (R * C <= max_int) as HN' by lia.
  unfold Add. rewrite Hbr, Hbc, !Z.eqb_refl. fold R C.
  change (negb true || negb true) with false. cbv iota.
  unfold bind at 1. rewrite NewMatrix_run by done.
  unfold bind at 1. simpl NumberOfColumns. simpl M.
  set (res := mkSlice (length h) 0 (C * R) (C * R)).
  rewrite (for_up_panics (fun _ _ h' => exists d,
             h' = h ++ [d] /\ length d = Z.to_nat (C * R)) 0 C R);
    [done | lia | | |].
  - eexists. split; [done|]. apply length_replicate.
  - intros row _ h1 Hrow HI.
    apply (wp_for_up (fun _ _ h' => exists d,
             h' = h ++ [d] /\ length d = Z.to_nat (C * R)));
      [lia | done | | done].
    intros col _ h2 Hcol (cur & -> & Hlen').
    apply wp_bind.
    apply (wp_load_wf R C HN' h [cur] a); try done; try lia.
    apply wp_bind.
    apply (wp_load_wf R C HN' h [cur] b); try done; try lia.
    assert (0 <= row * R + col < C * R) as Hidx by nia.
    assert (uadd (umul row R) col = row * R + col) as ->.
    { unfold uadd, umul. unfold max_int in HN.
      assert (0 <= row * R) by nia.
      rewrite (to_uint_small (row * R)) by lia.
      apply to_uint_small. lia. }
    apply (wp_store_new h [] cur []); simpl; [lia | done | lia | lia |].
    eexists. split; [done|]. by rewrite length_insert.
  - intros _ h1 (d & -> & Hd).
    apply for_up_first_panics; [lia|].
    destruct (wp_load_wf R C HN' h [d] a C 0
                (fun x h' => h' = h ++ [d])) as (x & ? & Hx & ->);
      try done; try lia.
    destruct (wp_load_wf R C HN' h [d] b C 0
                (fun x h' => h' = h ++ [d])) as (y & ? & Hy & ->);
      try done; try lia.
    unfold bind. rewrite Hx, Hy.
    unfold store, peek. simpl.
    assert (uadd (umul C R) 0 = C * R) as ->.
    { unfold uadd, umul. unfold max_int in HN.
      rewrite (to_uint_small (C * R)) by lia.
      rewrite Z.add_0_r. apply to_uint_small. lia. }
    destruct (Z.ltb_spec (C * R) (C * R)); [lia|].
    by rewrite andb_false_r.
Qed.

Lemma Add_tall_witness :
  wf store_2x3 (mkMatrix 3 2 (mkSlice 0 0 6 6)) /\
  1 <= 2 < 3 /\
  Add (mkMatrix 3 2 (mkSlice 0 0 6 6)) (mkMatrix 3 2 (mkSlice 0 0 6 6))
      store_2x3 = Panic.
Proof.
  assert (wf store_2x3 (mkMatrix 3 2 (mkSlice 0 0 6 6))) as Hw.
  { split; simpl; try (unfold max_int; lia).
    eexists. split; [reflexivity|]. simpl. lia. }
  split; [done|]. split; [lia|].
  apply (Add_tall store_2x3 _ _ Hw Hw); simpl; (done || lia).
Defined.

Lemma ScalarMultiply_tall_witness :
  wf store_2x3 (mkMatrix 3 2 (mkSlice 0 0 6 6)) /\
  1 <= 2 < 3 /\
  ScalarMultiply (mkMatrix 3 2 (mkSlice 0 0 6 6)) 2%float store_2x3 = Panic.
Proof.
  assert (wf store_2x3 (mkMatrix 3 2 (mkSlice 0 0 6 6))) as Hw.
  { split; simpl; try (unfold max_int; lia).
    eexists. split; [reflexivity|]. simpl. lia. }
  split; [done|]. split; [lia|].
  apply (ScalarMultiply_tall store_2x3 _ _ Hw). simpl. lia.
Defined.

(** On a well-formed square matrix [ScalarMultiply] returns a new matrix
    each entry of which is [0.0 * scal]. *)
Lemma ScalarMultiply_square h m k :
  wf h m -> NumberOfColumns m = NumberOfRows m ->
  let n := NumberOfRows m in
  exists d,
    ScalarMultiply m k h
    = Val (mkMatrix n n (mkSlice (length h) 0 (n * n) (n * n)), h ++ [d]) /\
    length d = Z.to_nat (n * n) /\
    forall r c, 0 <= r < n -> 0 <= c < n ->
      entry n d r c = (0 * k)%float.
Proof.
  intros Hwf Hsq n.
  pose proof Hwf as [HR HC Hlen Hmax _ _ _].
  rewrite Hsq in HC, Hlen. fold n in HR, HC, Hlen.
  assert (n * n <= max_int) as Hnn by lia.
  assert (0 <= n * n) by nia.
  set (I := fun (row col : Z) (h' : heap) => exists d,
         h' = h ++ [d] /\ length d = Z.to_nat (n * n) /\
         forall r c, 0 <= r < n -> 0 <= c < n ->
           entry n d r c
           = if (r <? row) || ((r =? row) && (c <? col))
             then (0 * k)%float else 0%float).
  cut (wp (ScalarMultiply m k) h (fun r h' =>
         r = mkMatrix n n (mkSlice (length h) 0 (n * n) (n * n)) /\
         I n 0 h')).
  { intros (r & h' & Hrun & -> & d & -> & Hd & Hent).
    exists d. split; [done|]. split; [done|].
    intros r c Hr Hc. rewrite Hent by done.
    destruct (Z.ltb_spec r n); [done | lia]. }
  unfold ScalarMultiply. rewrite Hsq. fold n.
  apply wp_bind. eapply wp_val; [apply NewMatrix_run; lia|].
  simpl NumberOfColumns. simpl M.
  apply wp_bind.
  apply (wp_for_up (fun row _ h' => I row 0 h')); [lia | | |].
  { eexists. split; [done|]. split; [apply length_replicate|].
    intros r c Hr Hc. rewrite (entry_replicate n) by done.
    destruct (Z.ltb_spec r 0), (Z.ltb_spec c 0); try lia.
    by rewrite andb_false_r. }
  { intros row _ h1 Hrow HI.
    apply (wp_for_up (fun col _ h' => I row col h')); [lia | done | |].
    - intros col _ h2 Hcol (d & -> & Hd & Hent).
      apply wp_bind.
      apply (wp_load_entry n Hnn h [] d []); simpl; try done; try lia.
      apply (wp_store_entry n Hnn h [] d []); simpl; try done; try lia.
      eexists. split; [done|]. split; [by rewrite length_insert|].
      intros r c Hr Hc.
      destruct (decide (r = row /\ c = col)) as [[-> ->]|Hother].
      + rewrite entry_insert_eq by done. rewrite Hent by done.
        rewrite Z.eqb_refl.
        destruct (Z.ltb_spec row row), (Z.ltb_spec col col),
          (Z.ltb_spec col (col + 1)); try lia. done.
      + rewrite entry_insert_ne by (done || lia). rewrite Hent by done.
        destruct (Z.ltb_spec r row), (Z.eqb_spec r row), (Z.ltb_spec c col),
          (Z.ltb_spec c (col + 1)); simpl; try done; lia.
    - intros _ h2 (d & -> & Hd & Hent).
      exists d. split; [done|]. split; [done|].
      intros r c Hr Hc. rewrite Hent by done.
      destruct (Z.ltb_spec r row), (Z.eqb_spec r row), (Z.ltb_spec c n),
        (Z.ltb_spec r (row + 1)), (Z.eqb_spec r (row + 1)), (Z.ltb_spec c 0);
        simpl; try done; lia. }
  intros _ h1 HI. by apply wp_ret.
Qed.

(** Zero times a scalar that is NaN or an infinity is NaN. *)
Lemma mul_zero_not_finite k :
  is_finite k = false -> is_nan (0 * k) = true.
Proof.
  unfold is_finite, is_nan, is_infinity.
  rewrite !FloatAxioms.eqb_spec, FloatAxioms.abs_spec, FloatAxioms.mul_spec.
  change (Prim2SF infinity) with (S754_infinity false).
  change (Prim2SF 0) with (S754_zero false).
  destruct (Prim2SF k) as [sg|[]| |sg mx ex]; try done.
  unfold SFeqb, SFcompare.
  rewrite Z.compare_refl, Pos.compare_cont_refl. by destruct sg.
Qed.

(** C4 (amended): for every well-formed square matrix and every scalar [k],
    [ScalarMultiply] returns a new matrix of the shape of the receiver, on
    a new array, the store being otherwise unchanged; for a finite [k]
    every element of it compares equal to [0.0] (it is [+0.0] or [-0.0]),
    and for [k] NaN or an infinity every element of it is NaN. *)
Theorem ScalarMultiply_zero h m k :
  wf h m -> NumberOfColumns m = NumberOfRows m ->
  exists r d,
    ScalarMultiply m k h = Val (r, h ++ [d]) /\
    NumberOfRows r = NumberOfRows m /\
    NumberOfColumns r = NumberOfColumns m /\
    s_arr (M r) = length h /\
    wf (h ++ [d]) r /\
    forall i j, 0 <= i < NumberOfRows m -> 0 <= j < NumberOfColumns m ->
      exists v,
        Get r i j (h ++ [d]) = Val (v, h ++ [d]) /\
        (is_finite k = true -> is_zero v = true) /\
        (is_finite k = false -> is_nan v = true).
Proof.
  intros Hwf Hsq.
  destruct (ScalarMultiply_square h m k Hwf Hsq) as (d & Hrun & Hd & Hent).
  pose proof Hwf as [HR HC Hlen Hmax _ _ _].
  set (n := NumberOfRows m) in *. rewrite Hsq in *.
  assert (0 <= n * n) by nia.
  set (r := mkMatrix n n (mkSlice (length h) 0 (n * n) (n * n))) in *.
  assert (wf (h ++ [d]) r) as Hwr.
  { split; simpl; try lia.
    exists d. split; [by apply list_lookup_middle | lia]. }
  assert (elements (h ++ [d]) r = d) as Hel.
  { apply (elements_whole h d []); simpl; try done. lia. }
  exists r, d. repeat (split; [done|]).
  intros i j Hi Hj. exists (0 * k)%float. split; [|split].
  - rewrite (Get_entry _ r i j) by done. simpl. rewrite Hel.
    by rewrite Hent.
  - intros Hk. by apply mul_zero_finite.
  - apply mul_zero_not_finite.
Qed.

Lemma ScalarMultiply_zero_witness :
  wf store_2x2 matrix_2x2 /\
  NumberOfColumns matrix_2x2 = NumberOfRows matrix_2x2 /\
  exists r d,
    ScalarMultiply matrix_2x2 5%float store_2x2 = Val (r, store_2x2 ++ [d]) /\
    exists v,
      Get r 1 0 (store_2x2 ++ [d]) = Val (v, store_2x2 ++ [d]) /\
      is_zero v = true.
Proof.
  split; [exact wf_matrix_2x2|]. split; [done|].
  destruct (ScalarMultiply_zero store_2x2 matrix_2x2 5%float wf_matrix_2x2
              eq_refl) as (r & d & Hrun & _ & _ & _ & _ & Hget).
  exists r, d. split; [done|].
  destruct (Hget 1 0) as (v & Hv & Hfin & _); [simpl; lia.. |].
  exists v. split; [done|]. apply Hfin. by vm_compute.
Defined.

(** Adding [-0.0] changes no [float64]. *)
Lemma add_neg_zero x : (x + -0)%float = x.
Proof.
  rewrite <- (FloatAxioms.SF2Prim_Prim2SF (x + -0)), FloatAxioms.add_spec.
  change (Prim2SF (-0)) with (S754_zero true).
  rewrite <- (FloatAxioms.SF2Prim_Prim2SF x) at 2.
  by destruct (Prim2SF x) as [[]|[]| |].
Qed.

(** X17: for well-formed square matrices of the same size, [Subtract]
    returns without error a new matrix whose elements are those of the
    receiver, bit for bit, whatever the argument holds: the negated
    argument is [ScalarMultiply] over a new zero matrix, every entry of
    which is [0.0 * -1.0], that is [-0.0]. *)
Theorem Subtract_square h a b :
  wf h a -> wf h b ->
  NumberOfColumns a = NumberOfRows a ->
  NumberOfRows b = NumberOfRows a -> NumberOfColumns b = NumberOfRows a ->
  exists s h',
    Subtract a b h = Val ((Some s, None), h') /\
    NumberOfRows s = NumberOfRows a /\
    NumberOfColumns s = NumberOfRows a /\
    wf h' s /\
    forall r c, 0 <= r < NumberOfRows a -> 0 <= c < NumberOfRows a ->
      exists x, Get a r c h = Val (x, h) /\ Get s r c h' = Val (x, h').
Proof.
  intros Hwa Hwb Hsq Hbr Hbc.
  pose proof Hwa as [HR HC Hlen Hmax _ _ _].
  set (n := NumberOfRows a) in *.
  assert (0 <= n * n <= max_int) as Hnn by (rewrite Hsq in Hlen; nia).
  destruct (ScalarMultiply_square h b (-1)%float Hwb) as (dn & Hneg & Hdn & Hen).
  { by rewrite Hbc, Hbr. }
  rewrite Hbr in Hneg, Hdn, Hen. fold n in Hneg, Hdn, Hen.
  set (neg := mkMatrix n n (mkSlice (length h) 0 (n * n) (n * n))) in *.
  set (h1 := h ++ [dn]).
  assert (wf h1 neg) as Hwn.
  { split; simpl; try lia.
    exists dn. split; [by apply list_lookup_middle | lia]. }
  assert (elements h1 neg = dn) as Heln.
  { apply (elements_whole h dn []); simpl; try done. lia. }
  destruct (Add_square h1 a neg (wf_app h [dn] a Hwa) Hwn Hsq eq_refl eq_refl)
    as (d & Hadd & Hd & Hent).
  fold n in Hadd, Hd, Hent.
  set (s := mkMatrix n n (mkSlice (length h1) 0 (n * n) (n * n))) in *.
  assert (wf (h1 ++ [d]) s) as Hws.
  { split; simpl; try lia.
    exists d. split; [by apply list_lookup_middle | lia]. }
  assert (elements (h1 ++ [d]) s = d) as Hel.
  { apply (elements_whole h1 d []); simpl; try done. lia. }
  exists s, (h1 ++ [d]). split.
  { unfold Subtract. rewrite Hbr, Hbc, Hsq, !Z.eqb_refl.
    change (negb true || negb true) with false. cbv iota.
    unfold bind, Neg. by rewrite Hneg. }
  repeat (split; [done|]).
  intros r c Hr Hc. exists (entry n (elements h a) r c).
  split.
  - rewrite (Get_entry h a r c) by (done || lia). by rewrite Hsq.
  - rewrite (Get_entry _ s r c) by done. simpl. rewrite Hel.
    rewrite Hent by done.
    replace (elements h1 a) with (elements h a)
      by (symmetry; apply elements_app; by eapply wf_arr_lt).
    rewrite Heln, Hen by done.
    change (0 * -1)%float with (-0)%float.
    by rewrite add_neg_zero.
Qed.

Lemma Subtract_square_witness :
  wf store_2x2 matrix_2x2 /\
  NumberOfColumns matrix_2x2 = NumberOfRows matrix_2x2 /\
  exists s h',
    Subtract matrix_2x2 matrix_2x2 store_2x2 = Val ((Some s, None), h') /\
    Get s 0 0 h' = Val (4%float, h').
Proof.
  split; [exact wf_matrix_2x2|]. split; [done|].
  destruct (Subtract_square store_2x2 matrix_2x2 matrix_2x2
              wf_matrix_2x2 wf_matrix_2x2 eq_refl eq_refl eq_refl)
    as (s & h' & Hrun & _ & _ & _ & Hget).
  exists s, h'. split; [done|].
  destruct (Hget 0 0) as (x & Hx & Hs); [simpl; lia.. |].
  assert (x = 4%float) as <-; [|done].
  assert (Get matrix_2x2 0 0 store_2x2 = Val (4%float, store_2x2)) as Hc
    by by vm_compute.
  rewrite Hc in Hx. by injection Hx.
Defined.

(** * Trace, and the identity matrix *)

(** ** [Trace] *)

(** The trace of a well-formed square matrix: the diagonal summed from
    [0.0], in increasing index. *)
Lemma Trace_square h m :
  wf h m -> NumberOfColumns m = NumberOfRows m ->
  Trace m h
  = Val ((dsum (fun i => entry (NumberOfRows m) (elements h m) i i)
               (Z.to_nat (NumberOfRows m)) 0 0%float, None), h).
Proof.
  intros Hwf Hsq.
  pose proof Hwf as [HR HC Hlen Hmax _ _ _].
  set (n := NumberOfRows m) in *.
  set (f := fun i => entry n (elements h m) i i).
  cut (wp (Trace m) h (fun r h' =>
         r = (dsum f (Z.to_nat n) 0 0%float, None) /\ h' = h)).
  { by intros (r & h' & Hrun & -> & ->). }
  unfold Trace, IsSquare. rewrite Hsq, Z.eqb_refl.
  change (negb true) with false. cbv iota. fold n.
  apply wp_bind.
  apply (wp_for_up (fun i st h' =>
           h' = h /\ st = (dsum f (Z.to_nat i) 0 0%float, i)));
    [lia | done | |].
  - intros i st h1 Hi [-> ->]. simpl fst. simpl snd.
    apply wp_bind.
    eapply wp_val; [apply Get_entry; (done || lia)|].
    apply wp_ret. split; [done|].
    replace (Z.to_nat (i + 1)) with (S (Z.to_nat i)) by lia.
    rewrite dsum_snoc, Hsq. fold n. unfold f at 2.
    replace (0 + Z.of_nat (Z.to_nat i)) with i by lia.
    f_equal. unfold uadd. apply to_uint_small. lia.
  - intros st h1 [-> ->]. by apply wp_ret.
Qed.

(** X18: [Trace] of a matrix that is not square returns [0.0] and the
    non-square error; of a well-formed square matrix it returns, without
    error and without touching the store, the sum of the [m[i][i]]
    accumulated from [0.0] in increasing [i], each addition rounded. *)
Theorem Trace_diagonal h m :
  (NumberOfColumns m <> NumberOfRows m ->
   Trace m h = Val ((0%float, Some (error_code errorNonSquareMatrix)), h)) /\
  (wf h m -> NumberOfColumns m = NumberOfRows m ->
   exists t,
     Trace m h = Val ((t, None), h) /\
     t = dsum (fun i => entry (NumberOfRows m) (elements h m) i i)
              (Z.to_nat (NumberOfRows m)) 0 0%float).
Proof.
  split.
  - intros Hns. unfold Trace, IsSquare.
    by destruct (Z.eqb_spec (NumberOfColumns m) (NumberOfRows m)).
  - intros Hwf Hsq. eexists. split; [by apply Trace_square | done].
Qed.

Lemma sigma_diagonal n i : 0 <= i < n -> sigma n n (i * n + i) = i * n + i.
Proof.
  intros Hi. unfold sigma.
  by rewrite (offset_mod i i n), (offset_div i i n).
Qed.

(** X19: the trace of the transpose of a well-formed square matrix is the
    trace of the matrix, bit for bit: [Transpose] keeps the diagonal where
    it is and [Trace] adds it in the same order. *)
Theorem Trace_Transpose fuel h m :
  wf h m -> NumberOfColumns m = NumberOfRows m ->
  (Z.to_nat (NumberOfRows m * NumberOfColumns m) < fuel)%nat ->
  exists t h' x,
    Transpose fuel m h = Val ((Some t, None), h') /\
    Trace m h = Val ((x, None), h) /\
    Trace t h' = Val ((x, None), h').
Proof.
  intros Hwf Hsq Hfuel.
  pose proof Hwf as [HR HC Hlen Hmax _ _ _].
  exists (transpose_result h m), (transpose_store h m).
  eexists. split; [by apply Transpose_spec|].
  split; [by apply Trace_square|].
  rewrite Trace_square; [|by apply wf_transpose | by simpl].
  rewrite elements_transpose by done. simpl NumberOfRows.
  rewrite Hsq. set (n := NumberOfRows m) in *.
  do 3 f_equal. apply dsum_ext. intros i Hi. unfold entry.
  assert (0 <= i < n) as Hi' by lia.
  pose proof (offset_bound i i n n Hi' Hi').
  rewrite (list_lookup_total_correct _ _ _
             (lookup_transposed n n (elements h m) (i * n + i) ltac:(lia))).
  by rewrite sigma_diagonal.
Qed.

Lemma Trace_Transpose_witness :
  wf store_2x2 matrix_2x2 /\
  NumberOfColumns matrix_2x2 = NumberOfRows matrix_2x2 /\
  (Z.to_nat (NumberOfRows matrix_2x2 * NumberOfColumns matrix_2x2) < 5)%nat /\
  exists t h' x,
    Transpose 5 matrix_2x2 store_2x2 = Val ((Some t, None), h') /\
    Trace matrix_2x2 store_2x2 = Val ((x, None), store_2x2) /\
    Trace t h' = Val ((x, None), h').
Proof.
  split; [exact wf_matrix_2x2|]. split; [done|]. split; [simpl; lia|].
  apply (Trace_Transpose 5 store_2x2 matrix_2x2 wf_matrix_2x2 eq_refl).
  simpl. lia.
Defined.

(** ** The identity matrix through the decomposition and the inverse *)

(** The factors of the identity matrix are the identity matrix. *)
Lemma identity_factors n lc uc :
  0 <= n -> lu_state n (identity_data n) lc uc n n n ->
  forall r c, 0 <= r < n -> 0 <= c < n ->
    entry n lc r c = (if r =? c then 1%float else 0%float) /\
    entry n uc r c = (if r =? c then 1%float else 0%float).
Proof.
  intros Hn Hst r c Hr Hc.
  destruct (identity_lu n lc uc (Z.to_nat n) Hst ltac:(lia)) as [Hu Hl].
  destruct (Z.eqb_spec r c) as [->|Hne].
  - split.
    + apply (lu_l_one _ _ _ _ _ _ _ Hst); lia.
    + rewrite Hu by lia. by rewrite Z.eqb_refl.
  - destruct (decide (r < c)).
    + split.
      * apply (lu_l_zero _ _ _ _ _ _ _ Hst); lia.
      * rewrite Hu by lia. by destruct (Z.eqb_spec r c).
    + split.
      * apply Hl; lia.
      * apply (lu_u_zero _ _ _ _ _ _ _ Hst); lia.
Qed.

(** X20: when [n*n] fits an [int], [LUDecomposition] of [NewIdentity n]
    returns without error two matrices at which [Get] returns [1.0] on the
    diagonal and [0.0] elsewhere: both factors are the identity, exactly. *)
Theorem LUDecomposition_identity h n :
  0 <= n < 2 ^ 64 -> n * n <= max_int ->
  exists id h1 l u h2,
    NewIdentity n h = Val (id, h1) /\
    LUDecomposition id h1 = Val ((Some l, Some u, None), h2) /\
    forall r c, 0 <= r < n -> 0 <= c < n ->
      Get l r c h2 = Val (if r =? c then 1%float else 0%float, h2) /\
      Get u r c h2 = Val (if r =? c then 1%float else 0%float, h2).
Proof.
  intros Hn Hmax.
  assert (0 <= n * n) by nia.
  destruct (wf_identity h n) as [Hwf Hel]; [lia | done |].
  set (h1 := h ++ [identity_data n]) in *.
  set (id := identity_matrix h n) in *.
  destruct (LUDecomposition_square h1 id Hwf eq_refl)
    as (lc & uc & Hrun & Hst).
  simpl NumberOfRows in Hst. rewrite Hel in Hst.
  pose proof (lu_len_l _ _ _ _ _ _ _ Hst) as Hll.
  pose proof (lu_len_u _ _ _ _ _ _ _ Hst) as Hlu.
  set (l := lu_lower h1 id) in *. set (u := lu_upper h1 id) in *.
  set (h2 := h1 ++ [lc; uc]) in *.
  assert (wf h2 l /\ elements h2 l = lc) as [Hwl Hell].
  { split.
    - split; simpl; try lia.
      exists lc. split; [by apply list_lookup_middle | lia].
    - apply (elements_whole h1 lc [uc]); simpl; try done. lia. }
  assert (wf h2 u /\ elements h2 u = uc) as [Hwu Helu].
  { unfold h2. change (h1 ++ [lc; uc]) with (h1 ++ [lc] ++ [uc]).
    rewrite app_assoc. split.
    - split; simpl; try lia.
      exists uc. split; [|lia].
      apply list_lookup_middle. rewrite length_app. simpl. lia.
    - apply (elements_whole (h1 ++ [lc]) uc []); simpl; try done; try lia.
      rewrite length_app. simpl. lia. }
  exists id, h1, l, u, h2.
  split; [apply NewIdentity_spec; lia|]. split; [done|].
  intros r c Hr Hc.
  destruct (identity_factors n lc uc ltac:(lia) Hst r c Hr Hc) as [Hl Hu].
  rewrite (Get_entry h2 l r c), (Get_entry h2 u r c) by done.
  simpl NumberOfColumns. by rewrite Hell, Helu, Hl, Hu.
Qed.

Lemma LUDecomposition_identity_witness :
  0 <= 3 < 2 ^ 64 /\ 3 * 3 <= max_int /\
  exists id h1 l u h2,
    NewIdentity 3 [] = Val (id, h1) /\
    LUDecomposition id h1 = Val ((Some l, Some u, None), h2).
Proof.
  assert (3 * 3 <= max_int) as Hmax by (unfold max_int; lia).
  split; [lia|]. split; [done|].
  destruct (LUDecomposition_identity [] 3 ltac:(lia) Hmax)
    as (id & h1 & l & u & h2 & Hid & Hrun & _).
  by exists id, h1, l, u, h2.
Defined.

(** The solution of [L*Y = I] when [L] is the identity. *)
Lemma forward_identity n lc yc :
  (forall r c, 0 <= r < n -> 0 <= c < n ->
     entry n lc r c = if r =? c then 1%float else 0%float) ->
  forward_solution n lc yc ->
  forall (k : nat) r c, r < Z.of_nat k -> 0 <= r < n -> 0 <= c < n ->
    entry n yc r c = if r =? c then 1%float else 0%float.
Proof.
  intros Hl [_ Hy]. induction k as [|k IH]; intros r c Hk Hr Hc; [lia|].
  rewrite Hy by done. unfold forward_entry.
  destruct (Z.eqb_spec r 0) as [->|Hr0].
  - rewrite entry_identity_data, Hl by lia. rewrite Z.eqb_refl.
    by destruct (0 =? c).
  - rewrite entry_identity_data, Hl by lia. rewrite Z.eqb_refl.
    unfold doolittle_sum. rewrite dsum_zero.
    + by destruct (r =? c).
    + intros j Hj. rewrite Hl, IH by lia.
      destruct (Z.eqb_spec r j); [lia|]. by destruct (j =? c).
Qed.

(** The solution of [U*X = Y] when [U] and [Y] are the identity. *)
Lemma backward_identity n uc yc xc :
  (forall r c, 0 <= r < n -> 0 <= c < n ->
     entry n uc r c = if r =? c then 1%float else 0%float) ->
  (forall r c, 0 <= r < n -> 0 <= c < n ->
     entry n yc r c = if r =? c then 1%float else 0%float) ->
  backward_solution n uc yc xc ->
  forall (k : nat) r c, n - 1 - r < Z.of_nat k -> 0 <= r < n -> 0 <= c < n ->
    entry n xc r c = if r =? c then 1%float else 0%float.
Proof.
  intros Hu Hyc [_ Hx]. induction k as [|k IH]; intros r c Hk Hr Hc; [lia|].
  rewrite Hx by done. unfold backward_entry.
  destruct (Z.eqb_spec r (n - 1)) as [->|Hrn].
  - rewrite Hyc, Hu by lia. rewrite Z.eqb_refl. by destruct (n - 1 =? c).
  - rewrite Hyc, Hu by lia. rewrite Z.eqb_refl.
    unfold backward_sum. rewrite dsum_zero.
    + by destruct (r =? c).
    + intros p Hp. rewrite Hu, IH by lia.
      destruct (Z.eqb_spec r p); [lia|]. by destruct (p =? c).
Qed.

(** X21: when [n*n] fits an [int], [Inverse] of [NewIdentity n] returns
    without error a matrix at which [Get] returns [1.0] on the diagonal and
    [0.0] elsewhere: the inverse of the identity is the identity, exactly. *)
Theorem Inverse_identity h n :
  0 <= n < 2 ^ 64 -> n * n <= max_int ->
  exists id h1 x h2,
    NewIdentity n h = Val (id, h1) /\
    Inverse id h1 = Val ((Some x, None), h2) /\
    NumberOfRows x = n /\ NumberOfColumns x = n /\
    forall r c, 0 <= r < n -> 0 <= c < n ->
      Get x r c h2 = Val (if r =? c then 1%float else 0%float, h2).
Proof.
  intros Hn Hmax.
  destruct (wf_identity h n) as [Hwf Hel]; [lia | done |].
  set (h1 := h ++ [identity_data n]) in *.
  set (id := identity_matrix h n) in *.
  destruct (Inverse_solution h1 id Hwf eq_refl)
    as (lc & uc & _ & Hst & _ & Hnz).
  simpl NumberOfRows in Hst, Hnz. rewrite Hel in Hst.
  rewrite (identity_diagonal n lc uc ltac:(lia) Hst) in Hnz.
  destruct (Hnz eq_refl)
    as (yc & x & ext & Hrun & Hxr & Hxc & _ & Hwx & Hfw & Hbw).
  pose proof (identity_factors n lc uc ltac:(lia) Hst) as Hlu.
  assert (forall r c, 0 <= r < n -> 0 <= c < n ->
            entry n yc r c = if r =? c then 1%float else 0%float) as Hy.
  { intros r c Hr Hc.
    apply (forward_identity n lc yc (fun r c Hr Hc => proj1 (Hlu r c Hr Hc))
             Hfw (Z.to_nat n)); lia. }
  exists id, h1, x, (h1 ++ ext).
  split; [apply NewIdentity_spec; lia|].
  split; [done|]. split; [done|]. split; [done|].
  intros r c Hr Hc.
  rewrite (Get_entry _ x r c) by (done || lia). rewrite Hxc.
  f_equal. f_equal.
  apply (backward_identity n uc yc _
           (fun r c Hr Hc => proj2 (Hlu r c Hr Hc)) Hy Hbw (Z.to_nat n)); lia.
Qed.

Lemma Inverse_identity_witness :
  0 <= 3 < 2 ^ 64 /\ 3 * 3 <= max_int /\
  exists id h1 x h2,
    NewIdentity 3 [] = Val (id, h1) /\
    Inverse id h1 = Val ((Some x, None), h2).
Proof.
  assert (3 * 3 <= max_int) as Hmax by (unfold max_int; lia).
  split; [lia|]. split; [done|].
  destruct (Inverse_identity [] 3 ltac:(lia) Hmax)
    as (id & h1 & x & h2 & Hid & Hrun & _).
  by exists id, h1, x, h2.
Defined.

(** * Quadrature *)

(** ** The value of [Simpson] *)

Lemma dsum_shift f cnt j acc :
  dsum f cnt (j + 1) acc = dsum (fun k => f (k + 1)) cnt j acc.
Proof.
  revert j acc. induction cnt as [|cnt IH]; intros j acc; [done|].
  simpl. apply IH.
Qed.

(** A loop of [Simpson] that ends: the terms [G i], [G (i+2)], ... below the
    bound are added to the accumulator in that order. *)
Lemma count_by_two_value (G : Z -> float) B fuel i s h :
  min_int <= i -> B <= max_int - 1 ->
  (Z.to_nat (B - i) < fuel)%nat ->
  exists i',
    count_by_two (fun st => (snd st + G (fst st))%float) B fuel (i, s) h
    = Val ((i', dsum (fun k => G (i + 2 * k)) (Z.to_nat ((B - i + 1) / 2))
                     0 s), h).
Proof.
  unfold count_by_two, min_int, max_int.
  revert i s. induction fuel as [|fuel IH]; intros i s Hi HB Hfuel; [lia|].
  simpl. destruct (Z.ltb_spec i B) as [Hlt|Hge].
  - unfold bind, ret. simpl.
    assert (iadd i 2 = i + 2) as ->.
    { unfold iadd. apply to_int_small. lia. }
    destruct (IH (i + 2) (s + G i)%float) as (i' & Heq); [lia..|].
    exists i'. eapply eq_trans; [exact Heq|]. do 3 f_equal.
    assert (1 <= (B - i + 1) / 2) by (apply Z.div_le_lower_bound; lia).
    replace (Z.to_nat ((B - i + 1) / 2))
      with (S (Z.to_nat ((B - (i + 2) + 1) / 2))).
    2:{ replace (B - i + 1) with (B - (i + 2) + 1 + 1 * 2) by lia.
        rewrite Z.div_add by lia.
        assert (0 <= (B - (i + 2) + 1) / 2) by (apply Z.div_pos; lia).
        lia. }
    simpl. rewrite Z.mul_0_r, Z.add_0_r.
    change 1 with (0 + 1) at 2. rewrite dsum_shift.
    apply dsum_ext. intros k _. f_equal. lia.
  - unfold ret. exists i. do 3 f_equal.
    assert ((B - i + 1) / 2 <= 0); [|by replace (Z.to_nat _) with 0%nat by lia].
    destruct (decide (B = i)) as [->|].
    + by replace (i - i + 1) with 1 by lia.
    + assert ((B - i + 1) / 2 < 1); [|lia].
      apply Z.div_lt_upper_bound; lia.
Qed.

(** X22: for an even [n] other than the least [int], and fuel for its
    loops, [Simpson] returns without error [s * h / 3], where [h] is
    [(sup - inf) / float64(n)] and [s] is [f(inf) + f(sup)], to which are
    added first the [4 * f(inf + float64(i)*h)] for the odd [i] below [n] in
    increasing order, then the [2 * f(inf + float64(j)*h)] for the even [j]
    from [2] below [n-1]; for [n <= 0], which is not refused, nothing is
    added: [s] is [f(inf) + f(sup)]. *)
Theorem Simpson_value fuel inf sup f n h :
  is_int n -> Z.rem n 2 = 0 -> n <> min_int ->
  (Z.to_nat n < fuel)%nat ->
  let w := ((sup - inf) / float64_of_int n)%float in
  let s1 :=
    dsum (fun k => (4 * f (inf + float64_of_int (1 + 2 * k) * w))%float)
         (Z.to_nat (n / 2)) 0 (f inf + f sup)%float in
  let s2 :=
    dsum (fun k => (2 * f (inf + float64_of_int (2 + 2 * k) * w))%float)
         (Z.to_nat (n / 2 - 1)) 0 s1 in
  Simpson fuel inf sup f n h = Val (((s2 * w / 3)%float, None), h) /\
  (n <= 0 -> s2 = (f inf + f sup)%float).
Proof.
  intros [Hlo Hhi] Heven Hmin Hfuel w s1 s2.
  split.
  2:{ intros Hn. unfold s2, s1.
      assert (n / 2 <= 0) by (apply Z.div_le_upper_bound; lia).
      replace (Z.to_nat (n / 2 - 1)) with 0%nat by lia.
      by replace (Z.to_nat (n / 2)) with 0%nat by lia. }
  unfold min_int, max_int in *.
  rewrite Simpson_unfold.
  destruct (Z.eqb_spec (Z.rem n 2) 0); [|done].
  change (negb true) with false. cbv iota zeta. fold w.
  assert (n <> 2 ^ 63 - 1) by (intros ->; by vm_compute in Heven).
  assert (isub n 1 = n - 1) as ->.
  { unfold isub. apply to_int_small. lia. }
  assert (n = 2 * (n / 2)) as Hn2.
  { apply Z.rem_divide in Heven; [|lia]. destruct Heven as [q ->].
    rewrite Z.div_mul by lia. lia. }
  unfold bind.
  destruct (count_by_two_value
              (fun i => (4 * f (inf + float64_of_int i * w))%float)
              n fuel 1 (f inf + f sup)%float h) as (i1 & ->);
    [unfold min_int; lia | unfold max_int; lia | lia |].
  simpl snd.
  destruct (count_by_two_value
              (fun j => (2 * f (inf + float64_of_int j * w))%float)
              (n - 1) fuel 2) with (s := dsum
                (fun k => (4 * f (inf + float64_of_int (1 + 2 * k) * w))%float)
                (Z.to_nat ((n - 1 + 1) / 2)) 0 (f inf + f sup)%float) (h := h)
    as (i2 & ->); [unfold min_int; lia | unfold max_int; lia | lia |].
  unfold ret. do 4 f_equal. unfold s2, s1.
  replace (n - 1 + 1) with n by lia.
  replace ((n - 1 - 2 + 1) / 2) with (n / 2 - 1); [done|].
  replace (n - 1 - 2 + 1) with (n + (-1) * 2) by lia.
  rewrite Z.div_add by lia. lia.
Qed.

Lemma Simpson_value_witness :
  is_int 4 /\ Z.rem 4 2 = 0 /\ 4 <> min_int /\ (Z.to_nat 4 < 6)%nat /\
  exists v, Simpson 6 0%float 1%float (fun x => x) 4 [] = Val ((v, None), []).
Proof.
  assert (is_int 4) as Hint by by vm_compute.
  assert (4 <> min_int) as Hmin by by vm_compute.
  assert (Z.to_nat 4 < 6)%nat as Hfuel by (vm_compute; lia).
  split; [done|]. split; [done|]. split; [done|]. split; [done|].
  eexists.
  apply (proj1 (Simpson_value 6 0%float 1%float (fun x => x) 4 [] Hint
                  eq_refl Hmin Hfuel)).
Defined.

(** ** [Trapezoidal] *)

(** The number of intervals that [Trapezoidal] works with. *)
Definition trapezoid_intervals (n : Z) : Z := if n =? 0 then 100000 else n.

(** The running sum of [Trapezoidal] after the interior nodes [1 .. k]. *)
Definition trapezoid_sum (inf sup : float) (f : F) (n k : Z) : float :=
  let h := ((sup - inf) / float64_of_int (trapezoid_intervals n))%float in
  dsum (fun i => f (inf + float64_of_int i * h)%float) (Z.to_nat k) 1
       (0.5 * f inf + 0.5 * f sup)%float.

(** The test that makes [Trapezoidal] leave its loop at node [k]. *)
Definition trapezoid_stops (inf sup : float) (f : F) (n : Z)
           (precision : float) (k : Z) : bool :=
  PrimFloat.leb (abs (trapezoid_sum inf sup f n k
                      - trapezoid_sum inf sup f n (k - 1)))
                precision.

Lemma trapezoid_sum_next inf sup f n k :
  0 <= k ->
  trapezoid_sum inf sup f n (k + 1)
  = (trapezoid_sum inf sup f n k
     + f (inf + float64_of_int (k + 1)
                * ((sup - inf) / float64_of_int (trapezoid_intervals n))))%float.
Proof.
  intros Hk. unfold trapezoid_sum. cbv zeta.
  replace (Z.to_nat (k + 1)) with (S (Z.to_nat k)) by lia.
  rewrite dsum_snoc.
  by replace (1 + Z.of_nat (Z.to_nat k)) with (k + 1) by lia.
Qed.

Lemma for_break_S {St} n i (body : Z -> St -> St * bool) s :
  for_break (S n) i body s
  = if snd (body i s) then fst (body i s)
    else for_break n (i + 1) body (fst (body i s)).
Proof. reflexivity. Qed.

Section TrapezoidLoop.

Variables (inf sup : float) (f : F) (n : Z) (precision : float).

(** The body of the loop of [Trapezoidal], on the state
    [(result, previous)]. *)
Definition trapezoid_body : Z -> float * float -> float * float * bool :=
  fun i st =>
    let h := ((sup - inf) / float64_of_int (trapezoid_intervals n))%float in
    let previous := fst st in
    let result := (fst st + f (inf + float64_of_int i * h))%float in
    ((result, previous),
     PrimFloat.leb (abs (result - previous)) precision).

Lemma Trapezoidal_unfold :
  Trapezoidal inf sup f n precision
  = (fst (for_break (Z.to_nat (trapezoid_intervals n - 1)) 1 trapezoid_body
            ((0.5 * f inf + 0.5 * f sup)%float, 0%float))
     * ((sup - inf) / float64_of_int (trapezoid_intervals n)))%float.
Proof. reflexivity. Qed.

Lemma body_step i prev :
  1 <= i ->
  trapezoid_body i (trapezoid_sum inf sup f n (i - 1), prev)
  = ((trapezoid_sum inf sup f n i, trapezoid_sum inf sup f n (i - 1)),
     trapezoid_stops inf sup f n precision i).
Proof.
  intros Hi. unfold trapezoid_body, trapezoid_stops. simpl fst.
  pose proof (trapezoid_sum_next inf sup f n (i - 1) ltac:(lia)) as Hs.
  replace (i - 1 + 1) with i in Hs by lia.
  by rewrite <- Hs.
Qed.

(** The loop when no test succeeds. *)
Lemma for_break_through cnt i prev :
  1 <= i ->
  (forall j, i <= j < i + Z.of_nat cnt ->
     trapezoid_stops inf sup f n precision j = false) ->
  fst (for_break cnt i trapezoid_body (trapezoid_sum inf sup f n (i - 1), prev))
  = trapezoid_sum inf sup f n (i + Z.of_nat cnt - 1).
Proof.
  revert i prev. induction cnt as [|cnt IH]; intros i prev Hi Hno.
  - simpl. f_equal. lia.
  - rewrite for_break_S, body_step by done. simpl snd. simpl fst.
    rewrite Hno by lia.
    replace (trapezoid_sum inf sup f n i)
      with (trapezoid_sum inf sup f n (i + 1 - 1)) by (f_equal; lia).
    rewrite IH; [f_equal; lia | lia |].
    intros j Hj. apply Hno. lia.
Qed.

(** The loop when the test first succeeds at node [stop]. *)
Lemma for_break_at cnt i prev stop :
  1 <= i <= stop -> stop < i + Z.of_nat cnt ->
  (forall j, i <= j < stop ->
     trapezoid_stops inf sup f n precision j = false) ->
  trapezoid_stops inf sup f n precision stop = true ->
  fst (for_break cnt i trapezoid_body (trapezoid_sum inf sup f n (i - 1), prev))
  = trapezoid_sum inf sup f n stop.
Proof.
  revert i prev. induction cnt as [|cnt IH]; intros i prev Hi Hcnt Hno Hyes;
    [lia|].
  rewrite for_break_S, body_step by lia. simpl snd. simpl fst.
  destruct (decide (i = stop)) as [->|Hne].
  - by rewrite Hyes.
  - rewrite Hno by lia.
    replace (trapezoid_sum inf sup f n i)
      with (trapezoid_sum inf sup f n (i + 1 - 1)) by (f_equal; lia).
    apply IH; [lia | lia | | done].
    intros j Hj. apply Hno. lia.
Qed.

End TrapezoidLoop.

(** X23: [Trapezoidal] leaves its loop at the first interior node [k] at
    which adding [f] changes the running sum by at most [precision], and
    returns the sum up to that node times [h]: the nodes after [k] are not
    visited, however many intervals were asked for. *)
Theorem Trapezoidal_stops_early inf sup f n precision k :
  1 <= k < trapezoid_intervals n ->
  (forall j, 1 <= j < k ->
     trapezoid_stops inf sup f n precision j = false) ->
  trapezoid_stops inf sup f n precision k = true ->
  Trapezoidal inf sup f n precision
  = (trapezoid_sum inf sup f n k
     * ((sup - inf) / float64_of_int (trapezoid_intervals n)))%float.
Proof.
  intros Hk Hno Hyes. rewrite Trapezoidal_unfold. f_equal.
  change (0.5 * f inf + 0.5 * f sup)%float
    with (trapezoid_sum inf sup f n (1 - 1)).
  apply for_break_at; (done || lia).
Qed.

Lemma Trapezoidal_stops_early_witness :
  1 <= 1 < trapezoid_intervals 4 /\
  trapezoid_stops 0 1 (fun _ => 0%float) 4 0 1 = true /\
  Trapezoidal 0 1 (fun _ => 0%float) 4 0
  = (trapezoid_sum 0 1 (fun _ => 0%float) 4 1
     * ((1 - 0) / float64_of_int (trapezoid_intervals 4)))%float.
Proof.
  assert (trapezoid_stops 0 1 (fun _ => 0%float) 4 0 1 = true) as Hyes
    by by vm_compute.
  split; [by vm_compute|]. split; [done|].
  apply Trapezoidal_stops_early; [by vm_compute | intros; lia | done].
Defined.

(** No absolute value is at most a [precision] that is negative or NaN. *)
Lemma leb_abs_false x p :
  PrimFloat.leb 0 p = false -> PrimFloat.leb (abs x) p = false.
Proof.
  rewrite !FloatAxioms.leb_spec, FloatAxioms.abs_spec.
  change (Prim2SF 0) with (S754_zero false).
  destruct (Prim2SF p) as [sp|sp| |sp mp ep], (Prim2SF x) as [sx|sx| |sx mx ex];
    try destruct sp; try destruct sx; simpl; done.
Qed.

(** X24: with a [precision] that is negative or NaN, [Trapezoidal] never
    leaves its loop early: it returns the sum over all the interior nodes
    [1 .. n-1] times [h]; with [n = 0] the nodes are those of [100000]
    intervals, and with [n <= 1] otherwise there is no interior node. *)
Theorem Trapezoidal_complete inf sup f n precision :
  PrimFloat.leb 0 precision = false ->
  Trapezoidal inf sup f n precision
  = (trapezoid_sum inf sup f n (trapezoid_intervals n - 1)
     * ((sup - inf) / float64_of_int (trapezoid_intervals n)))%float.
Proof.
  intros Hneg. rewrite Trapezoidal_unfold. f_equal.
  change (0.5 * f inf + 0.5 * f sup)%float
    with (trapezoid_sum inf sup f n (1 - 1)).
  rewrite for_break_through; [|lia|].
  - unfold trapezoid_sum. cbv zeta. f_equal. lia.
  - intros j _. unfold trapezoid_stops. by apply leb_abs_false.
Qed.

Lemma Trapezoidal_complete_witness :
  PrimFloat.leb 0 (-1) = false /\
  Trapezoidal 0 1 (fun x => x) 4 (-1)
  = (trapezoid_sum 0 1 (fun x => x) 4 (trapezoid_intervals 4 - 1)
     * ((1 - 0) / float64_of_int (trapezoid_intervals 4)))%float.
Proof.
  split; [by vm_compute|]. apply Trapezoidal_complete. by vm_compute.
Defined.

(** X25: with [n <= 1], [n] not [0], [Trapezoidal] visits no interior
    node: it returns [(0.5*f(inf) + 0.5*f(sup)) * h] with
    [h = (sup - inf) / float64(n)], also for a negative [n], which is not
    refused. *)
Theorem Trapezoidal_no_interior inf sup f n precision :
  n <> 0 -> n <= 1 ->
  Trapezoidal inf sup f n precision
  = ((0.5 * f inf + 0.5 * f sup)
     * ((sup - inf) / float64_of_int n))%float.
Proof.
  intros Hn0 Hn1. rewrite Trapezoidal_unfold. unfold trapezoid_intervals.
  destruct (Z.eqb_spec n 0); [done|].
  by replace (Z.to_nat (n - 1)) with 0%nat by lia.
Qed.

Lemma Trapezoidal_no_interior_witness :
  -3 <> 0 /\ -3 <= 1 /\
  Trapezoidal 0 1 (fun x => x) (-3) 0
  = ((0.5 * 0 + 0.5 * 1) * ((1 - 0) / float64_of_int (-3)))%float.
Proof.
  split; [lia|]. split; [lia|].
  apply (Trapezoidal_no_interior 0 1 (fun x => x) (-3) 0); lia.
Defined.

(** ** [Romberg] *)

(** X26: with a negative [maxSteps], [Romberg] takes no step and returns
    [0.0], whatever the bounds, the function and the precision are. *)
Theorem Romberg_no_step Pow int_of_float64 fuel inf sup f maxSteps precision h :
  (1 <= fuel)%nat -> maxSteps < 0 ->
  Romberg Pow int_of_float64 fuel inf sup f maxSteps precision h
  = Val (0%float, h).
Proof.
  intros Hfuel Hneg. unfold Romberg.
  destruct (Z.eqb_spec maxSteps 0); [lia|].
  destruct fuel as [|fuel]; [lia|]. unfold bind. simpl while.
  destruct (Z.leb_spec 1 maxSteps); [lia|]. done.
Qed.

Lemma Romberg_no_step_witness :
  (1 <= 1)%nat /\ -5 < 0 /\
  Romberg (fun x _ => x) (fun _ => 1) 1 0 1 (fun x => x) (-5) 0 []
  = Val (0%float, []).
Proof.
  split; [lia|]. split; [lia|]. apply Romberg_no_step; lia.
Defined.

(** X27: with [maxSteps = 1], [Romberg] returns the trapezoid on the whole
    interval, [(sup - inf) / 2 * (f(sup) + f(inf))], whatever the precision
    is. *)
Theorem Romberg_one_step Pow int_of_float64 fuel inf sup f precision h :
  (2 <= fuel)%nat ->
  Romberg Pow int_of_float64 fuel inf sup f 1 precision h
  = Val (((sup - inf) / 2 * (f sup + f inf))%float, h).
Proof.
  intros Hfuel. unfold Romberg.
  destruct fuel as [|[|fuel]]; [lia | lia |]. reflexivity.
Qed.

Lemma Romberg_one_step_witness :
  (2 <= 2)%nat /\
  Romberg (fun x _ => x) (fun _ => 1) 2 0 1 (fun x => x) 1 0 []
  = Val (((1 - 0) / 2 * (1 + 0))%float, []).
Proof.
  split; [lia|].
  apply (Romberg_one_step (fun x _ => x) (fun _ => 1) 2 0 1 (fun x => x) 0 []).
  lia.
Defined.

(** * The determinant and the operations on square matrices *)

(** X29: the determinant of a well-formed square matrix is the product,
    from [1.0] and in increasing index, of the diagonal of the factor [U]
    that [LUDecomposition] returns, each multiplication rounded;
    [Determinant] leaves the store as [LUDecomposition] leaves it.  For a
    matrix without rows the product is [1.0]. *)
Theorem Determinant_pivots h m :
  wf h m -> NumberOfColumns m = NumberOfRows m ->
  exists l u h' det,
    LUDecomposition m h = Val ((Some l, Some u, None), h') /\
    Determinant m h = Val ((det, None), h') /\
    det = dprod (fun i => entry (NumberOfRows m) (elements h' u) i i)
                (Z.to_nat (NumberOfRows m)) 0 1%float.
Proof.
  intros Hwf Hsq.
  destruct (LUDecomposition_square h m Hwf Hsq) as (lc & uc & Hlu & Hst).
  pose proof (lu_len_u _ _ _ _ _ _ _ Hst) as Hlen.
  pose proof (diagonal_product_spec h m lc uc Hwf Hsq Hlen) as Hdiag.
  exists (lu_lower h m), (lu_upper h m), (h ++ [lc; uc]).
  eexists. split; [done|]. split.
  - unfold Determinant, IsSquare.
    rewrite Hsq, Z.eqb_refl. change (negb true) with false. cbv iota.
    unfold bind. rewrite Hlu. cbv beta iota. by rewrite Hdiag.
  - assert (elements (h ++ [lc; uc]) (lu_upper h m) = uc) as ->; [|done].
    change (h ++ [lc; uc]) with (h ++ [lc] ++ [uc]). rewrite app_assoc.
    apply (elements_whole (h ++ [lc]) uc []); simpl.
    + rewrite length_app. simpl. lia.
    + done.
    + rewrite Hsq, Hlen.
      pose proof (wf_rows h m Hwf). nia.
Qed.

Lemma Determinant_pivots_witness :
  wf store_2x2 matrix_2x2 /\
  NumberOfColumns matrix_2x2 = NumberOfRows matrix_2x2 /\
  exists l u h' det,
    LUDecomposition matrix_2x2 store_2x2 = Val ((Some l, Some u, None), h') /\
    Determinant matrix_2x2 store_2x2 = Val ((det, None), h').
Proof.
  split; [exact wf_matrix_2x2|]. split; [done|].
  destruct (Determinant_pivots store_2x2 matrix_2x2 wf_matrix_2x2 eq_refl)
    as (l & u & h' & det & Hlu & Hdet & _).
  by exists l, u, h', det.
Defined.

(** X30: on a matrix that is not square, [Trace], [Determinant],
    [LUDecomposition], [Inverse] and [Cofactor] return the same error, whose
    message is that of the non-square code, and no matrix, and leave the
    store as it was. *)
Theorem non_square_operations h m :
  NumberOfColumns m <> NumberOfRows m ->
  exists e,
    Error e = "Tried to do an operation on a non square matrix"%string /\
    Trace m h = Val ((0%float, Some e), h) /\
    Determinant m h = Val ((0%float, Some e), h) /\
    LUDecomposition m h = Val ((None, None, Some e), h) /\
    Inverse m h = Val ((None, Some e), h) /\
    Cofactor m h = Val ((None, Some e), h).
Proof.
  intros Hns. exists (error_code errorNonSquareMatrix).
  destruct (non_square_errors h m Hns) as (Hlu & Hdet & _ & Hinv).
  split; [done|].
  split; [|by repeat split; try done; unfold Cofactor, IsSquare;
            destruct (Z.eqb_spec (NumberOfColumns m) (NumberOfRows m))].
  unfold Trace, IsSquare.
  by destruct (Z.eqb_spec (NumberOfColumns m) (NumberOfRows m)).
Qed.

Lemma non_square_operations_witness :
  NumberOfColumns matrix_2x3 <> NumberOfRows matrix_2x3 /\
  exists e,
    Determinant matrix_2x3 store_2x3 = Val ((0%float, Some e), store_2x3) /\
    Cofactor matrix_2x3 store_2x3 = Val ((None, Some e), store_2x3).
Proof.
  split; [done|].
  destruct (non_square_operations store_2x3 matrix_2x3)
    as (e & _ & _ & Hdet & _ & _ & Hco); [done|].
  by exists e.
Defined.
